(** * A Hilbert-system proof generator: formal_proof_printer.py

    A shallow embedding of the Python program and the properties of its
    search engine.  Python strings are sequences of Unicode code points, so
    a formula is a list of code points (len counts code points, comparison
    is lexicographic on them); dictionaries that are only indexed are finite
    maps, the set of seen step sequences is a finite set, and the dictionary
    whose insertion order is observed is an association list. *)

From Stdlib Require Import NArith Ascii String.
From stdpp Require Import base decidable option numbers list sets gmap sorting.
From Stdlib Require Import Decimal.

Local Open Scope nat_scope.

(** ** Python strings *)

(** A character is its code point. *)
Abbreviation char := N (only parsing).
Abbreviation str := (list N) (only parsing).

(** String literals of the source are written as Rocq strings, whose bytes
    are the UTF-8 encoding of the text; [lit] decodes them to code points. *)
Fixpoint utf8_decode (s : string) : str :=
  match s with
  | EmptyString => []
  | String a s1 =>
      let b0 := N_of_ascii a in
      if (b0 <? 192)%N then b0 :: utf8_decode s1
      else
        match s1 with
        | EmptyString => [b0]
        | String a1 s2 =>
            let b1 := N_of_ascii a1 in
            if (b0 <? 224)%N then ((b0 - 192) * 64 + (b1 - 128))%N :: utf8_decode s2
            else
              match s2 with
              | EmptyString => [b0; b1]
              | String a2 s3 =>
                  let b2 := N_of_ascii a2 in
                  if (b0 <? 240)%N
                  then ((b0 - 224) * 4096 + (b1 - 128) * 64 + (b2 - 128))%N
                         :: utf8_decode s3
                  else
                    match s3 with
                    | EmptyString => [b0; b1; b2]
                    | String a3 s4 =>
                        ((b0 - 240) * 262144 + (b1 - 128) * 4096
                         + (b2 - 128) * 64 + (N_of_ascii a3 - 128))%N
                          :: utf8_decode s4
                    end
              end
        end
  end.

Definition lit (s : string) : str := utf8_decode s.

(** The two symbols of the formula language that are not ASCII. *)
Definition NOT_SIGN : char := 172%N.     (* U+00AC *)
Definition ARROW : char := 8594%N.       (* U+2192 *)

(** [s.startswith(t)] and [s.endswith(t)]. *)
Definition startswith (s t : str) : bool := bool_decide (t `prefix_of` s).
Definition endswith (s t : str) : bool := bool_decide (t `suffix_of` s).

(** [s[a:-1]]: from index [a] up to, not including, the last character. *)
Definition slice_to_last (s : str) (a : nat) : str :=
  drop a (take (length s - 1) s).

(** [len(s)] is [length s]; the order of [str] used by [sorted] is the
    lexicographic order on code points. *)
Fixpoint str_ltb (s t : str) : bool :=
  match s, t with
  | _, [] => false
  | [], _ :: _ => true
  | c :: s', d :: t' =>
      if (c <? d)%N then true
      else if (d <? c)%N then false
      else str_ltb s' t'
  end.

(** ** Modus Ponens *)

(** [apply_mp(p, p_implies_q)]: [None] is Python's None. *)
Definition apply_mp (p p_implies_q : str) : option str :=
  let expected_form := lit "(" ++ p ++ lit " → " in
  if startswith p_implies_q expected_form && endswith p_implies_q (lit ")")
  then Some (slice_to_last p_implies_q (length expected_form))
  else None.

(** The text [(p → q)]. *)
Definition implication (p q : str) : str :=
  lit "(" ++ p ++ lit " → " ++ q ++ lit ")".


(** ** Python containers *)

(** [str(n)] for a non-negative integer: its decimal digits. *)
Fixpoint digits (u : Decimal.uint) : str :=
  match u with
  | Nil => []
  | D0 u' => 48%N :: digits u'
  | D1 u' => 49%N :: digits u'
  | D2 u' => 50%N :: digits u'
  | D3 u' => 51%N :: digits u'
  | D4 u' => 52%N :: digits u'
  | D5 u' => 53%N :: digits u'
  | D6 u' => 54%N :: digits u'
  | D7 u' => 55%N :: digits u'
  | D8 u' => 56%N :: digits u'
  | D9 u' => 57%N :: digits u'
  end.

Definition str_of_nat (n : nat) : str := digits (Nat.to_uint n).

(** [sep.join(parts)]. *)
Fixpoint join (sep : str) (parts : list str) : str :=
  match parts with
  | [] => []
  | [x] => x
  | x :: rest => x ++ sep ++ join sep rest
  end.

(** A dict whose order is observed: an association list in insertion order.
    Assigning to a key that is present keeps its position. *)
Section Dict.
Context {K V : Type} `{EqDecision K}.

Fixpoint dict_get (k : K) (d : list (K * V)) : option V :=
  match d with
  | [] => None
  | (k', v) :: d' => if decide (k = k') then Some v else dict_get k d'
  end.

Fixpoint dict_set (k : K) (v : V) (d : list (K * V)) : list (K * V) :=
  match d with
  | [] => [(k, v)]
  | (k', v') :: d' =>
      if decide (k = k') then (k, v) :: d' else (k', v') :: dict_set k v d'
  end.

Definition dict_keys (d : list (K * V)) : list K := d.*1.
Definition dict_values (d : list (K * V)) : list V := d.*2.

(** [dict(zip(ks, vs))] *)
Definition dict_of_zip (ks : list K) (vs : list V) : list (K * V) :=
  foldl (λ d kv, dict_set kv.1 kv.2 d) [] (zip ks vs).
End Dict.

(** [itertools.product(pool, repeat=n)]: the rightmost position advances
    fastest. *)
Fixpoint product {A} (pool : list A) (n : nat) : list (list A) :=
  match n with
  | O => [[]]
  | S n' => x ← pool; (x ::.) <$> product pool n'
  end.

(** [sorted(xs, key=key)] for a key ordered by [ltb]: the stable sort, which
    places an element before the first later one whose key is not smaller. *)
Section Sorted.
Context {A : Type} (ltb : A → A → bool).

Fixpoint sorted_insert (x : A) (l : list A) : list A :=
  match l with
  | [] => [x]
  | y :: l' => if ltb y x then y :: sorted_insert x l' else x :: y :: l'
  end.

Definition sorted (l : list A) : list A := foldr sorted_insert [] l.
End Sorted.

(** ** Configuration *)

Definition MAX_LENGTH : nat := 5.

Definition WFF_BASIS : list str :=
  [ lit "a"; lit "b";
    lit "(¬a)"; lit "(¬b)";
    lit "(a → a)";
    lit "(a → b)";
    lit "(¬(¬a))";
    lit "((¬a) → (¬b))";
    lit "((¬b) → (¬a))" ].

(** [AXIOM_TEMPLATES.items()], in insertion order. *)
Definition AXIOM_TEMPLATES : list (str * (str * list str)) :=
  [ (lit "A1", (lit "(A → (B → A))", [lit "A"; lit "B"]));
    (lit "A2", (lit "((A → (B → C)) → ((A → B) → (A → C)))",
                [lit "A"; lit "B"; lit "C"]));
    (lit "A3", (lit "((¬B → ¬A) → (A → B))", [lit "A"; lit "B"])) ].

(** A proof is the pair (steps, justifications) of two tuples of strings. *)
Abbreviation proof := (list (list N) * list (list N))%type (only parsing).

(** [get_proof_complexity(steps)] *)
Definition get_proof_complexity (steps : list str) : nat :=
  sum_list_with length steps.

(** What [find_all_proofs] writes to its file handle, one constructor per
    [write] statement, carrying the values formatted into the text. *)
Inductive event :=
  | GeneratingAxioms (basis : list str)
      (* the two header lines before Step 1 *)
  | FoundLength1 (n : nat)          (* Found n unique length-1 proofs. *)
  | SearchingUpTo (n : nat)         (* --- Searching for proofs up to length n --- *)
  | NoProofsOfLength (k : nat)      (* No proofs of length k found, stopping search. *)
  | Generating (k n : nat)          (* Generating proofs of length k from n proofs ... *)
  | FoundNew (k n : nat)            (* Found n new unique proofs of length k. *)
  | NoNewProofs (k : nat)           (* No new proofs of length k found, stopping search. *)
  | SearchComplete                  (* --- Search Complete --- *)
  | FoundTotal (n : nat)            (* Found a total of n proofs (including non-minimal). *)
  | FoundWithMP (n : nat)           (* Found n proofs of length 3 or more that use ... *)
  | NoneWithMP                      (* No proofs found with length 3 or more that use MP. *)
  | Filtering (n : nat)             (* Filtering down ... each of n unique theorems... *)
  | Printed (steps justs : list str). (* the block written by print_proof *)

(** [print_proof]: nothing is written for an empty proof. *)
Definition print_proof (steps justs : list str) : list event :=
  match steps with
  | [] => []
  | _ :: _ => [Printed steps justs]
  end.

(** The state of [find_all_proofs]: its three local accumulators and what
    it has written so far (oldest first). *)
Record state := State {
  proofs_at_len : gmap nat (list proof);
  seen_steps_at_len : gmap nat (gset (list str));
  total_proof_count : nat;
  written : list event
}.

(** Reading a defaultdict: an absent key reads as the empty list or set. *)
Definition layer (st : state) (k : nat) : list proof :=
  default [] (proofs_at_len st !! k).
Definition seen (st : state) (k : nat) : gset (list str) :=
  default ∅ (seen_steps_at_len st !! k).

Definition write (e : event) (st : state) : state :=
  State (proofs_at_len st) (seen_steps_at_len st) (total_proof_count st)
        (written st ++ [e]).

(** The block the source repeats at its three insertion sites: a proof is
    appended to layer [k] unless its step sequence is in the seen set. *)
Definition record_proof (k : nat) (new_steps new_justs : list str)
    (st : state) : state :=
  if decide (new_steps ∈ seen st k) then st
  else State (<[k := layer st k ++ [(new_steps, new_justs)]]> (proofs_at_len st))
             (<[k := seen st k ∪ {[new_steps]}]> (seen_steps_at_len st))
             (S (total_proof_count st))
             (written st).

(** [f"MP ({i+1},{j+1})"] *)
Definition mp_just (i j : nat) : str :=
  lit "MP (" ++ str_of_nat (i + 1) ++ lit "," ++ str_of_nat (j + 1) ++ lit ")".

(** [f"{name} [{sub_str}]"] *)
Definition axiom_just (name : str) (sub_dict : list (str * str)) : str :=
  let sub_str := join (lit ", ") ((λ kv, kv.1 ++ lit "=" ++ kv.2) <$> sub_dict) in
  name ++ lit " [" ++ sub_str ++ lit "]".

(** [for ... break]: what the body of a loop does to the loop. *)
Inductive flow := Next | Break.

Fixpoint for_each {S} (ks : list nat) (body : nat → S → flow * S) (st : S) : S :=
  match ks with
  | [] => st
  | k :: ks' =>
      match body k st with
      | (Break, st') => st'
      | (Next, st') => for_each ks' body st'
      end
  end.

(** The values of [k] for which the body of [for k in ks] is entered: the
    trace of the loop, used to state which rounds run. *)
Fixpoint iterations {S} (ks : list nat) (body : nat → S → flow * S) (st : S)
    : list nat :=
  match ks with
  | [] => []
  | k :: ks' =>
      k :: match body k st with
           | (Break, _) => []
           | (Next, st') => iterations ks' body st'
           end
  end.

(** [seen_steps_at_len.pop(k, None)] *)
Definition pop_seen (k : nat) (st : state) : state :=
  State (proofs_at_len st) (delete k (seen_steps_at_len st))
        (total_proof_count st) (written st).

(** [range(a, b)] *)
Definition range (a b : nat) : list nat := seq a (b - a).

Section Program.

(** [str.isalnum] of a character outside ASCII, from the Unicode database
    of the interpreter. *)
Variable unicode_alnum : char → bool.

(** ** The regular expression of [substitute] *)

Definition is_alnum (c : char) : bool :=
  if (c <? 128)%N then
    ((48 <=? c) && (c <=? 57) || (65 <=? c) && (c <=? 90)
     || (97 <=? c) && (c <=? 122))%N
  else if bool_decide (c = NOT_SIGN ∨ c = ARROW) then false  (* category Sm *)
  else unicode_alnum c.

(** [\w] on str patterns: alphanumeric or underscore. *)
Definition is_word (c : char) : bool := is_alnum c || (c =? 95)%N.

(** [\b] between two neighbours, either of which may be an end of the
    string. *)
Definition word_at (c : option char) : bool := from_option is_word false c.
Definition boundary (prev next : option char) : bool :=
  xorb (word_at prev) (word_at next).

(** Whether [\b var \b] (with [var] escaped, hence literal) matches at the
    current position, [prev] being the character before it and [rest] the
    text from it. *)
Definition match_here (var : str) (prev : option char) (rest : str) : bool :=
  boundary prev (head rest)
  && startswith rest var
  && boundary (from_option Some prev (last var)) (head (drop (length var) rest)).

(** [re.sub(r'\b' + re.escape(var) + r'\b', wff, s)] for a replacement
    without backslash, which re.sub inserts as it is: the leftmost
    non-overlapping matches are replaced; [skip] counts the characters of a
    match still to be passed over. An empty [var] matches the empty string
    at every word boundary. *)
Fixpoint re_sub_from (var wff : str) (prev : option char) (skip : nat)
    (s : str) : str :=
  match s with
  | [] => if match_here var prev [] then wff else []
  | c :: s' =>
      match skip with
      | S n => re_sub_from var wff (Some c) n s'
      | O =>
          if match_here var prev s then
            match var with
            | [] => wff ++ c :: re_sub_from var wff (Some c) 0 s'
            | _ :: v' => wff ++ re_sub_from var wff (Some c) (length v') s'
            end
          else c :: re_sub_from var wff (Some c) 0 s'
      end
  end.

Definition re_sub (var wff s : str) : str := re_sub_from var wff None 0 s.

(** [re.search(r'\b' + re.escape(var) + r'\b', s) is not None] *)
Fixpoint has_token_from (var : str) (prev : option char) (s : str) : bool :=
  match_here var prev s
  || match s with
     | [] => false
     | c :: s' => has_token_from var (Some c) s'
     end.

Definition has_token (var s : str) : bool := has_token_from var None s.

(** [sorted(sub_dict.keys(), key=len, reverse=True)]: a stable sort, so
    keys of equal length keep their order. *)
Definition longest_first (keys : list str) : list str :=
  sorted (λ x y : str, length y <? length x) keys.

(** [substitute(template, sub_dict)] *)
Definition substitute (template : str) (sub_dict : list (str * str)) : str :=
  let sorted_keys := longest_first (dict_keys sub_dict) in
  foldl (λ formula var,
           let wff := default [] (dict_get var sub_dict) in
           re_sub var wff formula)
        template sorted_keys.

(** ** The search *)

(** Step 1: all axiom instances over the basis. *)
Definition instantiate_template (basis : list str)
    (entry : str * (str * list str)) (st : state) : state :=
  let '(name, (template, vars)) := entry in
  foldl (λ st combo,
           let sub_dict := dict_of_zip vars combo in
           let just := axiom_just name sub_dict in
           let formula := substitute template sub_dict in
           record_proof 1 [formula] [just] st)
        st (product basis (length vars)).

Definition generate_length_1 (basis : list str) (st : state) : state :=
  foldl (λ st entry, instantiate_template basis entry st) st AXIOM_TEMPLATES.

(** Option A: append each length-1 proof. *)
Definition extend_with_axioms (k : nat) (steps justs : list str)
    (st : state) : state :=
  foldl (λ st (axiom_proof : proof),
           let ax_step := default [] (axiom_proof.1 !! 0) in
           let ax_just := default [] (axiom_proof.2 !! 0) in
           record_proof k (steps ++ [ax_step]) (justs ++ [ax_just]) st)
        st (layer st 1).

(** Option B: append the consequent of every pair of distinct lines; an
    empty consequent is falsy and is passed over like None. *)
Definition try_mp (k : nat) (steps justs : list str) (i j : nat)
    (st : state) : state :=
  if bool_decide (i = j) then st
  else
    let p := default [] (steps !! i) in
    let p_implies_q := default [] (steps !! j) in
    match apply_mp p p_implies_q with
    | Some (c :: q') =>
        record_proof k (steps ++ [c :: q']) (justs ++ [mp_just i j]) st
    | Some [] | None => st
    end.

Definition extend_with_mp (k : nat) (steps justs : list str)
    (st : state) : state :=
  foldl (λ st i,
           foldl (λ st j, try_mp k steps justs i j st) st (range 0 (k - 1)))
        st (range 0 (k - 1)).

Definition extend_proof (k : nat) (pr : proof) (st : state) : state :=
  let '(steps, justs) := pr in
  extend_with_mp k steps justs (extend_with_axioms k steps justs st).

(** The body of the loop over [k]. *)
Definition grow (k : nat) (st : state) : flow * state :=
  let prev_proofs := layer st (k - 1) in
  match prev_proofs with
  | [] => (Break, write (NoProofsOfLength (k - 1)) st)
  | _ :: _ =>
      let st := write (Generating k (length prev_proofs)) st in
      let st := foldl (λ st pr, extend_proof k pr st) st prev_proofs in
      let st := write (FoundNew k (length (layer st k))) st in
      match layer st k with
      | [] => (Break, write (NoNewProofs k) st)
      | _ :: _ =>
          (Next, pop_seen (k - 1) st)
      end
  end.

Definition initial : state := State ∅ ∅ 0 [].

(** Step 1, up to the loop over [k]. *)
Definition before_loop (basis : list str) (max_length : nat) : state :=
  let st := write (GeneratingAxioms basis) initial in
  let st := generate_length_1 basis st in
  let st := write (FoundLength1 (length (layer st 1))) st in
  write (SearchingUpTo max_length) st.

(** Steps 1 and 2, up to the line that writes Search Complete. *)
Definition search (basis : list str) (max_length : nat) : state :=
  let st := before_loop basis max_length in
  let st := for_each (range 2 (max_length + 1)) grow st in
  write SearchComplete st.

(** ** Step 3: the minimizer and the report *)

Definition all_proofs (max_length : nat) (st : state) : list proof :=
  k ← range 3 (max_length + 1); layer st k.

Definition uses_mp (justs : list str) : bool :=
  existsb (λ just, startswith just (lit "MP")) justs.

Definition proofs_with_mp (max_length : nat) (st : state) : list proof :=
  filter (λ pr : proof, uses_mp pr.2 = true) (all_proofs max_length st).

(** [steps[-1]] *)
Definition theorem_of (steps : list str) : str := default [] (last steps).

(** One round of the loop that fills [best_proofs_for_theorem]. *)
Definition consider (best : list (str * proof)) (pr : proof) : list (str * proof) :=
  let '(steps, justs) := pr in
  let theorem := theorem_of steps in
  let complexity := get_proof_complexity steps in
  match dict_get theorem best with
  | None => dict_set theorem pr best
  | Some current_best_proof =>
      let current_best_complexity := get_proof_complexity current_best_proof.1 in
      if (complexity <? current_best_complexity)
         || ((complexity =? current_best_complexity)
             && (length steps <? length current_best_proof.1))
      then dict_set theorem pr best
      else best
  end.

Definition best_proofs_for_theorem (candidates : list proof) : list (str * proof) :=
  foldl consider [] candidates.

(** The order of the keys [(len(p[0]), p[0][-1])]: tuples compare
    lexicographically. *)
Definition report_key_ltb (p1 p2 : proof) : bool :=
  (length p1.1 <? length p2.1)
  || ((length p1.1 =? length p2.1)
      && str_ltb (theorem_of p1.1) (theorem_of p2.1)).

Definition final_proofs (best : list (str * proof)) : list proof :=
  sorted report_key_ltb (dict_values best).

(** [find_all_proofs(file_handle)], as what it writes to the handle. *)
Definition find_all_proofs (basis : list str) (max_length : nat) : list event :=
  let st := search basis max_length in
  let st := write (FoundTotal (total_proof_count st)) st in
  let with_mp := proofs_with_mp max_length st in
  let st := write (FoundWithMP (length with_mp)) st in
  match with_mp with
  | [] => written (write NoneWithMP st)
  | _ :: _ =>
      let best := best_proofs_for_theorem with_mp in
      let st := write (Filtering (length best)) st in
      written st ++ (pr ← final_proofs best; print_proof pr.1 pr.2)
  end.

End Program.

(** ** The vocabulary of the properties

    [reachable basis k st]: the state [st] arises in the search while layer
    [k] is the newest layer under construction.  Each constructor is one
    statement of the source that changes the state, with the facts the
    loops around it provide. *)
Section Vocabulary.
Variable unicode_alnum : char → bool.
Variable basis : list str.

Inductive reachable : nat → state → Prop :=
  | reach_initial : reachable 1 initial
  | reach_write k e st : reachable k st → reachable k (write e st)
  | reach_axiom st name template vars combo :
      reachable 1 st →
      (name, (template, vars)) ∈ AXIOM_TEMPLATES →
      combo ∈ product basis (length vars) →
      reachable 1
        (record_proof 1
           [substitute unicode_alnum template (dict_of_zip vars combo)]
           [axiom_just name (dict_of_zip vars combo)] st)
  | reach_next k st : reachable k st → reachable (S k) st
  | reach_extend_axiom k st (pr axiom_proof : proof) :
      2 ≤ k → reachable k st →
      pr ∈ layer st (k - 1) → axiom_proof ∈ layer st 1 →
      reachable k
        (record_proof k (pr.1 ++ [default [] (axiom_proof.1 !! 0)])
                        (pr.2 ++ [default [] (axiom_proof.2 !! 0)]) st)
  | reach_extend_mp k st (pr : proof) i j p p_implies_q q :
      2 ≤ k → reachable k st →
      pr ∈ layer st (k - 1) →
      i ≠ j → pr.1 !! i = Some p → pr.1 !! j = Some p_implies_q →
      apply_mp p p_implies_q = Some q → q ≠ [] →
      reachable k (record_proof k (pr.1 ++ [q]) (pr.2 ++ [mp_just i j]) st)
  | reach_pop k st : 2 ≤ k → reachable k st → reachable k (pop_seen (k - 1) st).

(** Line [n] of a proof is an instance of an axiom schema over the basis,
    justified by the name of the schema and the assignment. *)
Definition axiom_line (pr : proof) (n : nat) : Prop :=
  ∃ name template vars combo,
    (name, (template, vars)) ∈ AXIOM_TEMPLATES
    ∧ combo ∈ product basis (length vars)
    ∧ pr.1 !! n = Some (substitute unicode_alnum template (dict_of_zip vars combo))
    ∧ pr.2 !! n = Some (axiom_just name (dict_of_zip vars combo)).

(** Line [n] is the consequent [apply_mp] returns on two distinct earlier
    lines, the ones its justification names (counting from 1). *)
Definition mp_line (pr : proof) (n : nat) : Prop :=
  ∃ i j p p_implies_q q,
    i ≠ j ∧ i < n ∧ j < n
    ∧ pr.1 !! i = Some p ∧ pr.1 !! j = Some p_implies_q
    ∧ apply_mp p p_implies_q = Some q
    ∧ pr.1 !! n = Some q
    ∧ pr.2 !! n = Some (mp_just i j).

(** A proof of layer [k]: [k] lines, each of one of the two kinds. *)
Definition sound (k : nat) (pr : proof) : Prop :=
  length pr.1 = k ∧ length pr.2 = k
  ∧ ∀ n, n < k → axiom_line pr n ∨ mp_line pr n.

(** The list [final_proofs] that [find_all_proofs] prints. *)
Definition reported (max_length : nat) : list proof :=
  final_proofs
    (best_proofs_for_theorem
       (proofs_with_mp max_length (search unicode_alnum basis max_length))).

End Vocabulary.

(** The same states, forgetting what is recorded: enough for the
    properties of the bookkeeping. *)
Inductive built : nat → state → Prop :=
  | built_initial : built 1 initial
  | built_write k e st : built k st → built k (write e st)
  | built_record k steps justs st :
      built k st → built k (record_proof k steps justs st)
  | built_next k st : built k st → built (S k) st
  | built_pop k st : 2 ≤ k → built k st → built k (pop_seen (k - 1) st).

(** While layer [k] is extended, the other layers stay as they are. *)
Definition same_below (k : nat) (st st' : state) : Prop :=
  ∀ i, i ≠ k → layer st' i = layer st i.

(** Layers only grow, at their end. *)
Definition extends (st st' : state) : Prop :=
  ∀ i, layer st i `prefix_of` layer st' i.

(** The proof [pr] of layer [k - 1] has lines [i] and [j] to which
    [apply_mp] applies, with a consequent that is not empty. *)
Definition has_consequence (pr : proof) (i j : nat) (q : str) : Prop :=
  i ≠ j ∧ q ≠ []
  ∧ ∃ p p_implies_q,
      pr.1 !! i = Some p ∧ pr.1 !! j = Some p_implies_q
      ∧ apply_mp p p_implies_q = Some q.

(** One proof is at least as simple as another: lower complexity, or the
    same complexity and no more steps. *)
Definition simpler_or_equal (steps1 steps2 : list str) : Prop :=
  get_proof_complexity steps1 ≤ get_proof_complexity steps2
  ∧ (get_proof_complexity steps1 = get_proof_complexity steps2 →
     length steps1 ≤ length steps2).

(** The three-line derivation of [((a → a) → (a → a))] found over the
    basis [a]. *)
Definition three_lines : proof :=
  ([lit "(a → (a → a))";
    lit "((a → (a → a)) → ((a → a) → (a → a)))";
    lit "((a → a) → (a → a))"],
   [lit "A1 [A=a, B=a]"; lit "A2 [A=a, B=a, C=a]"; lit "MP (1,2)"]).

Section OneLetter.
Variable unicode_alnum : char → bool.

Local Abbreviation isw := (is_word unicode_alnum).
Local Abbreviation wat := (word_at unicode_alnum).

(** [re_sub] for a variable that is one word character [v]: [pw] tells
    whether the previous character is a word character. *)
Fixpoint sub1 (v : char) (wff : str) (pw : bool) (s : str) : str :=
  match s with
  | [] => []
  | c :: s' =>
      if (c =? v)%N && negb pw && negb (wat (head s'))
      then wff ++ sub1 v wff true s'
      else c :: sub1 v wff (isw c) s'
  end.

Fixpoint tok1 (v : char) (pw : bool) (s : str) : bool :=
  match s with
  | [] => false
  | c :: s' =>
      (c =? v)%N && negb pw && negb (wat (head s')) || tok1 v (isw c) s'
  end.

(** A formula in which none of the schema variables occurs as a token. *)
Definition no_schema_variable (w : str) : Prop :=
  has_token unicode_alnum (lit "A") w = false
  ∧ has_token unicode_alnum (lit "B") w = false
  ∧ has_token unicode_alnum (lit "C") w = false.

End OneLetter.

(** The characters of a text other than closing parentheses. *)
Definition visible (s : str) : str := filter (λ c, c ≠ 41%N) s.

(** The last character before the closing parentheses at the end of a
    text, when there is one, is not a space. *)
Definition ends_well (s : str) : Prop := last (visible s) ≠ Some 32%N.

(** The same, and there is such a character. *)
Definition ends_in_symbol (s : str) : Prop :=
  visible s ≠ [] ∧ ends_well s.

(** Formulas as the specification describes them: fully parenthesized
    expressions over atoms, negation and implication.  An atom is a
    non-empty run of letters and digits. *)
Inductive ground_formula (unicode_alnum : char → bool) : str → Prop :=
  | ground_atom a :
      a ≠ [] → Forall (λ c, is_alnum unicode_alnum c = true) a →
      ground_formula unicode_alnum a
  | ground_not f :
      ground_formula unicode_alnum f →
      ground_formula unicode_alnum (lit "(¬" ++ f ++ lit ")")
  | ground_implies f g :
      ground_formula unicode_alnum f → ground_formula unicode_alnum g →
      ground_formula unicode_alnum (implication f g).

(** What one round of the loop over [k] writes, read off the layers it
    leaves: the stop line when layer [k - 1] is empty, otherwise the two
    progress lines and the second stop line when layer [k] stayed empty. *)
Definition round_log (st : state) (k : nat) : list event :=
  match layer st (k - 1) with
  | [] => [NoProofsOfLength (k - 1)]
  | _ :: _ =>
      [Generating k (length (layer st (k - 1)));
       FoundNew k (length (layer st k))]
      ++ match layer st k with
         | [] => [NoNewProofs k]
         | _ :: _ => []
         end
  end.

(** The formulas the search produces: those of a ground basis, closed under
    the three schemas.  Schema A3 writes a negation without parentheses
    around it, so both forms of a negation occur. *)
Inductive formula (unicode_alnum : char → bool) : str → Prop :=
  | formula_atom a :
      a ≠ [] → Forall (λ c, is_alnum unicode_alnum c = true) a →
      formula unicode_alnum a
  | formula_neg f :
      formula unicode_alnum f → formula unicode_alnum (lit "¬" ++ f)
  | formula_not f :
      formula unicode_alnum f →
      formula unicode_alnum (lit "(¬" ++ f ++ lit ")")
  | formula_implies f g :
      formula unicode_alnum f → formula unicode_alnum g →
      formula unicode_alnum (implication f g).

(** Two texts of which one continues the other by letters and digits
    only. *)
Definition comparable (unicode_alnum : char → bool) (p g : str) : Prop :=
  (∃ r, Forall (λ c, is_alnum unicode_alnum c = true) r ∧ g = p ++ r)
  ∨ (∃ r, Forall (λ c, is_alnum unicode_alnum c = true) r ∧ p = g ++ r).

(** ** The text of a printed proof

    [print_proof] above records that a block is written; these are the
    characters of the block.  [f"{step:<{width}}"] pads on the right with
    spaces and never truncates. *)
Definition ljust (s : str) (width : nat) : str :=
  s ++ replicate (width - length s) 32%N.

(** The list [lines] of [print_proof]: one numbered line per pair of
    [zip(steps, justifications)], then the rule.  [max] is taken over
    [steps], which the guard of [print_proof] makes non-empty. *)
Definition print_proof_lines (steps justs : list str) : list str :=
  let max_len := max_list (length <$> steps) in
  imap (λ i '(step, just),
          lit "  " ++ str_of_nat (i + 1) ++ lit ". " ++ ljust step max_len
          ++ lit "   " ++ just ++ [10%N])
       (zip steps justs)
  ++ [replicate 20 45%N ++ [10%N]].

(** What [print_proof] passes to [file_handle.write], if anything. *)
Definition print_proof_text (steps justs : list str) : option str :=
  match steps with
  | [] => None
  | _ :: _ => Some (concat (print_proof_lines steps justs))
  end.

(** ** The demonstration basis [generate_wff_basis]

    The sets of the source are finite sets of strings, the dict from
    depths to sets a finite map; every key that is read has been assigned
    before.  The result is sorted, so the unspecified order in which a set
    is listed does not show. *)

(** [{f"({a} → {b})" for a in xs for b in ys}] *)
Definition implications (xs ys : gset str) : gset str :=
  list_to_set (a ← elements xs; b ← elements ys; [implication a b]).

(** One round of the loop over [depth]: the set [wffs_by_depth[depth]]. *)
Definition wffs_at_depth (wffs_by_depth : gmap nat (gset str)) (depth : nat)
    : gset str :=
  let at_depth d := default ∅ (wffs_by_depth !! d) in
  let negations : gset str :=
    set_map (λ a, lit "(¬" ++ a ++ lit ")") (at_depth (depth - 1)) in
  foldl (λ acc i,
           let j := depth - 1 in
           let acc := acc ∪ implications (at_depth i) (at_depth j) in
           if decide (i = j) then acc
           else acc ∪ implications (at_depth j) (at_depth i))
        negations (range 0 depth).

(** The loop over [depth], from the atoms. *)
Definition wffs_up_to (max_depth : nat) : gmap nat (gset str) * gset str :=
  let atoms : gset str := {[ lit "a"; lit "b" ]} in
  foldl (λ '(wffs_by_depth, all_wffs) depth,
           let new := wffs_at_depth wffs_by_depth depth in
           (<[depth := new]> wffs_by_depth, all_wffs ∪ new))
        ({[ 0 := atoms ]}, atoms) (range 1 (max_depth + 1)).

(** [generate_wff_basis(max_depth)] *)
Definition generate_wff_basis (max_depth : nat) : list str :=
  sorted str_ltb (elements (wffs_up_to max_depth).2).

(** The formulas over the atoms [a] and [b] of an exact depth. *)
Inductive depth_is : nat → str → Prop :=
  | depth_a : depth_is 0 (lit "a")
  | depth_b : depth_is 0 (lit "b")
  | depth_not n f : depth_is n f → depth_is (S n) (lit "(¬" ++ f ++ lit ")")
  | depth_implies n m f g :
      depth_is n f → depth_is m g →
      depth_is (S (Nat.max n m)) (implication f g).

(** ** The truth of a formula

    [truth v w b]: under the valuation [v] of the atoms the formula [w] has
    the truth value [b], by the classical tables of negation and
    implication. *)
Inductive truth (unicode_alnum : char → bool) (v : str → bool)
    : str → bool → Prop :=
  | truth_atom a :
      a ≠ [] → Forall (λ c, is_alnum unicode_alnum c = true) a →
      truth unicode_alnum v a (v a)
  | truth_neg f b :
      truth unicode_alnum v f b →
      truth unicode_alnum v (lit "¬" ++ f) (negb b)
  | truth_not f b :
      truth unicode_alnum v f b →
      truth unicode_alnum v (lit "(¬" ++ f ++ lit ")") (negb b)
  | truth_implies f g b c :
      truth unicode_alnum v f b → truth unicode_alnum v g c →
      truth unicode_alnum v (implication f g) (implb b c).

(** A formula that is true under every valuation. *)
Definition tautology (unicode_alnum : char → bool) (w : str) : Prop :=
  formula unicode_alnum w
  ∧ ∀ v b, truth unicode_alnum v w b → b = true.

(** A derivation over the basis: every line is an instance of a schema or
    the (non-empty) consequent [apply_mp] returns on two distinct earlier
    lines. *)
Definition derivation (unicode_alnum : char → bool) (basis : list str)
    (steps : list str) : Prop :=
  ∀ n q, steps !! n = Some q →
    (∃ name template vars combo,
        (name, (template, vars)) ∈ AXIOM_TEMPLATES
        ∧ combo ∈ product basis (length vars)
        ∧ q = substitute unicode_alnum template (dict_of_zip vars combo))
    ∨ (q ≠ []
       ∧ ∃ i j p p_implies_q,
           i ≠ j ∧ i < n ∧ j < n
           ∧ steps !! i = Some p ∧ steps !! j = Some p_implies_q
           ∧ apply_mp p p_implies_q = Some q).

(** ** Texts as tokens

    The texts of the system are made of identifiers (maximal runs of ASCII
    letters, digits and underscores) and of other characters: the rest of
    ASCII and the two connectives.  Whole-token replacement is stated on
    this reading of a text, which does not mention the regular
    expression. *)
Inductive token := Ident (w : str) | Delim (c : char).

#[global] Instance token_eq_dec : EqDecision token.
Proof. solve_decision. Defined.

Definition ident_char (c : char) : bool :=
  ((48 <=? c) && (c <=? 57) || (65 <=? c) && (c <=? 90)
   || (97 <=? c) && (c <=? 122) || (c =? 95))%N.

(** The backslash is left out: [re.sub] reads it in a replacement as the
    start of an escape. *)
Definition delim_char (c : char) : bool :=
  ((c <? 128) && negb (ident_char c) && negb (c =? 92)
   || (c =? NOT_SIGN) || (c =? ARROW))%N.

Definition token_text (t : token) : str :=
  match t with
  | Ident w => w
  | Delim c => [c]
  end.

Definition tokens_text (ts : list token) : str := ts ≫= token_text.

(** The token lists that are the reading of their text: identifiers are
    not empty and no two of them are adjacent. *)
Inductive tokenized : list token → Prop :=
  | tokenized_nil : tokenized []
  | tokenized_delim c ts :
      delim_char c = true → tokenized ts → tokenized (Delim c :: ts)
  | tokenized_ident w :
      w ≠ [] → Forall (λ c, ident_char c = true) w → tokenized [Ident w]
  | tokenized_ident_delim w c ts :
      w ≠ [] → Forall (λ c, ident_char c = true) w →
      delim_char c = true → tokenized ts →
      tokenized (Ident w :: Delim c :: ts).

(** No token is one of the schema variables. *)
Definition schema_free (ts : list token) : Prop :=
  (Ident (lit "A") ∉ ts) ∧ (Ident (lit "B") ∉ ts) ∧ (Ident (lit "C") ∉ ts).

(** Replacing the tokens that are the identifier [var] by the tokens of
    a text. *)
Definition replace_token (var : str) (by_tokens : list token) (t : token)
    : list token :=
  if decide (t = Ident var) then by_tokens else [t].

(** Replacing the tokens [A], [B] and [C] at once. *)
Definition assign (tsa tsb tsc : list token) (t : token) : list token :=
  if decide (t = Ident (lit "A")) then tsa
  else (if decide (t = Ident (lit "B")) then tsb
        else (if decide (t = Ident (lit "C")) then tsc else [t])).

(** ** First examples *)

Example lit_arrow : lit " → " = [32%N; ARROW; 32%N].
Proof. reflexivity. Qed.

Example lit_not : lit "(¬a)" = [40%N; NOT_SIGN; 97%N; 41%N].
Proof. reflexivity. Qed.

Example apply_mp_ex1 : apply_mp (lit "a") (lit "(a → (b → a))") = Some (lit "(b → a)").
Proof. vm_compute. reflexivity. Qed.

Example apply_mp_ex2 : apply_mp (lit "a") (lit "(b → a)") = None.
Proof. vm_compute. reflexivity. Qed.

(** ** Properties of Modus Ponens *)

Lemma slice_to_last_app (pre q : str) (c : char) :
  slice_to_last (pre ++ q ++ [c]) (length pre) = q.
Proof.
  unfold slice_to_last.
  replace (length (pre ++ q ++ [c]) - 1) with (length (pre ++ q))
    by (rewrite !length_app; simpl; lia).
  rewrite (app_assoc pre q [c]), take_app_length, drop_app_length.
  reflexivity.
Qed.

Lemma apply_mp_shape (p s : str) :
  startswith s (lit "(" ++ p ++ lit " → ") && endswith s (lit ")") = true
  ↔ ∃ q, s = implication p q.
Proof.
  unfold startswith, endswith. rewrite andb_true_iff, !bool_decide_eq_true.
  split.
  - intros [[k Hk] [k' Hk']].
    destruct (decide (k = [])) as [->|Hne].
    + exfalso. rewrite app_nil_r in Hk. subst s.
      apply (f_equal last) in Hk'. revert Hk'.
      change (lit " → ") with ([32%N; ARROW] ++ [32%N]).
      change (lit ")") with [41%N].
      rewrite !app_assoc, !last_snoc. discriminate.
    + destruct (exists_last Hne) as (q & c & ->).
      exists q. subst s. unfold implication.
      assert (c = 41%N) as ->; [|by rewrite <- !app_assoc].
      apply (f_equal last) in Hk'. revert Hk'.
      change (lit ")") with [41%N].
      rewrite !app_assoc, !last_snoc. congruence.
  - intros [q ->]. unfold implication. split.
    + exists (q ++ lit ")"). by rewrite <- !app_assoc.
    + exists (lit "(" ++ p ++ lit " → " ++ q). by rewrite <- !app_assoc.
Qed.

Lemma apply_mp_implication (p q : str) : apply_mp p (implication p q) = Some q.
Proof.
  unfold apply_mp.
  assert (startswith (implication p q) (lit "(" ++ p ++ lit " → ")
          && endswith (implication p q) (lit ")") = true) as ->
    by (apply apply_mp_shape; eauto).
  f_equal. unfold implication.
  rewrite (app_assoc (lit "(")), (app_assoc _ (lit " → ")).
  rewrite <- (app_assoc (lit "(")).
  apply slice_to_last_app.
Qed.

(** C1: applied to [p] and the text [(p → q)] the engine returns exactly
    [q], for all strings [p] and [q]; applied to a second argument that does
    not both start with [(p → ] and end with [)] (equivalently, that is not
    of the form [(p → q)] for any [q]) it returns None, never an error. *)
Theorem apply_mp_correct :
  (∀ p q : str, apply_mp p (implication p q) = Some q)
  ∧ (∀ p s : str,
        ¬ (lit "(" ++ p ++ lit " → " `prefix_of` s ∧ lit ")" `suffix_of` s) →
        apply_mp p s = None)
  ∧ (∀ p s : str, apply_mp p s = None ↔ ¬ ∃ q, s = implication p q).
Proof.
  split; [|split].
  - apply apply_mp_implication.
  - intros p s Hn. unfold apply_mp, startswith, endswith.
    destruct (bool_decide _ && bool_decide _) eqn:E; [|done].
    rewrite andb_true_iff, !bool_decide_eq_true in E. tauto.
  - intros p s. unfold apply_mp. rewrite <- apply_mp_shape.
    destruct (startswith _ _ && endswith _ _); split; done.
Qed.

Lemma apply_mp_correct_witness :
  apply_mp (lit "(¬a)") (lit "((¬a) → b)") = Some (lit "b")
  ∧ apply_mp (lit "a") (lit "(b → a)") = None.
Proof.
  split.
  - exact (proj1 apply_mp_correct (lit "(¬a)") (lit "b")).
  - apply (proj1 (proj2 apply_mp_correct)).
    vm_compute. intros [H _]. destruct H as [k Hk]. discriminate Hk.
Defined.

(** ** The accumulators under [record_proof] and [write] *)

Lemma layer_insert (m : gmap nat (list proof)) s t w k l i :
  layer (State (<[k := l]> m) s t w) i
  = if decide (k = i) then l else layer (State m s t w) i.
Proof.
  unfold layer; simpl. rewrite lookup_insert. by destruct (decide (k = i)).
Qed.

Lemma seen_insert (m : gmap nat (list proof)) (s : gmap nat (gset (list str)))
    t w k x i :
  seen (State m (<[k := x]> s) t w) i
  = if decide (k = i) then x else seen (State m s t w) i.
Proof.
  unfold seen; simpl. rewrite lookup_insert. by destruct (decide (k = i)).
Qed.

Lemma record_proof_seen k steps justs st :
  steps ∈ seen st k → record_proof k steps justs st = st.
Proof. intros H. unfold record_proof. by rewrite decide_True. Qed.

Lemma record_proof_layer k steps justs st i :
  layer (record_proof k steps justs st) i
  = if decide (k = i ∧ steps ∉ seen st k)
    then layer st k ++ [(steps, justs)] else layer st i.
Proof.
  unfold record_proof. destruct (decide (steps ∈ seen st k)) as [Hin|Hnin].
  - rewrite decide_False; tauto.
  - rewrite layer_insert. destruct (decide (k = i)) as [->|Hne].
    + by rewrite decide_True.
    + rewrite decide_False by tauto. by destruct st.
Qed.

Lemma record_proof_seen_set k steps justs st i :
  seen (record_proof k steps justs st) i
  = if decide (k = i) then seen st k ∪ {[steps]} else seen st i.
Proof.
  unfold record_proof. destruct (decide (steps ∈ seen st k)) as [Hin|Hnin].
  - destruct (decide (k = i)) as [->|]; [|done].
    apply leibniz_equiv. set_solver.
  - rewrite seen_insert. destruct (decide (k = i)); [done|]. by destruct st.
Qed.

Lemma record_proof_total k steps justs st :
  total_proof_count (record_proof k steps justs st)
  = if decide (steps ∈ seen st k) then total_proof_count st
    else S (total_proof_count st).
Proof. unfold record_proof. by destruct (decide _). Qed.

Lemma record_proof_written k steps justs st :
  written (record_proof k steps justs st) = written st.
Proof. unfold record_proof. by destruct (decide _). Qed.

Lemma record_proof_layer_ne k steps justs st i :
  k ≠ i → layer (record_proof k steps justs st) i = layer st i.
Proof. intros. rewrite record_proof_layer, decide_False; tauto. Qed.

Lemma record_proof_layer_prefix k steps justs st i :
  layer st i `prefix_of` layer (record_proof k steps justs st) i.
Proof.
  rewrite record_proof_layer. destruct (decide _) as [[-> _]|]; [|done].
  by apply prefix_app_r.
Qed.

Lemma layer_write e st i : layer (write e st) i = layer st i.
Proof. done. Qed.

Lemma seen_write e st i : seen (write e st) i = seen st i.
Proof. done. Qed.


Lemma layer_pop_seen k st i : layer (pop_seen k st) i = layer st i.
Proof. done. Qed.

Lemma seen_pop_seen k st i :
  seen (pop_seen k st) i = if decide (k = i) then ∅ else seen st i.
Proof.
  unfold seen, pop_seen; simpl. rewrite lookup_delete.
  by destruct (decide (k = i)).
Qed.



Lemma reachable_built ua basis k st : reachable ua basis k st → built k st.
Proof. induction 1; by constructor. Qed.

Lemma built_above k st :
  built k st → ∀ i, k < i → layer st i = [] ∧ seen st i = ∅.
Proof.
  induction 1; intros n Hn;
    rewrite ?record_proof_layer, ?record_proof_seen_set, ?seen_pop_seen,
            ?layer_pop_seen, ?layer_write, ?seen_write;
    repeat case_decide; try lia; try (destruct_and?; lia);
    try (apply IHbuilt; lia).
  done.
Qed.

Lemma built_seen k st :
  built k st →
  (∀ s, s ∈ (layer st k).*1 → s ∈ seen st k)
  ∧ (∀ i s, s ∈ seen st i → s ∈ (layer st i).*1).
Proof.
  induction 1 as [|k e st H IH|k steps justs st H IH|k st H IH|k st Hk H IH].
  - split; intros; set_solver.
  - done.
  - destruct IH as [IH1 IH2].
    destruct (decide (steps ∈ seen st k)) as [Hin|Hnin].
    { by rewrite record_proof_seen. }
    split.
    + intros s. rewrite record_proof_seen_set, record_proof_layer.
      rewrite !decide_True by done.
      rewrite fmap_app, elem_of_app. simpl. set_solver.
    + intros i s. rewrite record_proof_seen_set, record_proof_layer.
      destruct (decide (k = i)) as [<-|Hne].
      * rewrite decide_True by done.
        rewrite fmap_app, elem_of_app. simpl. set_solver.
      * rewrite decide_False by tauto. apply IH2.
  - destruct IH as [IH1 IH2]. split; [|done].
    intros s. destruct (built_above _ _ H (S k)) as [-> ->]; [lia|]. set_solver.
  - destruct IH as [IH1 IH2]. split.
    + intros s. rewrite seen_pop_seen, layer_pop_seen, decide_False by lia. apply IH1.
    + intros i s. rewrite seen_pop_seen, layer_pop_seen.
      destruct (decide _); [set_solver|apply IH2].
Qed.

Lemma built_ge_1 k st : built k st → 1 ≤ k.
Proof. induction 1; lia. Qed.

Lemma built_layer_0 k st : built k st → layer st 0 = [].
Proof.
  induction 1 as [|k e st H IH|k steps justs st H IH|k st H IH|k st Hk H IH];
    try done.
  rewrite record_proof_layer_ne; [done|]. apply built_ge_1 in H. lia.
Qed.

Lemma sum_list_with_ext_seq (f g : nat → nat) a n :
  (∀ i, a ≤ i < a + n → f i = g i) →
  sum_list_with f (seq a n) = sum_list_with g (seq a n).
Proof.
  revert a. induction n as [|n IH]; intros a H; [done|]. simpl.
  rewrite H by lia. f_equal. apply IH. intros i Hi. apply H. lia.
Qed.

(** No layer holds two proofs with the same step sequence. *)
Lemma built_NoDup k st : built k st → ∀ i, NoDup (layer st i).*1.
Proof.
  induction 1 as [|k e st H IH|k steps justs st H IH|k st H IH|k st Hk H IH];
    intros i; [apply NoDup_nil_2|apply IH| |apply IH|apply IH].
  rewrite record_proof_layer. destruct (decide _) as [[<- Hn]|]; [|done].
  rewrite fmap_app. apply NoDup_app. split_and!; [done| |apply NoDup_singleton].
  intros s Hs ->%list_elem_of_singleton. apply Hn.
  by apply (built_seen _ _ H).
Qed.

(** The counter is the number of proofs in the layers built so far. *)
Lemma built_total k st :
  built k st →
  total_proof_count st = sum_list_with (λ i, length (layer st i)) (seq 1 k).
Proof.
  induction 1 as [|k e st H IH|k steps justs st H IH|k st H IH|k st Hk H IH];
    [done|done| | |done].
  - rewrite record_proof_total.
    destruct (decide (steps ∈ seen st k)) as [Hin|Hnin].
    + by rewrite record_proof_seen.
    + rewrite IH. clear IH.
      assert (1 ≤ k) as Hk by (by eapply built_ge_1).
      destruct k as [|k]; [lia|]. rewrite !seq_S, !sum_list_with_app. simpl.
      rewrite record_proof_layer, decide_True by done. rewrite length_app. simpl.
      assert (sum_list_with (λ i, length (layer (record_proof (S k) steps justs st) i)) (seq 1 k)
              = sum_list_with (λ i, length (layer st i)) (seq 1 k)) as ->; [|lia].
      apply sum_list_with_ext_seq. intros n Hn.
      rewrite record_proof_layer_ne; [done|lia].
  - rewrite seq_S, sum_list_with_app. simpl.
    destruct (built_above _ _ H (S k)) as [-> _]; [lia|]. simpl. lia.
Qed.

(** ** The search stays within the reachable states *)

Lemma foldl_invariant {A B} (I : A → Prop) (f : A → B → A) (l : list B) (a : A) :
  I a → (∀ a x, x ∈ l → I a → I (f a x)) → I (foldl f a l).
Proof.
  revert a. induction l as [|x l IH]; intros a Ha Hf; [done|]. simpl.
  apply IH; [apply Hf; [left|done]|]. intros a' y Hy. apply Hf. by right.
Qed.

Lemma elem_of_range a b i : i ∈ range a b ↔ a ≤ i < b.
Proof. unfold range. rewrite elem_of_seq. lia. Qed.

Section SearchReachable.
Variable unicode_alnum : char → bool.
Variable basis : list str.

Local Abbreviation reachable := (reachable unicode_alnum basis).

(** A property of the proofs of each layer holds throughout when axiom
    instances have it and both extensions keep it. *)
Lemma reachable_layer_ind (Φ : nat → proof → Prop) :
  (∀ name template vars combo,
      (name, (template, vars)) ∈ AXIOM_TEMPLATES →
      combo ∈ product basis (length vars) →
      Φ 1 ([substitute unicode_alnum template (dict_of_zip vars combo)],
           [axiom_just name (dict_of_zip vars combo)])) →
  (∀ k (pr ap : proof),
      2 ≤ k → Φ (k - 1) pr → Φ 1 ap →
      Φ k (pr.1 ++ [default [] (ap.1 !! 0)], pr.2 ++ [default [] (ap.2 !! 0)])) →
  (∀ k (pr : proof) i j p p_implies_q q,
      2 ≤ k → Φ (k - 1) pr →
      i ≠ j → pr.1 !! i = Some p → pr.1 !! j = Some p_implies_q →
      apply_mp p p_implies_q = Some q → q ≠ [] →
      Φ k (pr.1 ++ [q], pr.2 ++ [mp_just i j])) →
  ∀ k st, reachable k st → ∀ i pr, pr ∈ layer st i → Φ i pr.
Proof.
  intros Hax Hext Hmp k st.
  induction 1 as [|k e st H IH|st name template vars combo H IH He Hc
                  |k st H IH|k st pr ap Hk H IH Hpr Hap
                  |k st pr i j p pq q Hk H IH Hpr Hij Hp Hpq Hq Hne|k st Hk H IH];
    intros n x; try apply IH.
  - intros ?%elem_of_nil. done.
  - rewrite record_proof_layer. destruct (decide _) as [[<- _]|]; [|apply IH].
    intros [?| ->%list_elem_of_singleton]%elem_of_app; [by apply IH|by apply Hax].
  - rewrite record_proof_layer. destruct (decide _) as [[<- _]|]; [|apply IH].
    intros [?| ->%list_elem_of_singleton]%elem_of_app; [by apply IH|].
    apply Hext; [done|by apply IH..].
  - rewrite record_proof_layer. destruct (decide _) as [[<- _]|]; [|apply IH].
    intros [?| ->%list_elem_of_singleton]%elem_of_app; [by apply IH|].
    eapply Hmp; eauto.
Qed.

(** A proof of layer [i] has [i] steps and [i] justifications. *)
Lemma reachable_lengths k st :
  reachable k st →
  ∀ i (pr : proof), pr ∈ layer st i → length pr.1 = i ∧ length pr.2 = i.
Proof.
  apply (reachable_layer_ind (λ i pr, length pr.1 = i ∧ length pr.2 = i)).
  - done.
  - intros n pr ap Hn [H1 H2] _. simpl. rewrite !length_app, H1, H2. simpl. lia.
  - intros n pr i j p pq q Hn [H1 H2] _ _ _ _ _. simpl.
    rewrite !length_app, H1, H2. simpl. lia.
Qed.

Lemma reachable_le k k' st : reachable k st → k ≤ k' → reachable k' st.
Proof. intros H. induction 1; [done|by apply reach_next]. Qed.

Lemma generate_length_1_reachable st :
  reachable 1 st → reachable 1 (generate_length_1 unicode_alnum basis st).
Proof.
  intros H. unfold generate_length_1.
  apply foldl_invariant; [done|]. clear st H.
  intros st [name [template vars]] Hentry H. simpl.
  apply foldl_invariant; [done|]. clear st H.
  intros st combo Hcombo H. by apply reach_axiom.
Qed.


Lemma same_below_refl k st : same_below k st st.
Proof. by intros i _. Qed.

Lemma same_below_record k steps justs st st' :
  same_below k st st' → same_below k st (record_proof k steps justs st').
Proof. intros H i Hi. rewrite record_proof_layer_ne by done. by apply H. Qed.

Lemma extend_with_axioms_reachable k (pr : proof) st0 st :
  2 ≤ k → pr ∈ layer st0 (k - 1) →
  reachable k st ∧ same_below k st0 st →
  reachable k (extend_with_axioms k pr.1 pr.2 st)
  ∧ same_below k st0 (extend_with_axioms k pr.1 pr.2 st).
Proof.
  intros Hk Hpr Hst. unfold extend_with_axioms.
  assert (∀ ap, ap ∈ layer st 1 → ap ∈ layer st0 1) as Hsub.
  { intros ap. destruct Hst as [_ Hs]. rewrite Hs; [done|lia]. }
  revert Hsub. generalize (layer st 1). intros l Hl.
  apply (foldl_invariant (λ st, reachable k st ∧ same_below k st0 st)); [done|].
  intros st' ap Hap [H1 H2]. split; [|by apply same_below_record].
  apply reach_extend_axiom; [done|done| |].
  - rewrite H2; [done|lia].
  - rewrite H2; [auto|lia].
Qed.

Lemma try_mp_reachable k (pr : proof) i j st0 st :
  2 ≤ k → pr ∈ layer st0 (k - 1) →
  i < k - 1 → j < k - 1 →
  reachable k st ∧ same_below k st0 st →
  reachable k (try_mp k pr.1 pr.2 i j st)
  ∧ same_below k st0 (try_mp k pr.1 pr.2 i j st).
Proof.
  intros Hk Hpr Hi Hj [H1 H2]. unfold try_mp.
  case_bool_decide as Hij; [done|].
  assert (length pr.1 = k - 1) as Hlen.
  { eapply (reachable_lengths _ _ H1). rewrite H2; [done|lia]. }
  rewrite <- Hlen in Hi, Hj.
  destruct (lookup_lt_is_Some_2 _ _ Hi) as [p Hp].
  destruct (lookup_lt_is_Some_2 _ _ Hj) as [pq Hpq].
  rewrite Hp, Hpq. simpl.
  destruct (apply_mp p pq) as [[|c q]|] eqn:Hmp; [done| |done].
  split; [|by apply same_below_record].
  eapply reach_extend_mp; eauto. rewrite H2; [done|lia].
Qed.

Lemma extend_proof_reachable k (pr : proof) st0 st :
  2 ≤ k → pr ∈ layer st0 (k - 1) →
  reachable k st ∧ same_below k st0 st →
  reachable k (extend_proof k pr st) ∧ same_below k st0 (extend_proof k pr st).
Proof.
  intros Hk Hpr Hst. unfold extend_proof. destruct pr as [steps justs].
  unfold extend_with_mp.
  apply (foldl_invariant (λ st, reachable k st ∧ same_below k st0 st)).
  { by apply (extend_with_axioms_reachable k (steps, justs)). }
  intros st1 i Hi%elem_of_range Hst1.
  apply (foldl_invariant (λ st, reachable k st ∧ same_below k st0 st)); [done|].
  intros st2 j Hj%elem_of_range Hst2.
  apply (try_mp_reachable k (steps, justs)); [done|done|lia|lia|done].
Qed.

Lemma grow_reachable k st :
  2 ≤ k → reachable (k - 1) st → reachable k (grow k st).2.
Proof.
  intros Hk H. assert (reachable k st) as H'.
  { apply (reachable_le (k - 1)); [done|lia]. }
  unfold grow. destruct (layer st (k - 1)) as [|pr0 prs] eqn:Hprev.
  { by apply reach_write. }
  set (st1 := write _ st).
  set (st2 := foldl _ _ _).
  assert (reachable k st2 ∧ same_below k st1 st2) as [H2 _].
  { apply (foldl_invariant (λ st, reachable k st ∧ same_below k st1 st)).
    - split; [by apply reach_write|apply same_below_refl].
    - intros st' pr Hpr Hst'. apply extend_proof_reachable; [done| |done].
      unfold st1. rewrite layer_write, Hprev. done. }
  destruct (layer (write _ st2) k) eqn:Hk'; cbn [snd].
  - by do 2 apply reach_write.
  - apply (reach_pop _ _ k); [done|]. by apply reach_write.
Qed.

Lemma for_each_grow_reachable a n st :
  2 ≤ a → reachable (a - 1) st →
  reachable (a + n - 1) (for_each (seq a n) grow st).
Proof.
  revert a st. induction n as [|n IH]; intros a st Ha H; simpl.
  { by replace (a + 0 - 1) with (a - 1) by lia. }
  pose proof (grow_reachable a st Ha H) as Hg.
  destruct (grow a st) as [[] st']; simpl in Hg.
  - replace (a + S n - 1) with (S a + n - 1) by lia. apply IH; [lia|].
    by replace (S a - 1) with a by lia.
  - apply (reachable_le a); [done|lia].
Qed.

Lemma before_loop_reachable max_length :
  reachable 1 (before_loop unicode_alnum basis max_length).
Proof.
  unfold before_loop.
  do 2 apply reach_write. apply generate_length_1_reachable.
  apply reach_write, reach_initial.
Qed.

(** The final state of the search is reachable. *)
Lemma search_reachable max_length :
  reachable (Nat.max 1 max_length) (search unicode_alnum basis max_length).
Proof.
  unfold search. apply reach_write.
  replace (Nat.max 1 max_length) with (2 + (max_length + 1 - 2) - 1) by lia.
  apply for_each_grow_reachable; [done|]. apply before_loop_reachable.
Qed.

End SearchReachable.

(** ** Deduplication, prefixes and the counter *)

Section LayerProperties.
Variable unicode_alnum : char → bool.
Variable basis : list str.

Local Abbreviation reachable := (reachable unicode_alnum basis).
Local Abbreviation search := (search unicode_alnum basis).

Lemma reachable_prefix k st :
  reachable k st →
  ∀ i (pr : proof), 2 ≤ i → pr ∈ layer st i →
    ∃ (pr0 : proof) f j,
      pr0 ∈ layer st (i - 1) ∧ pr.1 = pr0.1 ++ [f] ∧ pr.2 = pr0.2 ++ [j].
Proof.
  assert (∀ k steps justs st i (pr : proof),
            (∃ (pr0 : proof) f j,
                pr0 ∈ layer st (i - 1) ∧ pr.1 = pr0.1 ++ [f] ∧ pr.2 = pr0.2 ++ [j]) →
            ∃ (pr0 : proof) f j,
              pr0 ∈ layer (record_proof k steps justs st) (i - 1)
              ∧ pr.1 = pr0.1 ++ [f] ∧ pr.2 = pr0.2 ++ [j]) as Hmono.
  { intros n steps justs st' i pr (pr0 & f & j & Hin & H1 & H2).
    exists pr0, f, j. split; [|done].
    eapply elem_of_prefix; [exact Hin|apply record_proof_layer_prefix]. }
  induction 1 as [|k e st H IH|st name template vars combo H IH He Hc
                  |k st H IH|k st pr ap Hk H IH Hpr Hap
                  |k st pr i j p pq q Hk H IH Hpr Hij Hp Hpq Hq Hne|k st Hk H IH];
    intros n x Hn; try (by apply IH).
  - intros ?%elem_of_nil. done.
  - rewrite record_proof_layer. destruct (decide _) as [[<- _]|]; [lia|].
    intros Hx. by apply Hmono, IH.
  - rewrite record_proof_layer. destruct (decide _) as [[<- _]|].
    + intros [Hx| ->%list_elem_of_singleton]%elem_of_app.
      * by apply Hmono, IH.
      * apply Hmono. by exists pr, (default [] (ap.1 !! 0)), (default [] (ap.2 !! 0)).
    + intros Hx. by apply Hmono, IH.
  - rewrite record_proof_layer. destruct (decide _) as [[<- _]|].
    + intros [Hx| ->%list_elem_of_singleton]%elem_of_app.
      * by apply Hmono, IH.
      * apply Hmono. by exists pr, q, (mp_just i j).
    + intros Hx. by apply Hmono, IH.
Qed.

(** C4: deduplication looks at the step sequence only and is idempotent.
    In any state of the search with layer [k] under construction, recording
    a proof whose steps are those of a proof already in layer [k] changes
    nothing, whatever its justifications (so the layer and the counter stay
    as they are); a step sequence not yet in the layer is appended after the
    proofs already there, which are kept; hence no layer, during or after
    the search, holds two proofs with the same steps, and the derivation
    recorded first is the one that stays. *)
Theorem dedup_by_step_sequence k st (steps justs : list str) :
  reachable k st →
  (∀ justs0, (steps, justs0) ∈ layer st k →
     record_proof k steps justs st = st)
  ∧ (steps ∉ (layer st k).*1 →
     layer (record_proof k steps justs st) k = layer st k ++ [(steps, justs)]
     ∧ total_proof_count (record_proof k steps justs st)
       = S (total_proof_count st))
  ∧ layer st k `prefix_of` layer (record_proof k steps justs st) k
  ∧ (∀ i, NoDup (layer (record_proof k steps justs st) i).*1)
  ∧ (∀ max_length i, NoDup (layer (search max_length) i).*1).
Proof.
  intros H. pose proof (reachable_built _ _ _ _ H) as Hb.
  destruct (built_seen _ _ Hb) as [Hs1 Hs2].
  split_and!.
  - intros justs0 Hin. apply record_proof_seen, Hs1.
    apply list_elem_of_fmap. by exists (steps, justs0).
  - intros Hnew. assert (steps ∉ seen st k) as Hn by (intros ?%Hs2; done).
    rewrite record_proof_layer, record_proof_total.
    rewrite decide_True by done. by rewrite decide_False by done.
  - apply record_proof_layer_prefix.
  - apply (built_NoDup k). by constructor.
  - intros max_length i.
    eapply built_NoDup, reachable_built, search_reachable.
Qed.

(** C5: every proof of layer [k], for [k] at least 2, is a proof of layer
    [k - 1] with exactly one step and one justification appended: its first
    [k - 1] steps and justifications are those of that proof, unchanged and
    in the same order. *)
Theorem prefix_invariant max_length k (pr : proof) :
  2 ≤ k → pr ∈ layer (search max_length) k →
  ∃ (pr0 : proof) f j,
    pr0 ∈ layer (search max_length) (k - 1)
    ∧ pr = (pr0.1 ++ [f], pr0.2 ++ [j])
    ∧ length pr0.1 = k - 1 ∧ length pr0.2 = k - 1
    ∧ take (k - 1) pr.1 = pr0.1 ∧ take (k - 1) pr.2 = pr0.2.
Proof.
  intros Hk Hpr. pose proof (search_reachable unicode_alnum basis max_length) as H.
  destruct (reachable_prefix _ _ H k pr Hk Hpr) as (pr0 & f & j & Hin & H1 & H2).
  destruct (reachable_lengths _ _ _ _ H _ _ Hin) as [L1 L2].
  exists pr0, f, j. split_and!; try done.
  - destruct pr; simpl in *; congruence.
  - by rewrite H1, <- L1, take_app_length.
  - by rewrite H2, <- L2, take_app_length.
Qed.

(** C10: the total that is reported is the number of proofs of all layers
    from length 1 to the last one built, lengths 1 and 2 included: it is
    written right after the output of the search, layers beyond
    [max 1 max_length] are empty, and every [record_proof] adds to the
    counter exactly the number of proofs (one or none) it adds to its
    layer. *)
Theorem total_proof_count_is_sum max_length :
  total_proof_count (search max_length)
  = sum_list_with (λ k, length (layer (search max_length) k))
                  (seq 1 (Nat.max 1 max_length))
  ∧ (∀ k, Nat.max 1 max_length < k → layer (search max_length) k = [])
  ∧ (∃ rest,
        find_all_proofs unicode_alnum basis max_length
        = written (search max_length)
          ++ FoundTotal (total_proof_count (search max_length)) :: rest)
  ∧ (∀ k steps justs st,
        total_proof_count (record_proof k steps justs st) + length (layer st k)
        = total_proof_count st + length (layer (record_proof k steps justs st) k))
  ∧ (∀ e st, total_proof_count (write e st) = total_proof_count st)
  ∧ (∀ k st, total_proof_count (pop_seen k st) = total_proof_count st).
Proof.
  pose proof (reachable_built _ _ _ _
                (search_reachable unicode_alnum basis max_length)) as Hb.
  split_and!; try done.
  - by apply built_total.
  - intros k Hk. by apply (built_above _ _ Hb).
  - unfold find_all_proofs. fold search.
    destruct (proofs_with_mp _ _); simpl; rewrite <- ?app_assoc;
      eexists; rewrite <- app_assoc; reflexivity.
  - intros k steps justs st. rewrite record_proof_total, record_proof_layer.
    destruct (decide (steps ∈ seen st k)).
    + rewrite decide_False by tauto. done.
    + rewrite decide_True by done. rewrite length_app. simpl. lia.
Qed.

End LayerProperties.

Lemma dedup_by_step_sequence_witness :
  record_proof 1 [lit "(a → (a → a))"] [lit "A1 again"]
    (before_loop (λ _, false) [lit "a"] 1)
  = before_loop (λ _, false) [lit "a"] 1.
Proof.
  apply (proj1 (dedup_by_step_sequence (λ _, false) [lit "a"] 1 _
                  [lit "(a → (a → a))"] [lit "A1 again"]
                  (before_loop_reachable (λ _, false) [lit "a"] 1))
               [lit "A1 [A=a, B=a]"]).
  vm_compute. left.
Defined.

Lemma prefix_invariant_witness :
  ∃ (pr0 : proof) f j,
    pr0 ∈ layer (search (λ _, false) [lit "a"] 2) 1
    ∧ ([lit "(a → (a → a))"; lit "(a → (a → a))"],
       [lit "A1 [A=a, B=a]"; lit "A1 [A=a, B=a]"])
      = (pr0.1 ++ [f], pr0.2 ++ [j])
    ∧ length pr0.1 = 1 ∧ length pr0.2 = 1
    ∧ take 1 [lit "(a → (a → a))"; lit "(a → (a → a))"] = pr0.1
    ∧ take 1 [lit "A1 [A=a, B=a]"; lit "A1 [A=a, B=a]"] = pr0.2.
Proof.
  apply (prefix_invariant (λ _, false) [lit "a"] 2 2
           ([lit "(a → (a → a))"; lit "(a → (a → a))"],
            [lit "A1 [A=a, B=a]"; lit "A1 [A=a, B=a]"])).
  - lia.
  - vm_compute. left.
Defined.

(** ** Soundness of the recorded derivations *)

Section Soundness.
Variable unicode_alnum : char → bool.
Variable basis : list str.

Local Abbreviation axiom_line := (axiom_line unicode_alnum basis).
Local Abbreviation sound := (sound unicode_alnum basis).




Lemma axiom_line_app (pr : proof) f j n :
  n < length pr.1 → n < length pr.2 →
  axiom_line pr n → axiom_line (pr.1 ++ [f], pr.2 ++ [j]) n.
Proof.
  intros L1 L2 (name & template & vars & combo & H1 & H2 & H3 & H4).
  exists name, template, vars, combo. simpl.
  by rewrite !lookup_app_l by done.
Qed.

Lemma mp_line_app (pr : proof) f j n :
  n < length pr.1 → n < length pr.2 →
  mp_line pr n → mp_line (pr.1 ++ [f], pr.2 ++ [j]) n.
Proof.
  intros L1 L2 (i & j' & p & pq & q & H1 & H2 & H3 & H4 & H5 & H6 & H7 & H8).
  exists i, j', p, pq, q. simpl.
  rewrite !lookup_app_l by lia. done.
Qed.

Lemma sound_extend k (pr : proof) f j :
  2 ≤ k → sound (k - 1) pr →
  (axiom_line (pr.1 ++ [f], pr.2 ++ [j]) (k - 1)
   ∨ mp_line (pr.1 ++ [f], pr.2 ++ [j]) (k - 1)) →
  sound k (pr.1 ++ [f], pr.2 ++ [j]).
Proof.
  intros Hk (L1 & L2 & Hs) Hnew. split_and!; simpl.
  - rewrite length_app, L1. simpl. lia.
  - rewrite length_app, L2. simpl. lia.
  - intros n Hn. destruct (decide (n = k - 1)) as [->|Hne]; [done|].
    destruct (Hs n) as [Ha|Hm]; [lia| |].
    + left. apply axiom_line_app; [lia..|done].
    + right. apply mp_line_app; [lia..|done].
Qed.

Lemma reachable_sound :
  ∀ k st, reachable unicode_alnum basis k st →
  ∀ i (pr : proof), pr ∈ layer st i → sound i pr.
Proof.
  apply (reachable_layer_ind unicode_alnum basis sound).
  - intros name template vars combo He Hc. split_and!; [done..|].
    intros n Hn. left. assert (n = 0) as -> by lia.
    by exists name, template, vars, combo.
  - intros k pr ap Hk Hpr (A1 & A2 & Hap).
    apply sound_extend; [done..|]. left.
    destruct (Hap 0) as [(name & template & vars & combo & H1 & H2 & H3 & H4)
                        |(i & j & ? & ? & ? & ? & ? & ? & _)]; [lia| |lia].
    exists name, template, vars, combo. destruct Hpr as (L1 & L2 & _). simpl.
    rewrite H3, H4. simpl.
    rewrite !lookup_app_r by lia. rewrite L1, L2, Nat.sub_diag. done.
  - intros k pr i j p pq q Hk Hpr Hij Hp Hpq Hq Hne.
    apply sound_extend; [done..|]. right.
    destruct Hpr as (L1 & L2 & _).
    exists i, j, p, pq, q. simpl.
    pose proof (lookup_lt_Some _ _ _ Hp). pose proof (lookup_lt_Some _ _ _ Hpq).
    rewrite !lookup_app_l by lia.
    rewrite !lookup_app_r by lia. rewrite L1, L2, Nat.sub_diag.
    split_and!; try done; lia.
Qed.

(** C9: every line of every proof of every layer is either an instance of
    one of the three schemas over the basis, with the justification naming
    that schema and that assignment, or the consequent [apply_mp] returns on
    two distinct earlier lines of the same proof, which are the lines its
    justification [MP (i,j)] names counting from 1. *)
Theorem accepted_proofs_sound max_length k (pr : proof) n :
  pr ∈ layer (search unicode_alnum basis max_length) k → n < k →
  length pr.1 = k ∧ length pr.2 = k
  ∧ ((∃ name template vars combo,
         (name, (template, vars)) ∈ AXIOM_TEMPLATES
         ∧ combo ∈ product basis (length vars)
         ∧ pr.1 !! n
           = Some (substitute unicode_alnum template (dict_of_zip vars combo))
         ∧ pr.2 !! n = Some (axiom_just name (dict_of_zip vars combo)))
     ∨ (∃ i j p p_implies_q q,
           i ≠ j ∧ i < n ∧ j < n
           ∧ pr.1 !! i = Some p ∧ pr.1 !! j = Some p_implies_q
           ∧ apply_mp p p_implies_q = Some q
           ∧ pr.1 !! n = Some q
           ∧ pr.2 !! n
             = Some (lit "MP (" ++ str_of_nat (i + 1) ++ lit ","
                       ++ str_of_nat (j + 1) ++ lit ")"))).
Proof.
  intros Hpr Hn.
  destruct (reachable_sound _ _ (search_reachable unicode_alnum basis max_length)
              k pr Hpr) as (L1 & L2 & Hs).
  split_and!; [done..|]. exact (Hs n Hn).
Qed.

End Soundness.


Lemma accepted_proofs_sound_witness :
  length three_lines.1 = 3 ∧ length three_lines.2 = 3
  ∧ ((∃ name template vars combo,
         (name, (template, vars)) ∈ AXIOM_TEMPLATES
         ∧ combo ∈ product [lit "a"] (length vars)
         ∧ three_lines.1 !! 2
           = Some (substitute (λ _, false) template (dict_of_zip vars combo))
         ∧ three_lines.2 !! 2 = Some (axiom_just name (dict_of_zip vars combo)))
     ∨ (∃ i j p p_implies_q q,
           i ≠ j ∧ i < 2 ∧ j < 2
           ∧ three_lines.1 !! i = Some p ∧ three_lines.1 !! j = Some p_implies_q
           ∧ apply_mp p p_implies_q = Some q
           ∧ three_lines.1 !! 2 = Some q
           ∧ three_lines.2 !! 2
             = Some (lit "MP (" ++ str_of_nat (i + 1) ++ lit ","
                       ++ str_of_nat (j + 1) ++ lit ")"))).
Proof.
  apply (accepted_proofs_sound (λ _, false) [lit "a"] 3 3 three_lines 2).
  - apply (bool_decide_unpack _). vm_compute. exact I.
  - lia.
Defined.

(** ** The loop over the lengths *)


Lemma extend_proof_same_below k pr st : same_below k st (extend_proof k pr st).
Proof.
  unfold extend_proof. destruct pr as [steps justs].
  unfold extend_with_mp, extend_with_axioms.
  apply (foldl_invariant (same_below k st)).
  { generalize (layer st 1). intros l.
    apply (foldl_invariant (same_below k st)); [apply same_below_refl|].
    intros. by apply same_below_record. }
  intros st1 i _ H1.
  apply (foldl_invariant (same_below k st)); [done|].
  intros st2 j _ H2. unfold try_mp.
  case_bool_decide; [done|].
  destruct (apply_mp _ _) as [[|c q]|]; [done| |done].
  by apply same_below_record.
Qed.

Lemma same_below_trans k st1 st2 st3 :
  same_below k st1 st2 → same_below k st2 st3 → same_below k st1 st3.
Proof. intros H1 H2 i Hi. by rewrite H2, H1. Qed.

Lemma grow_same_below k st : same_below k st (grow k st).2.
Proof.
  unfold grow. destruct (layer st (k - 1)) as [|pr0 prs]; [done|].
  set (st1 := write _ st). set (st2 := foldl _ _ _).
  assert (same_below k st st2) as H2.
  { apply (foldl_invariant (same_below k st)); [done|].
    intros st' pr _ H. eapply same_below_trans; [exact H|].
    apply extend_proof_same_below. }
  by destruct (layer (write _ st2) k).
Qed.

(** The body breaks exactly when there is nothing to extend or nothing was
    found. *)
Lemma grow_break k st :
  (grow k st).1 = Break ↔ layer st (k - 1) = [] ∨ layer (grow k st).2 k = [].
Proof.
  unfold grow. destruct (layer st (k - 1)) as [|pr0 prs]; [by split; auto|].
  set (st2 := foldl _ _ _).
  destruct (layer (write _ st2) k) eqn:Hk; cbn [fst snd].
  - split; [|done]. intros _. right. exact Hk.
  - split; [done|]. intros [?|H]; [done|].
    change (layer (write (FoundNew k (length (layer st2 k))) st2) k = []) in H.
    congruence.
Qed.

Lemma for_each_grow_below a n st i :
  i < a → layer (for_each (seq a n) grow st) i = layer st i.
Proof.
  revert a st. induction n as [|n IH]; intros a st Hi; [done|]. simpl.
  pose proof (grow_same_below a st i) as Hg.
  destruct (grow a st) as [[] st']; simpl in Hg.
  - rewrite IH by lia. apply Hg. lia.
  - apply Hg. lia.
Qed.

Lemma iterations_grow a n st :
  1 ≤ a →
  iterations (seq a n) grow st `prefix_of` seq a n
  ∧ ∀ k, a ≤ k < a + n →
      k ∈ iterations (seq a n) grow st
      ↔ ∀ k', a ≤ k' < k →
          layer (for_each (seq a n) grow st) (k' - 1) ≠ []
          ∧ layer (for_each (seq a n) grow st) k' ≠ [].
Proof.
  revert a st. induction n as [|n IH]; intros a st Ha1.
  { split; [done|]. intros; lia. }
  simpl. pose proof (grow_break a st) as Hb.
  pose proof (grow_same_below a st) as Hs.
  destruct (grow a st) as [[] st'] eqn:Hg; cbn [fst snd] in *.
  - destruct (IH (S a) st') as [IH1 IH2]; [lia|]. split; [by apply prefix_cons|].
    assert (layer (for_each (seq (S a) n) grow st') (a - 1) ≠ []
            ∧ layer (for_each (seq (S a) n) grow st') a ≠ []) as Ha.
    { rewrite (for_each_grow_below (S a) n st' (a - 1)); [|lia].
      rewrite (for_each_grow_below (S a) n st' a); [|lia]. split.
      - intros H. assert (Next = Break); [|done]. apply Hb. left.
        rewrite <- Hs; [done|lia].
      - intros H. assert (Next = Break); [|done]. apply Hb. by right. }
    intros k Hk. rewrite elem_of_cons.
    destruct (decide (k = a)) as [->|Hne].
    + split; [|by left]. intros _ k' Hk'. lia.
    + rewrite IH2 by lia. split.
      * intros [?|H]; [done|]. intros k' Hk'.
        destruct (decide (k' = a)) as [->|]; [done|]. apply H. lia.
      * intros H. right. intros k' Hk'. apply H. lia.
  - split; [apply prefix_cons, prefix_nil|].
    intros k Hk. rewrite elem_of_cons, elem_of_nil.
    split.
    + intros [->|[]]. intros k' Hk'. lia.
    + intros H. left. destruct (decide (k = a)) as [|Hne]; [done|exfalso].
      destruct (H a) as [H1 H2]; [lia|].
      destruct (proj1 Hb eq_refl) as [Hp|Hp].
      * apply H1. rewrite Hs; [done|lia].
      * done.
Qed.

Lemma prefix_seq_full a n l :
  l `prefix_of` seq a n → 0 < n → a + n - 1 ∈ l → l = seq a n.
Proof.
  intros [l' Hl] Hn Hin. destruct l' as [|x l']; [by rewrite app_nil_r in Hl|].
  exfalso. pose proof (NoDup_seq a n) as Hnd. rewrite Hl in Hnd.
  apply NoDup_app in Hnd as (_ & Hdis & Hnd').
  assert (Forall (λ y, y ≤ x) l) as Hle.
  { apply Forall_forall. intros y Hy.
    assert (∃ i1, l !! i1 = Some y) as [i1 H1] by (by apply list_elem_of_lookup).
    assert ((seq a n) !! i1 = Some y) as E1 by (rewrite Hl; by apply lookup_app_l_Some).
    assert ((seq a n) !! (length l) = Some x) as E2
      by (rewrite Hl; by rewrite list_lookup_middle).
    apply lookup_seq in E1 as [-> ?]. apply lookup_seq in E2 as [-> ?].
    apply lookup_lt_Some in H1. lia. }
  rewrite Forall_forall in Hle. specialize (Hle _ Hin).
  assert (x ∈ seq a n) as Hx by (rewrite Hl; set_solver).
  apply elem_of_seq in Hx.
  assert (x = a + n - 1) as -> by lia. apply (Hdis _ Hin). left.
Qed.


(** ** The minimizer *)

Section DictFacts.
Context {K V : Type} `{EqDecision K}.

Lemma dict_get_set_eq (k : K) (v : V) (d : list (K * V)) : dict_get k (dict_set k v d) = Some v.
Proof.
  induction d as [|[k' v'] d IH]; simpl.
  - by rewrite decide_True.
  - destruct (decide (k = k')) as [->|Hne]; simpl.
    + by rewrite decide_True.
    + by rewrite decide_False.
Qed.

Lemma dict_get_set_ne (k k' : K) (v : V) (d : list (K * V)) :
  k ≠ k' → dict_get k' (dict_set k v d) = dict_get k' d.
Proof.
  intros Hne. induction d as [|[k0 v0] d IH]; simpl.
  - by rewrite decide_False.
  - destruct (decide (k = k0)) as [->|Hne0]; simpl.
    + by rewrite !decide_False by done.
    + destruct (decide (k' = k0)); [done|apply IH].
Qed.

Lemma dict_get_Some_values (k : K) (v : V) (d : list (K * V)) :
  dict_get k d = Some v → v ∈ dict_values d.
Proof.
  induction d as [|[k0 v0] d IH]; simpl; [done|].
  destruct (decide (k = k0)).
  - intros [= ->]. left.
  - intros H. right. by apply IH.
Qed.

Lemma dict_values_get (v : V) (d : list (K * V)) :
  v ∈ dict_values d → NoDup (dict_keys d) → ∃ k : K, dict_get k d = Some v.
Proof.
  induction d as [|[k0 v0] d IH]; simpl; [by intros ?%elem_of_nil|].
  intros [->|Hin]%elem_of_cons Hnd.
  - exists k0. by rewrite decide_True.
  - apply NoDup_cons in Hnd as [Hk0 Hnd].
    destruct (IH Hin Hnd) as [k Hk]. exists k.
    rewrite decide_False; [done|]. intros ->. apply Hk0.
    clear -Hk. induction d as [|[k1 v1] d IH]; simpl in *; [done|].
    destruct (decide (k0 = k1)) as [->|]; [left|right; by apply IH].
Qed.

Lemma dict_keys_set (k : K) (v : V) (d : list (K * V)) :
  dict_keys (dict_set k v d)
  = if decide (k ∈ dict_keys d) then dict_keys d else dict_keys d ++ [k].
Proof.
  unfold dict_keys. induction d as [|[k0 v0] d IH].
  - simpl. destruct (decide (k ∈ [])) as [?%elem_of_nil|]; done.
  - cbn [dict_set fmap list_fmap fst].
    destruct (decide (k = k0)) as [->|Hne]; cbn [fmap list_fmap fst].
    + destruct (decide (k0 ∈ k0 :: d.*1)) as [|Hn]; [done|].
      exfalso. apply Hn. left.
    + rewrite IH. destruct (decide (k ∈ d.*1)).
      * destruct (decide (k ∈ k0 :: d.*1)) as [|Hn]; [done|].
        exfalso. apply Hn. by right.
      * destruct (decide (k ∈ k0 :: d.*1)) as [[?|?]%elem_of_cons|]; done.
Qed.

Lemma dict_get_None_keys (k : K) (d : list (K * V)) :
  dict_get k d = None ↔ k ∉ dict_keys d.
Proof.
  unfold dict_keys. induction d as [|[k0 v0] d IH]; simpl.
  - split; [by intros _ ?%elem_of_nil|done].
  - destruct (decide (k = k0)) as [->|Hne].
    + split; [done|]. intros H. exfalso. apply H. left.
    + rewrite IH. rewrite elem_of_cons. tauto.
Qed.
End DictFacts.


Lemma best_proofs_snoc l (pr : proof) :
  best_proofs_for_theorem (l ++ [pr]) = consider (best_proofs_for_theorem l) pr.
Proof. unfold best_proofs_for_theorem. by rewrite foldl_app. Qed.

Lemma best_proofs_spec (l : list proof) :
  NoDup (dict_keys (best_proofs_for_theorem l))
  ∧ (∀ pr : proof, pr ∈ l →
        is_Some (dict_get (theorem_of pr.1) (best_proofs_for_theorem l)))
  ∧ (∀ theorem (best : proof),
        dict_get theorem (best_proofs_for_theorem l) = Some best →
        best ∈ l ∧ theorem_of best.1 = theorem
        ∧ ∀ pr : proof, pr ∈ l → theorem_of pr.1 = theorem →
            simpler_or_equal best.1 pr.1).
Proof.
  induction l as [|x l (IHk & IHs & IH)] using rev_ind.
  { split_and!; [apply NoDup_nil_2|by intros ? ?%elem_of_nil|done]. }
  rewrite best_proofs_snoc. set (d := best_proofs_for_theorem l) in *.
  unfold consider. destruct x as [steps justs].
  destruct (dict_get (theorem_of steps) d) as [cur|] eqn:Hcur.
  - destruct (IH _ _ Hcur) as (Hc1 & Hc2 & Hc3).
    destruct ((get_proof_complexity steps <? get_proof_complexity cur.1)
              || (get_proof_complexity steps =? get_proof_complexity cur.1)
                 && (length steps <? length cur.1)) eqn:Hbetter.
    + split_and!.
      * rewrite dict_keys_set, decide_True; [done|].
        destruct (decide (theorem_of steps ∈ dict_keys d)) as [|Hn]; [done|].
        apply dict_get_None_keys in Hn. congruence.
      * intros pr [Hpr| ->%list_elem_of_singleton]%elem_of_app.
        -- destruct (decide (theorem_of steps = theorem_of pr.1)) as [<-|Hne].
           ++ rewrite dict_get_set_eq. eauto.
           ++ rewrite dict_get_set_ne by done. by apply IHs.
        -- simpl. rewrite dict_get_set_eq. eauto.
      * intros theorem best.
        destruct (decide (theorem_of steps = theorem)) as [<-|Hne].
        -- rewrite dict_get_set_eq. intros [= <-]. split_and!; [set_solver|done|].
           intros pr [Hpr| ->%list_elem_of_singleton]%elem_of_app Ht.
           ++ destruct (Hc3 pr Hpr Ht) as [H1 H2]. unfold simpler_or_equal. simpl.
              apply orb_true_iff in Hbetter as [Hb|Hb].
              ** apply Nat.ltb_lt in Hb. lia.
              ** apply andb_true_iff in Hb as [Hb1 Hb2].
                 apply Nat.eqb_eq in Hb1. apply Nat.ltb_lt in Hb2.
                 split; [lia|]. intros E. rewrite Hb1 in E. specialize (H2 E). lia.
           ++ unfold simpler_or_equal. simpl. lia.
        -- rewrite dict_get_set_ne by done. intros Hb.
           destruct (IH _ _ Hb) as (H1 & H2 & H3). split_and!; [set_solver|done|].
           intros pr [Hpr| ->%list_elem_of_singleton]%elem_of_app Ht; [by apply H3|].
           simpl in Ht. done.
    + split_and!; [done| |].
      * intros pr [Hpr| ->%list_elem_of_singleton]%elem_of_app; [by apply IHs|].
        simpl. rewrite Hcur. eauto.
      * intros theorem best Hb.
        destruct (IH _ _ Hb) as (H1 & H2 & H3). split_and!; [set_solver|done|].
        intros pr [Hpr| ->%list_elem_of_singleton]%elem_of_app Ht; [by apply H3|].
        simpl in Ht. subst theorem. assert (best = cur) as -> by congruence.
        unfold simpler_or_equal. simpl.
        apply orb_false_iff in Hbetter as [Hb1 Hb2].
        apply Nat.ltb_ge in Hb1. split; [done|]. intros E.
        rewrite E, Nat.eqb_refl in Hb2. simpl in Hb2. by apply Nat.ltb_ge in Hb2.
  - split_and!.
    + rewrite dict_keys_set, decide_False by (by apply dict_get_None_keys).
      apply NoDup_app. split_and!; [done| |apply NoDup_singleton].
      intros k Hk ->%list_elem_of_singleton. by apply dict_get_None_keys in Hcur.
    + intros pr [Hpr| ->%list_elem_of_singleton]%elem_of_app.
      * destruct (decide (theorem_of steps = theorem_of pr.1)) as [<-|Hne].
        -- rewrite dict_get_set_eq. eauto.
        -- rewrite dict_get_set_ne by done. by apply IHs.
      * simpl. rewrite dict_get_set_eq. eauto.
    + intros theorem best.
      destruct (decide (theorem_of steps = theorem)) as [<-|Hne].
      * rewrite dict_get_set_eq. intros [= <-]. split_and!; [set_solver|done|].
        intros pr [Hpr| ->%list_elem_of_singleton]%elem_of_app Ht.
        -- destruct (IHs pr Hpr) as [b Hb]. rewrite Ht in Hb. congruence.
        -- unfold simpler_or_equal. simpl. lia.
      * rewrite dict_get_set_ne by done. intros Hb.
        destruct (IH _ _ Hb) as (H1 & H2 & H3). split_and!; [set_solver|done|].
        intros pr [Hpr| ->%list_elem_of_singleton]%elem_of_app Ht; [by apply H3|].
        simpl in Ht. done.
Qed.

Lemma elem_of_all_proofs max_length st (pr : proof) :
  pr ∈ all_proofs max_length st ↔ ∃ k, 3 ≤ k ≤ max_length ∧ pr ∈ layer st k.
Proof.
  unfold all_proofs. rewrite list_elem_of_bind. split.
  - intros (k & Hpr & Hk%elem_of_range). exists k. split; [lia|done].
  - intros (k & Hk & Hpr). exists k. split; [done|]. apply elem_of_range. lia.
Qed.

Lemma mp_just_startswith i j : startswith (mp_just i j) (lit "MP") = true.
Proof.
  unfold startswith. apply bool_decide_eq_true.
  by exists (lit " (" ++ str_of_nat (i + 1) ++ lit "," ++ str_of_nat (j + 1) ++ lit ")").
Qed.

Lemma axiom_just_startswith name template vars sub_dict :
  (name, (template, vars)) ∈ AXIOM_TEMPLATES →
  startswith (axiom_just name sub_dict) (lit "MP") = false.
Proof.
  intros Hin. unfold startswith. apply bool_decide_eq_false.
  unfold AXIOM_TEMPLATES in Hin.
  repeat (apply elem_of_cons in Hin as [[= -> _ _]|Hin];
          [intros [k Hk]; discriminate Hk|]).
  by apply elem_of_nil in Hin.
Qed.

Section Minimizer.
Variable unicode_alnum : char → bool.
Variable basis : list str.

Local Abbreviation search := (search unicode_alnum basis).

(** A recorded proof passes the filter exactly when one of its
    justifications is that of a Modus Ponens step. *)
Lemma uses_mp_sound max_length k (pr : proof) :
  pr ∈ layer (search max_length) k →
  uses_mp pr.2 = true ↔ ∃ n i j, pr.2 !! n = Some (mp_just i j).
Proof.
  intros Hpr.
  destruct (reachable_sound _ _ _ _ (search_reachable unicode_alnum basis max_length)
              k pr Hpr) as (L1 & L2 & Hs).
  unfold uses_mp. rewrite existsb_exists. split.
  - intros (just & Hin%list_elem_of_In & Hst).
    apply list_elem_of_lookup in Hin as [n Hn]. exists n.
    pose proof (lookup_lt_Some _ _ _ Hn) as Hlt. rewrite L2 in Hlt.
    destruct (Hs n Hlt) as [(name & template & vars & combo & H1 & H2 & H3 & H4)
                           |(i & j & p & pq & q & _ & _ & _ & _ & _ & _ & _ & H8)].
    + rewrite Hn in H4. injection H4 as ->.
      erewrite axiom_just_startswith in Hst by done. done.
    + exists i, j. done.
  - intros (n & i & j & Hn). exists (mp_just i j). split.
    + apply list_elem_of_In, list_elem_of_lookup. eauto.
    + apply mp_just_startswith.
Qed.

Lemma elem_of_proofs_with_mp max_length (pr : proof) :
  pr ∈ proofs_with_mp max_length (search max_length)
  ↔ (∃ k, 3 ≤ k ≤ max_length ∧ pr ∈ layer (search max_length) k)
    ∧ ∃ n i j, pr.2 !! n = Some (mp_just i j).
Proof.
  unfold proofs_with_mp. rewrite list_elem_of_filter, elem_of_all_proofs.
  split.
  - intros [Hu (k & Hk & Hpr)]. split; [eauto|]. by eapply uses_mp_sound.
  - intros [(k & Hk & Hpr) Hmp]. split; [|eauto]. by eapply uses_mp_sound.
Qed.

(** C3: the proof the minimizer retains for a theorem is a candidate
    proving that theorem, and every candidate proving the same theorem (a
    proof of a layer of length 3 to [max_length] with a Modus Ponens
    justification) has a complexity at least as large and, when the
    complexities are equal, at least as many steps. *)
Theorem minimizer_keeps_simplest max_length theorem (best : proof) :
  dict_get theorem
    (best_proofs_for_theorem (proofs_with_mp max_length (search max_length)))
  = Some best →
  ((∃ k, 3 ≤ k ≤ max_length ∧ best ∈ layer (search max_length) k)
   ∧ (∃ n i j, best.2 !! n = Some (mp_just i j))
   ∧ theorem_of best.1 = theorem)
  ∧ ∀ k (pr : proof),
      3 ≤ k ≤ max_length → pr ∈ layer (search max_length) k →
      (∃ n i j, pr.2 !! n = Some (mp_just i j)) →
      theorem_of pr.1 = theorem →
      get_proof_complexity best.1 ≤ get_proof_complexity pr.1
      ∧ (get_proof_complexity best.1 = get_proof_complexity pr.1 →
         length best.1 ≤ length pr.1).
Proof.
  intros Hbest.
  destruct (best_proofs_spec (proofs_with_mp max_length (search max_length)))
    as (_ & _ & Hspec).
  destruct (Hspec _ _ Hbest) as (Hin & Hthm & Hmin).
  apply elem_of_proofs_with_mp in Hin as [Hk Hmp].
  split; [done|]. intros k pr Hk' Hpr Hmp' Ht.
  apply (Hmin pr); [|done]. apply elem_of_proofs_with_mp. eauto.
Qed.

End Minimizer.

Lemma minimizer_keeps_simplest_witness :
  ((∃ k, 3 ≤ k ≤ 3 ∧ three_lines ∈ layer (search (λ _, false) [lit "a"] 3) k)
   ∧ (∃ n i j, three_lines.2 !! n = Some (mp_just i j))
   ∧ theorem_of three_lines.1 = lit "((a → a) → (a → a))")
  ∧ ∀ k (pr : proof),
      3 ≤ k ≤ 3 → pr ∈ layer (search (λ _, false) [lit "a"] 3) k →
      (∃ n i j, pr.2 !! n = Some (mp_just i j)) →
      theorem_of pr.1 = lit "((a → a) → (a → a))" →
      get_proof_complexity three_lines.1 ≤ get_proof_complexity pr.1
      ∧ (get_proof_complexity three_lines.1 = get_proof_complexity pr.1 →
         length three_lines.1 ≤ length pr.1).
Proof.
  apply (minimizer_keeps_simplest (λ _, false) [lit "a"] 3).
  vm_compute. reflexivity.
Defined.

(** ** The order of the report *)

Ltac n_ltb :=
  repeat match goal with
    | |- context [(?a <? ?b)%N] =>
        first [ rewrite (proj2 (N.ltb_lt a b)) by lia
              | rewrite (proj2 (N.ltb_ge a b)) by lia ]
    | H : context [(?a <? ?b)%N] |- _ =>
        first [ rewrite (proj2 (N.ltb_lt a b)) in H by lia
              | rewrite (proj2 (N.ltb_ge a b)) in H by lia ]
    end.

Lemma str_ltb_irrefl (s : str) : str_ltb s s = false.
Proof. induction s as [|c s IH]; [done|]. simpl. by n_ltb. Qed.

Lemma str_ltb_trans (s t u : str) :
  str_ltb s t = true → str_ltb t u = true → str_ltb s u = true.
Proof.
  revert t u. induction s as [|c s IH]; intros [|d t] [|e u]; simpl; try done.
  intros H1 H2.
  destruct (N.lt_trichotomy c d) as [Hcd|[->|Hcd]];
    destruct (N.lt_trichotomy d e) as [Hde|[->|Hde]]; n_ltb; try done.
  by apply (IH t).
Qed.

Lemma str_ltb_trichotomy (s t : str) :
  str_ltb s t = false → str_ltb t s = false → s = t.
Proof.
  revert t. induction s as [|c s IH]; intros [|d t]; simpl; try done.
  intros H1 H2.
  destruct (N.lt_trichotomy c d) as [Hcd|[->|Hcd]]; n_ltb; try done.
  f_equal. by apply IH.
Qed.

Lemma report_key_ltb_spec (p1 p2 : proof) :
  report_key_ltb p1 p2 = true
  ↔ length p1.1 < length p2.1
    ∨ (length p1.1 = length p2.1
       ∧ str_ltb (theorem_of p1.1) (theorem_of p2.1) = true).
Proof.
  unfold report_key_ltb.
  rewrite orb_true_iff, andb_true_iff, Nat.ltb_lt, Nat.eqb_eq. done.
Qed.

Lemma report_key_ltb_irrefl (p : proof) : report_key_ltb p p = false.
Proof.
  apply not_true_is_false. rewrite report_key_ltb_spec, str_ltb_irrefl.
  intros [?|[_ ?]]; [lia|done].
Qed.

Lemma report_key_ltb_asym (p q : proof) :
  report_key_ltb p q = true → report_key_ltb q p = false.
Proof.
  intros H. apply not_true_is_false. intros H'.
  apply report_key_ltb_spec in H, H'.
  destruct H as [?|[E1 H]], H' as [?|[E2 H']]; try lia.
  pose proof (str_ltb_trans _ _ _ H H') as Hc. by rewrite str_ltb_irrefl in Hc.
Qed.

Lemma report_key_ltb_negtrans (p q r : proof) :
  report_key_ltb q p = false → report_key_ltb r q = false →
  report_key_ltb r p = false.
Proof.
  intros H1 H2. apply not_true_is_false. intros H3.
  apply not_true_iff_false in H1, H2.
  rewrite report_key_ltb_spec in H1, H2, H3.
  destruct (lt_eq_lt_dec (length q.1) (length p.1)) as [[?| E1]|?]; [tauto| |].
  - destruct (lt_eq_lt_dec (length r.1) (length q.1)) as [[?| E2]|?]; [tauto| |lia].
    destruct H3 as [?|[_ H3]]; [lia|].
    destruct (str_ltb (theorem_of q.1) (theorem_of p.1)) eqn:Hqp; [tauto|].
    destruct (str_ltb (theorem_of r.1) (theorem_of q.1)) eqn:Hrq; [tauto|].
    destruct (str_ltb (theorem_of p.1) (theorem_of q.1)) eqn:Hpq.
    + pose proof (str_ltb_trans _ _ _ H3 Hpq). congruence.
    + assert (theorem_of q.1 = theorem_of p.1) as E
        by (by apply str_ltb_trichotomy).
      rewrite E in Hrq. congruence.
  - destruct (lt_eq_lt_dec (length r.1) (length q.1)) as [[?| E2]|?]; [tauto|lia|lia].
Qed.

Section SortedFacts.
Context {A : Type} (ltb : A → A → bool).
Hypothesis ltb_asym : ∀ x y, ltb x y = true → ltb y x = false.
Hypothesis ltb_negtrans :
  ∀ x y z, ltb y x = false → ltb z y = false → ltb z x = false.

Lemma sorted_insert_Permutation x (l : list A) : sorted_insert ltb x l ≡ₚ x :: l.
Proof.
  induction l as [|y l IH]; [done|]. simpl. destruct (ltb y x); [|done].
  rewrite IH. apply Permutation_swap.
Qed.

Lemma sorted_Permutation (l : list A) : sorted ltb l ≡ₚ l.
Proof.
  induction l as [|x l IH]; [done|]. simpl.
  by rewrite sorted_insert_Permutation, IH.
Qed.

Lemma sorted_insert_StronglySorted x (l : list A) :
  StronglySorted (λ a b, ltb b a = false) l →
  StronglySorted (λ a b, ltb b a = false) (sorted_insert ltb x l).
Proof.
  induction 1 as [|y l Hs IH Hall]; simpl.
  { repeat constructor. }
  destruct (ltb y x) eqn:Hyx.
  - constructor; [done|].
    rewrite sorted_insert_Permutation. constructor; [by apply ltb_asym|done].
  - constructor; [by constructor|]. constructor; [done|].
    eapply Forall_impl; [exact Hall|]. intros z Hz. simpl in Hz.
    by apply (ltb_negtrans x y z).
Qed.

Lemma sorted_StronglySorted (l : list A) :
  StronglySorted (λ a b, ltb b a = false) (sorted ltb l).
Proof.
  induction l as [|x l IH]; simpl; [constructor|].
  by apply sorted_insert_StronglySorted.
Qed.

Lemma StronglySorted_lookup (R : A → A → Prop) (l : list A) i j x y :
  StronglySorted R l → i < j → l !! i = Some x → l !! j = Some y → R x y.
Proof.
  intros Hs. revert i j. induction Hs as [|z l Hs IH Hall]; intros i j Hij Hi Hj.
  { done. }
  destruct j as [|j]; [lia|]. simpl in Hj. destruct i as [|i].
  - injection Hi as <-. rewrite Forall_forall in Hall. apply Hall.
    by eapply list_elem_of_lookup_2.
  - simpl in Hi. apply (IH i j); [lia|done..].
Qed.
End SortedFacts.

Section Report.
Variable unicode_alnum : char → bool.
Variable basis : list str.

Local Abbreviation reported := (reported unicode_alnum basis).


Lemma reported_nonempty max_length (pr : proof) :
  pr ∈ reported max_length → pr.1 ≠ [].
Proof.
  unfold reported, final_proofs. rewrite sorted_Permutation.
  set (cands := proofs_with_mp _ _).
  destruct (best_proofs_spec cands) as (Hnd & _ & Hspec).
  intros Hin. destruct (dict_values_get _ _ Hin Hnd) as [t Ht].
  destruct (Hspec _ _ Ht) as (Hc & _ & _).
  apply elem_of_proofs_with_mp in Hc as [(k & Hk & Hpr) _].
  destruct (reachable_lengths _ _ _ _
              (search_reachable unicode_alnum basis max_length) _ _ Hpr) as [L _].
  intros E. rewrite E in L. simpl in L. lia.
Qed.

Lemma print_all (l : list proof) :
  (∀ pr : proof, pr ∈ l → pr.1 ≠ []) →
  (pr ← l; print_proof pr.1 pr.2) = (λ pr : proof, Printed pr.1 pr.2) <$> l.
Proof.
  induction l as [|[steps justs] l IH]; intros H; [done|].
  cbn [mbind list_bind fmap list_fmap]. rewrite IH by (intros; apply H; by right).
  destruct steps as [|s steps]; [|done].
  exfalso. by apply (H ([], justs)); [left|].
Qed.

(** C6: in the list that is printed, a proof with fewer steps, or with as
    many steps and a theorem smaller in the order of its text, comes before
    the other; the list is a rearrangement of the retained best proofs, and
    the blocks written after the summary lines are its proofs in its
    order. *)
Theorem report_order max_length :
  (∀ i j (p q : proof),
      reported max_length !! i = Some p → reported max_length !! j = Some q →
      length p.1 < length q.1
      ∨ (length p.1 = length q.1
         ∧ str_ltb (theorem_of p.1) (theorem_of q.1) = true) →
      i < j)
  ∧ reported max_length
    ≡ₚ dict_values
         (best_proofs_for_theorem
            (proofs_with_mp max_length (search unicode_alnum basis max_length)))
  ∧ find_all_proofs unicode_alnum basis max_length
    = written (search unicode_alnum basis max_length)
      ++ [FoundTotal (total_proof_count (search unicode_alnum basis max_length));
          FoundWithMP
            (length (proofs_with_mp max_length
                       (search unicode_alnum basis max_length)))]
      ++ match proofs_with_mp max_length (search unicode_alnum basis max_length)
         with
         | [] => [NoneWithMP]
         | _ :: _ =>
             Filtering
               (length (best_proofs_for_theorem
                          (proofs_with_mp max_length
                             (search unicode_alnum basis max_length))))
             :: ((λ pr : proof, Printed pr.1 pr.2) <$> reported max_length)
         end.
Proof.
  split_and!.
  - intros i j p q Hi Hj Hlt. apply report_key_ltb_spec in Hlt.
    destruct (lt_eq_lt_dec i j) as [[?| ->]|Hji]; [done| |].
    + assert (p = q) as -> by congruence.
      by rewrite report_key_ltb_irrefl in Hlt.
    + pose proof (StronglySorted_lookup _ _ _ _ _ _
                    (sorted_StronglySorted report_key_ltb report_key_ltb_asym
                       report_key_ltb_negtrans _) Hji Hj Hi) as Hs.
      simpl in Hs. congruence.
  - apply sorted_Permutation.
  - pose proof (print_all _ (reported_nonempty max_length)) as Hp.
    unfold reported in *. unfold find_all_proofs.
    destruct (proofs_with_mp _ _); simpl.
    + by rewrite <- !app_assoc.
    + simpl in Hp. rewrite Hp. by rewrite <- !app_assoc.
Qed.

End Report.

(** ** Substitution of a one-letter variable *)

Section Substitution.
Variable unicode_alnum : char → bool.

Local Abbreviation isw := (is_word unicode_alnum).
Local Abbreviation wat := (word_at unicode_alnum).


Lemma match_here_1 v prev (s : str) :
  isw v = true →
  match_here unicode_alnum [v] prev s
  = match s with
    | [] => false
    | c :: s' => (c =? v)%N && negb (wat prev) && negb (wat (head s'))
    end.
Proof.
  intros Hv. unfold match_here, boundary, startswith.
  destruct s as [|c s'].
  - rewrite bool_decide_eq_false_2; [by rewrite andb_false_r|].
    intros [k Hk]. discriminate.
  - cbn [head last length drop from_option].
    destruct (N.eqb_spec c v) as [->|Hne].
    + rewrite bool_decide_eq_true_2 by (by exists s').
      rewrite drop_0. change (wat (Some v)) with (isw v). rewrite Hv.
      by destruct (wat prev), (wat (head s')).
    + rewrite bool_decide_eq_false_2; [by rewrite andb_false_r|].
      intros [k Hk]. by injection Hk.
Qed.

Lemma re_sub_from_1 v wff prev (s : str) :
  isw v = true →
  re_sub_from unicode_alnum [v] wff prev 0 s = sub1 unicode_alnum v wff (wat prev) s.
Proof.
  intros Hv. revert prev. induction s as [|c s IH]; intros prev.
  - cbn [re_sub_from sub1]. by rewrite match_here_1.
  - cbn [re_sub_from sub1]. rewrite match_here_1 by done.
    destruct (N.eqb_spec c v) as [->|Hne]; cbn [andb].
    + destruct (negb (wat prev) && negb (wat (head s))); cbn [length].
      * rewrite IH. change (wat (Some v)) with (isw v). by rewrite Hv.
      * rewrite IH. done.
    + rewrite IH. done.
Qed.

Lemma re_sub_1 v wff (s : str) :
  isw v = true → re_sub unicode_alnum [v] wff s = sub1 unicode_alnum v wff false s.
Proof. intros Hv. unfold re_sub. by rewrite re_sub_from_1. Qed.

Lemma has_token_from_1 v prev (s : str) :
  isw v = true →
  has_token_from unicode_alnum [v] prev s = tok1 unicode_alnum v (wat prev) s.
Proof.
  intros Hv. revert prev. induction s as [|c s IH]; intros prev.
  - cbn [has_token_from tok1]. by rewrite match_here_1.
  - cbn [has_token_from tok1]. rewrite match_here_1 by done. by rewrite IH.
Qed.

Lemma has_token_1 v (s : str) :
  isw v = true → has_token unicode_alnum [v] s = tok1 unicode_alnum v false s.
Proof. intros Hv. unfold has_token. by rewrite has_token_from_1. Qed.

(** Across a character that is not a word character. *)
Lemma sub1_app v wff pw (w : str) c (s : str) :
  isw v = true → isw c = false →
  sub1 unicode_alnum v wff pw (w ++ c :: s) = sub1 unicode_alnum v wff pw w ++ c :: sub1 unicode_alnum v wff false s.
Proof.
  intros Hv Hc. revert pw. induction w as [|x w IH]; intros pw.
  - rewrite !app_nil_l. cbn [sub1].
    destruct (N.eqb_spec c v) as [->|_]; [congruence|]. by rewrite Hc.
  - rewrite <- !app_comm_cons. cbn [sub1].
    assert (wat (head (w ++ c :: s)) = wat (head w)) as ->.
    { destruct w; [|done]. simpl. exact Hc. }
    destruct ((x =? v)%N && negb pw && negb (wat (head w)));
      rewrite IH; [by rewrite <- app_assoc|done].
Qed.

Lemma tok1_app v pw (w : str) c (s : str) :
  isw v = true → isw c = false →
  tok1 unicode_alnum v pw (w ++ c :: s) = tok1 unicode_alnum v pw w || tok1 unicode_alnum v false s.
Proof.
  intros Hv Hc. revert pw. induction w as [|x w IH]; intros pw.
  - rewrite !app_nil_l. cbn [tok1].
    destruct (N.eqb_spec c v) as [->|_]; [congruence|]. by rewrite Hc.
  - rewrite <- !app_comm_cons. cbn [tok1].
    assert (wat (head (w ++ c :: s)) = wat (head w)) as ->.
    { destruct w; [|done]. simpl. exact Hc. }
    rewrite IH. by rewrite orb_assoc.
Qed.

(** Nothing is replaced where the variable is no token. *)
Lemma sub1_no_token v wff pw (w : str) :
  tok1 unicode_alnum v pw w = false → sub1 unicode_alnum v wff pw w = w.
Proof.
  revert pw. induction w as [|x w IH]; intros pw; [done|].
  cbn [tok1 sub1]. intros [-> H]%orb_false_iff. by rewrite IH.
Qed.

Lemma tok1_pw v (w : str) : tok1 unicode_alnum v false w = false → tok1 unicode_alnum v true w = false.
Proof.
  destruct w as [|x w]; [done|]. cbn [tok1].
  intros [_ ->]%orb_false_iff. by rewrite andb_false_r.
Qed.

(** In general: without a whole-token occurrence [re_sub] changes
    nothing. *)
Lemma re_sub_from_no_token var wff prev (s : str) :
  has_token_from unicode_alnum var prev s = false →
  re_sub_from unicode_alnum var wff prev 0 s = s.
Proof.
  revert prev. induction s as [|c s IH]; intros prev; cbn [has_token_from re_sub_from].
  - by intros [-> _]%orb_false_iff.
  - intros [-> H]%orb_false_iff. by rewrite IH.
Qed.

Lemma sub1_delim v wff pw c (s : str) :
  isw v = true → isw c = false →
  sub1 unicode_alnum v wff pw (c :: s) = c :: sub1 unicode_alnum v wff false s.
Proof. intros Hv Hc. by apply (sub1_app v wff pw [] c s). Qed.

Lemma sub1_hit v wff c (s : str) :
  isw v = true → isw c = false →
  sub1 unicode_alnum v wff false (v :: c :: s) = wff ++ c :: sub1 unicode_alnum v wff false s.
Proof.
  intros Hv Hc. cbn [sub1 head]. change (wat (Some c)) with (isw c).
  rewrite Hc, N.eqb_refl. cbn [andb negb].
  destruct (N.eqb_spec c v) as [->|_]; [congruence|]. done.
Qed.

Lemma sub1_miss v wff x c (s : str) :
  isw v = true → x ≠ v → isw c = false →
  sub1 unicode_alnum v wff false (x :: c :: s) = x :: c :: sub1 unicode_alnum v wff false s.
Proof.
  intros Hv Hx Hc. cbn [sub1 head].
  destruct (N.eqb_spec x v) as [|_]; [done|]. cbn [andb]. f_equal.
  destruct (N.eqb_spec c v) as [->|_]; [congruence|]. cbn [andb]. by rewrite Hc.
Qed.

Lemma sub1_other v wff pw x (s : str) :
  x ≠ v → sub1 unicode_alnum v wff pw (x :: s) = x :: sub1 unicode_alnum v wff (isw x) s.
Proof.
  intros Hx. cbn [sub1]. by destruct (N.eqb_spec x v) as [|_].
Qed.

Lemma sub1_inside v wff pw c (s : str) :
  isw v = true → isw c = true →
  sub1 unicode_alnum v wff pw (v :: c :: s) = v :: sub1 unicode_alnum v wff true (c :: s).
Proof.
  intros Hv Hc. cbn [sub1 head]. change (wat (Some c)) with (isw c).
  by rewrite Hc, Hv, andb_false_r.
Qed.

Lemma sub1_text v wff (w : str) c (s : str) :
  isw v = true → tok1 unicode_alnum v false w = false → isw c = false →
  sub1 unicode_alnum v wff false (w ++ c :: s) = w ++ c :: sub1 unicode_alnum v wff false s.
Proof. intros Hv Hw Hc. by rewrite sub1_app, sub1_no_token. Qed.

Lemma tok1_delim v pw c (s : str) :
  isw v = true → isw c = false → tok1 unicode_alnum v pw (c :: s) = tok1 unicode_alnum v false s.
Proof. intros Hv Hc. by apply (tok1_app v pw [] c s). Qed.

Lemma tok1_text v (w : str) c (s : str) :
  isw v = true → tok1 unicode_alnum v false w = false → isw c = false →
  tok1 unicode_alnum v false (w ++ c :: s) = tok1 unicode_alnum v false s.
Proof. intros Hv Hw Hc. by rewrite tok1_app, Hw. Qed.


Lemma no_schema_variable_tok1 w :
  no_schema_variable unicode_alnum w →
  tok1 unicode_alnum 65 false w = false ∧ tok1 unicode_alnum 66 false w = false ∧ tok1 unicode_alnum 67 false w = false.
Proof.
  intros (HA & HB & HC). change (lit "A") with [65%N] in HA.
  change (lit "B") with [66%N] in HB. change (lit "C") with [67%N] in HC.
  rewrite has_token_1 in HA, HB, HC by done. done.
Qed.

End Substitution.

Ltac sub1_steps :=
  repeat first
    [ match goal with
      | |- context [is_word ?ua ?c] =>
          let b := eval vm_compute in (is_word ua c) in
          match b with
          | true => change (is_word ua c) with true
          | false => change (is_word ua c) with false
          end
      end
    | rewrite sub1_hit by done
    | rewrite sub1_miss by done
    | rewrite sub1_inside by done
    | rewrite sub1_delim by done
    | rewrite sub1_text by done
    | rewrite sub1_other by done ].

Ltac tok1_steps :=
  repeat first
    [ rewrite tok1_delim by done
    | rewrite tok1_text by done ].

Ltac concrete_template t :=
  let t' := eval vm_compute in (lit t) in change (lit t) with t'.

Lemma substitute_A1 ua (wa wb : str) :
  no_schema_variable ua wa → no_schema_variable ua wb →
  substitute ua (lit "(A → (B → A))") (dict_of_zip [lit "A"; lit "B"] [wa; wb])
  = lit "(" ++ wa ++ lit " → (" ++ wb ++ lit " → " ++ wa ++ lit "))".
Proof.
  intros (Ha1 & Ha2 & Ha3)%no_schema_variable_tok1
         (Hb1 & Hb2 & Hb3)%no_schema_variable_tok1.
  change (substitute ua (lit "(A → (B → A))") (dict_of_zip [lit "A"; lit "B"] [wa; wb]))
    with (re_sub ua [66%N] wb (re_sub ua [65%N] wa (lit "(A → (B → A))"))).
  rewrite !re_sub_1 by done.
  concrete_template "(A → (B → A))"%string.
  sub1_steps. reflexivity.
Qed.

Lemma substitute_A2 ua (wa wb wc : str) :
  no_schema_variable ua wa → no_schema_variable ua wb →
  no_schema_variable ua wc →
  substitute ua (lit "((A → (B → C)) → ((A → B) → (A → C)))")
             (dict_of_zip [lit "A"; lit "B"; lit "C"] [wa; wb; wc])
  = lit "((" ++ wa ++ lit " → (" ++ wb ++ lit " → " ++ wc ++ lit ")) → (("
    ++ wa ++ lit " → " ++ wb ++ lit ") → (" ++ wa ++ lit " → " ++ wc
    ++ lit ")))".
Proof.
  intros (Ha1 & Ha2 & Ha3)%no_schema_variable_tok1
         (Hb1 & Hb2 & Hb3)%no_schema_variable_tok1
         (Hc1 & Hc2 & Hc3)%no_schema_variable_tok1.
  change (substitute ua (lit "((A → (B → C)) → ((A → B) → (A → C)))")
            (dict_of_zip [lit "A"; lit "B"; lit "C"] [wa; wb; wc]))
    with (re_sub ua [67%N] wc
            (re_sub ua [66%N] wb
               (re_sub ua [65%N] wa
                  (lit "((A → (B → C)) → ((A → B) → (A → C)))")))).
  rewrite !re_sub_1 by done.
  concrete_template "((A → (B → C)) → ((A → B) → (A → C)))"%string.
  sub1_steps. reflexivity.
Qed.

Lemma substitute_A3 ua (wa wb : str) :
  no_schema_variable ua wa → no_schema_variable ua wb →
  substitute ua (lit "((¬B → ¬A) → (A → B))")
             (dict_of_zip [lit "A"; lit "B"] [wa; wb])
  = lit "((¬" ++ wb ++ lit " → ¬" ++ wa ++ lit ") → (" ++ wa ++ lit " → "
    ++ wb ++ lit "))".
Proof.
  intros (Ha1 & Ha2 & Ha3)%no_schema_variable_tok1
         (Hb1 & Hb2 & Hb3)%no_schema_variable_tok1.
  change (substitute ua (lit "((¬B → ¬A) → (A → B))")
            (dict_of_zip [lit "A"; lit "B"] [wa; wb]))
    with (re_sub ua [66%N] wb
            (re_sub ua [65%N] wa (lit "((¬B → ¬A) → (A → B))"))).
  rewrite !re_sub_1 by done.
  concrete_template "((¬B → ¬A) → (A → B))"%string.
  sub1_steps. reflexivity.
Qed.

Ltac no_variable_left :=
  unfold no_schema_variable;
  change (lit "A") with [65%N]; change (lit "B") with [66%N];
  change (lit "C") with [67%N];
  rewrite !has_token_1 by done;
  repeat match goal with
    | |- context [lit ?t] => concrete_template t
    end;
  repeat (rewrite <- app_comm_cons || rewrite app_nil_l);
  split_and!; tok1_steps; reflexivity.

(** ** Replacement by whole tokens *)

Section Tokens.
Variable unicode_alnum : char → bool.

Local Abbreviation isw := (is_word unicode_alnum).

Lemma ident_char_word c : ident_char c = true → isw c = true.
Proof.
  unfold ident_char, is_word, is_alnum. intros H.
  destruct (N.ltb_spec c 128) as [Hlt|Hge].
  - by rewrite H.
  - exfalso. revert H. rewrite !orb_true_iff, !andb_true_iff.
    rewrite !N.leb_le, N.eqb_eq. lia.
Qed.

Lemma delim_char_not_word c : delim_char c = true → isw c = false.
Proof.
  unfold delim_char, is_word, is_alnum, ident_char, NOT_SIGN, ARROW.
  rewrite !orb_true_iff, !andb_true_iff, negb_true_iff, !N.eqb_eq.
  intros [[[[Hlt Hn] _]| ->]| ->]; [|done..].
  rewrite Hlt. apply orb_false_iff in Hn as [Hn ->]. by rewrite Hn.
Qed.

Lemma sub1_run_inside v wff (w : str) :
  Forall (λ c, isw c = true) w → sub1 unicode_alnum v wff true w = w.
Proof.
  induction 1 as [|c w Hc _ IH]; [done|]. cbn [sub1].
  by rewrite andb_false_r, Hc, IH.
Qed.

Lemma tok1_run_inside v (w : str) :
  Forall (λ c, isw c = true) w → tok1 unicode_alnum v true w = false.
Proof.
  induction 1 as [|c w Hc _ IH]; [done|]. cbn [tok1].
  by rewrite andb_false_r, Hc, IH.
Qed.

(** An identifier is replaced exactly when it is the variable. *)
Lemma sub1_ident v wff (w : str) :
  isw v = true → Forall (λ c, isw c = true) w →
  sub1 unicode_alnum v wff false w = if decide (w = [v]) then wff else w.
Proof.
  intros Hv Hw. destruct Hw as [|c w Hc Hw]; [by rewrite decide_False|].
  cbn [sub1]. destruct (N.eqb_spec c v) as [->|Hne].
  - destruct Hw as [|c' w Hc' Hw].
    + rewrite decide_True by done. cbn. by rewrite app_nil_r.
    + rewrite decide_False by done. cbn [head word_at from_option negb andb].
      rewrite Hc'. cbn [negb andb]. rewrite Hv.
      by rewrite (sub1_run_inside _ _ (c' :: w)) by by constructor.
  - rewrite decide_False by congruence. cbn [andb].
    by rewrite Hc, sub1_run_inside.
Qed.

Lemma tok1_ident v (w : str) :
  isw v = true → Forall (λ c, isw c = true) w →
  tok1 unicode_alnum v false w = bool_decide (w = [v]).
Proof.
  intros Hv Hw. destruct Hw as [|c w Hc Hw]; [done|].
  cbn [tok1]. destruct (N.eqb_spec c v) as [->|Hne].
  - destruct Hw as [|c' w Hc' Hw].
    + by rewrite bool_decide_eq_true_2.
    + rewrite bool_decide_eq_false_2 by done.
      cbn [head word_at from_option negb andb].
      rewrite Hc'. cbn [negb andb orb]. rewrite Hv.
      by apply (tok1_run_inside _ (c' :: w)); constructor.
  - rewrite bool_decide_eq_false_2 by congruence. cbn [andb orb].
    by rewrite Hc, tok1_run_inside.
Qed.

Lemma ident_run_words (w : str) :
  Forall (λ c, ident_char c = true) w → Forall (λ c, isw c = true) w.
Proof.
  intros H. eapply Forall_impl; [exact H|]. intros c. apply ident_char_word.
Qed.

Lemma tokens_text_cons t ts : tokens_text (t :: ts) = token_text t ++ tokens_text ts.
Proof. done. Qed.

Lemma tokens_text_app ts1 ts2 :
  tokens_text (ts1 ++ ts2) = tokens_text ts1 ++ tokens_text ts2.
Proof. unfold tokens_text. apply bind_app. Qed.

Lemma tokens_text_bind (f : token → list token) ts :
  tokens_text (ts ≫= f) = ts ≫= (λ t, tokens_text (f t)).
Proof.
  induction ts as [|t ts IH]; [done|].
  change ((t :: ts) ≫= f) with (f t ++ (ts ≫= f)).
  by rewrite tokens_text_app, IH.
Qed.

(** One pass of the regular expression, read on the tokens. *)
Lemma re_sub_tokens v wff ts :
  ident_char v = true → tokenized ts →
  re_sub unicode_alnum [v] wff (tokens_text ts)
  = ts ≫= (λ t, if decide (t = Ident [v]) then wff else token_text t).
Proof.
  intros Hv%ident_char_word Ht. rewrite re_sub_1 by done.
  induction Ht as [|c ts Hc Ht IH|w Hne Hw|w c ts Hne Hw Hc Ht IH].
  - done.
  - apply delim_char_not_word in Hc.
    rewrite tokens_text_cons. cbn [token_text mbind list_bind].
    change ([c] ++ tokens_text ts) with (c :: tokens_text ts).
    rewrite sub1_delim by done. rewrite decide_False by done.
    change (c :: sub1 unicode_alnum v wff false (tokens_text ts)
            = [c] ++ (ts ≫= λ t, if decide (t = Ident [v]) then wff else token_text t)).
    by rewrite IH.
  - apply ident_run_words in Hw. cbn. rewrite !app_nil_r.
    rewrite sub1_ident by done.
    destruct (decide (w = [v])) as [->|Hn].
    + by rewrite decide_True.
    + rewrite decide_False; [done|]. by intros [= ->].
  - apply ident_run_words in Hw. apply delim_char_not_word in Hc.
    rewrite !tokens_text_cons. cbn [token_text].
    change (w ++ [c] ++ tokens_text ts) with (w ++ c :: tokens_text ts).
    rewrite sub1_app, sub1_ident, IH by done.
    cbn [mbind list_bind]. rewrite (decide_False (P := Delim c = Ident [v])) by done.
    destruct (decide (w = [v])) as [->|Hn].
    + by rewrite decide_True.
    + rewrite decide_False; [done|]. by intros [= ->].
Qed.

Lemma has_token_tokens v ts :
  ident_char v = true → tokenized ts →
  has_token unicode_alnum [v] (tokens_text ts) = bool_decide (Ident [v] ∈ ts).
Proof.
  intros Hv%ident_char_word Ht. rewrite has_token_1 by done.
  induction Ht as [|c ts Hc Ht IH|w Hne Hw|w c ts Hne Hw Hc Ht IH].
  - done.
  - apply delim_char_not_word in Hc. rewrite tokens_text_cons.
    change (token_text (Delim c) ++ tokens_text ts) with (c :: tokens_text ts).
    rewrite tok1_delim, IH by done.
    apply bool_decide_ext. rewrite elem_of_cons. naive_solver.
  - apply ident_run_words in Hw. cbn. rewrite !app_nil_r.
    rewrite tok1_ident by done. apply bool_decide_ext.
    rewrite list_elem_of_singleton. naive_solver.
  - apply ident_run_words in Hw. apply delim_char_not_word in Hc.
    rewrite !tokens_text_cons. cbn [token_text].
    change (w ++ [c] ++ tokens_text ts) with (w ++ c :: tokens_text ts).
    rewrite tok1_app, tok1_ident, IH by done.
    destruct (decide (w = [v])) as [->|Hn].
    + rewrite bool_decide_eq_true_2 by done. symmetry.
      apply bool_decide_eq_true_2. left.
    + rewrite bool_decide_eq_false_2 by done. cbn [orb].
      apply bool_decide_ext. rewrite !elem_of_cons. naive_solver.
Qed.

Lemma tokenized_app_delim a c b :
  tokenized a → tokenized (Delim c :: b) → tokenized (a ++ Delim c :: b).
Proof.
  intros Ha Hb. induction Ha as [|c' ts Hc' Ht IH|w Hne Hw|w c' ts Hne Hw Hc' Ht IH].
  - done.
  - by constructor.
  - inversion Hb; subst. by constructor.
  - by constructor.
Qed.

Lemma tokenized_replace var tsv ts :
  tokenized ts → tokenized tsv → tokenized (ts ≫= replace_token var tsv).
Proof.
  intros Ht Hv. unfold replace_token.
  induction Ht as [|c ts Hc Ht IH|w Hne Hw|w c ts Hne Hw Hc Ht IH].
  - constructor.
  - cbn [mbind list_bind]. rewrite decide_False by done. by constructor.
  - cbn [mbind list_bind]. destruct (decide _); rewrite app_nil_r; [done|].
    by constructor.
  - change (tokenized ((if decide (Ident w = Ident var) then tsv else [Ident w])
                       ++ (if decide (Delim c = Ident var) then tsv else [Delim c])
                       ++ (ts ≫= λ t, if decide (t = Ident var) then tsv else [t]))).
    rewrite (decide_False (P := Delim c = Ident var)) by done.
    destruct (decide _).
    + apply tokenized_app_delim; [done|]. by constructor.
    + by constructor.
Qed.

Lemma replace_token_absent var tsv (l : list token) :
  Ident var ∉ l → l ≫= replace_token var tsv = l.
Proof.
  unfold replace_token. induction l as [|t l IH]; [done|].
  intros [Ht Hl]%not_elem_of_cons. cbn [mbind list_bind].
  rewrite decide_False by done. by rewrite IH.
Qed.

Lemma bind_bind {A B C} (f : A → list B) (g : B → list C) (l : list A) :
  (l ≫= f) ≫= g = l ≫= (λ x, f x ≫= g).
Proof.
  induction l as [|x l IH]; [done|].
  change ((f x ++ (l ≫= f)) ≫= g = (f x ≫= g) ++ (l ≫= λ x, f x ≫= g)).
  by rewrite bind_app, IH.
Qed.

Lemma bind_ext_in {A B} (f g : A → list B) (l : list A) :
  (∀ x, x ∈ l → f x = g x) → l ≫= f = l ≫= g.
Proof.
  induction l as [|x l IH]; intros H; [done|].
  change (f x ++ (l ≫= f) = g x ++ (l ≫= g)).
  rewrite H by left. rewrite IH; [done|]. intros; apply H; by right.
Qed.

(** One pass, from tokens to tokens. *)
Lemma re_sub_replace_token v tsv ts :
  ident_char v = true → tokenized ts →
  re_sub unicode_alnum [v] (tokens_text tsv) (tokens_text ts)
  = tokens_text (ts ≫= replace_token [v] tsv).
Proof.
  intros Hv Ht. rewrite re_sub_tokens by done. rewrite tokens_text_bind.
  apply bind_ext_in. intros t _. unfold replace_token.
  destruct (decide _); [done|]. unfold tokens_text. cbn. by rewrite app_nil_r.
Qed.

Lemma replace_token_eq var tsv : replace_token var tsv (Ident var) = tsv.
Proof. unfold replace_token. by rewrite decide_True. Qed.

Lemma replace_token_ne var tsv t :
  t ≠ Ident var → replace_token var tsv t = [t].
Proof. intros. unfold replace_token. by rewrite decide_False. Qed.

Lemma bind_one {A B} (f : A → list B) (x : A) : [x] ≫= f = f x.
Proof. cbn. by rewrite app_nil_r. Qed.

Lemma assign_passes tsa tsb tsc ts :
  Ident (lit "B") ∉ tsa → Ident (lit "C") ∉ tsa → Ident (lit "C") ∉ tsb →
  ((ts ≫= replace_token (lit "A") tsa) ≫= replace_token (lit "B") tsb)
    ≫= replace_token (lit "C") tsc
  = ts ≫= assign tsa tsb tsc.
Proof.
  intros HaB HaC HbC.
  rewrite (bind_bind (replace_token (lit "A") tsa)), bind_bind.
  apply bind_ext_in. intros t _. unfold assign.
  destruct (decide (t = Ident (lit "A"))) as [->|HA].
  { rewrite replace_token_eq.
    rewrite (replace_token_absent (lit "B")) by done.
    by rewrite replace_token_absent. }
  rewrite (replace_token_ne (lit "A")), bind_one by done.
  destruct (decide (t = Ident (lit "B"))) as [->|HB].
  { rewrite replace_token_eq. by rewrite replace_token_absent. }
  rewrite (replace_token_ne (lit "B")), bind_one by done.
  destruct (decide (t = Ident (lit "C"))) as [->|HC].
  { by rewrite replace_token_eq. }
  by rewrite replace_token_ne.
Qed.

Lemma assign_passes_2 tsa tsb ts :
  Ident (lit "B") ∉ tsa →
  (ts ≫= replace_token (lit "A") tsa) ≫= replace_token (lit "B") tsb
  = ts ≫= assign tsa tsb [Ident (lit "C")].
Proof.
  intros HaB. rewrite bind_bind. apply bind_ext_in. intros t _.
  unfold assign.
  destruct (decide (t = Ident (lit "A"))) as [->|HA].
  { rewrite replace_token_eq. by rewrite replace_token_absent. }
  rewrite (replace_token_ne (lit "A")), bind_one by done.
  destruct (decide (t = Ident (lit "B"))) as [->|HB].
  { by rewrite replace_token_eq. }
  rewrite (replace_token_ne (lit "B")) by done.
  by destruct (decide (t = Ident (lit "C"))) as [->|].
Qed.

Lemma elem_of_assign tsa tsb tsc ts (t' : token) :
  t' ∈ ts ≫= assign tsa tsb tsc →
  t' ∈ tsa ∨ t' ∈ tsb ∨ t' ∈ tsc
  ∨ (t' ∈ ts ∧ t' ≠ Ident (lit "A") ∧ t' ≠ Ident (lit "B")
     ∧ t' ≠ Ident (lit "C")).
Proof.
  intros (t & Ht' & Ht)%list_elem_of_bind. unfold assign in Ht'.
  repeat destruct (decide _); auto.
  apply list_elem_of_singleton in Ht' as ->. auto 10.
Qed.

(** The whole of [substitute] on a text and an assignment read as
    tokens. *)
Lemma substitute_tokens_3 ts tsa tsb tsc :
  tokenized ts → tokenized tsa → tokenized tsb → tokenized tsc →
  schema_free tsa → schema_free tsb → schema_free tsc →
  substitute unicode_alnum (tokens_text ts)
    (dict_of_zip [lit "A"; lit "B"; lit "C"]
       [tokens_text tsa; tokens_text tsb; tokens_text tsc])
  = tokens_text (ts ≫= assign tsa tsb tsc)
  ∧ tokenized (ts ≫= assign tsa tsb tsc)
  ∧ schema_free (ts ≫= assign tsa tsb tsc).
Proof.
  intros Ht Ha Hb Hc (HaA & HaB & HaC) (HbA & HbB & HbC) (HcA & HcB & HcC).
  rewrite <- (assign_passes tsa tsb tsc ts) by done.
  pose proof (tokenized_replace (lit "A") tsa ts Ht Ha) as H1.
  pose proof (tokenized_replace (lit "B") tsb _ H1 Hb) as H2.
  pose proof (tokenized_replace (lit "C") tsc _ H2 Hc) as H3.
  split_and!; [|done|].
  - change (substitute unicode_alnum (tokens_text ts)
              (dict_of_zip [lit "A"; lit "B"; lit "C"]
                 [tokens_text tsa; tokens_text tsb; tokens_text tsc]))
      with (re_sub unicode_alnum [67%N] (tokens_text tsc)
              (re_sub unicode_alnum [66%N] (tokens_text tsb)
                 (re_sub unicode_alnum [65%N] (tokens_text tsa)
                    (tokens_text ts)))).
    rewrite (re_sub_replace_token 65) by done.
    rewrite (re_sub_replace_token 66) by done.
    by rewrite (re_sub_replace_token 67) by done.
  - rewrite assign_passes by done.
    split_and!; intros H%elem_of_assign; naive_solver.
Qed.

Lemma substitute_tokens_2 ts tsa tsb :
  tokenized ts → tokenized tsa → tokenized tsb →
  schema_free tsa → schema_free tsb →
  substitute unicode_alnum (tokens_text ts)
    (dict_of_zip [lit "A"; lit "B"] [tokens_text tsa; tokens_text tsb])
  = tokens_text (ts ≫= assign tsa tsb [Ident (lit "C")])
  ∧ tokenized (ts ≫= assign tsa tsb [Ident (lit "C")])
  ∧ (Ident (lit "A") ∉ ts ≫= assign tsa tsb [Ident (lit "C")])
  ∧ (Ident (lit "B") ∉ ts ≫= assign tsa tsb [Ident (lit "C")]).
Proof.
  intros Ht Ha Hb (HaA & HaB & HaC) (HbA & HbB & HbC).
  rewrite <- (assign_passes_2 tsa tsb ts) by done.
  pose proof (tokenized_replace (lit "A") tsa ts Ht Ha) as H1.
  pose proof (tokenized_replace (lit "B") tsb _ H1 Hb) as H2.
  split_and!; [|done|..].
  - change (substitute unicode_alnum (tokens_text ts)
              (dict_of_zip [lit "A"; lit "B"]
                 [tokens_text tsa; tokens_text tsb]))
      with (re_sub unicode_alnum [66%N] (tokens_text tsb)
              (re_sub unicode_alnum [65%N] (tokens_text tsa)
                 (tokens_text ts))).
    rewrite (re_sub_replace_token 65) by done.
    by rewrite (re_sub_replace_token 66) by done.
  - rewrite assign_passes_2 by done. intros H%elem_of_assign.
    set_solver.
  - rewrite assign_passes_2 by done. intros H%elem_of_assign.
    set_solver.
Qed.

(** On a text read as tokens, to have no schema variable as a token (as
    the regular expression finds them) is to have none as a token. *)
Lemma no_schema_variable_tokens ts :
  tokenized ts →
  no_schema_variable unicode_alnum (tokens_text ts) ↔ schema_free ts.
Proof.
  intros Ht. unfold no_schema_variable, schema_free.
  change (lit "A") with [65%N]. change (lit "B") with [66%N].
  change (lit "C") with [67%N].
  rewrite !has_token_tokens by done. rewrite !bool_decide_eq_false. done.
Qed.

End Tokens.

(** C7: for formulas [wa], [wb], [wc] without backslash in which no schema
    variable occurs as a token, [substitute] on each of the three templates
    returns the text of the template with every occurrence of each variable
    replaced by the formula assigned to it, and no schema variable is left
    as a token of the result.  Matching is by whole tokens.  On any text
    read as identifiers (maximal runs of letters, digits and underscores)
    and other characters, [substitute] replaces exactly the identifiers
    that are a variable by the text assigned to it and leaves every other
    identifier as it is, whatever letters, digits or underscores stand
    before or after a variable inside it: an [A] in [A1], [XA], [_A] or
    [AB] stays; so does each single pass of the regular expression, for
    any one-character variable. *)
Theorem substitute_correct (unicode_alnum : char → bool) (wa wb wc : str) :
  no_schema_variable unicode_alnum wa →
  no_schema_variable unicode_alnum wb →
  no_schema_variable unicode_alnum wc →
  92%N ∉ wa → 92%N ∉ wb → 92%N ∉ wc →
  (substitute unicode_alnum (lit "(A → (B → A))")
     (dict_of_zip [lit "A"; lit "B"] [wa; wb])
   = lit "(" ++ wa ++ lit " → (" ++ wb ++ lit " → " ++ wa ++ lit "))"
   ∧ substitute unicode_alnum (lit "((A → (B → C)) → ((A → B) → (A → C)))")
       (dict_of_zip [lit "A"; lit "B"; lit "C"] [wa; wb; wc])
     = lit "((" ++ wa ++ lit " → (" ++ wb ++ lit " → " ++ wc ++ lit ")) → (("
       ++ wa ++ lit " → " ++ wb ++ lit ") → (" ++ wa ++ lit " → " ++ wc
       ++ lit ")))"
   ∧ substitute unicode_alnum (lit "((¬B → ¬A) → (A → B))")
       (dict_of_zip [lit "A"; lit "B"] [wa; wb])
     = lit "((¬" ++ wb ++ lit " → ¬" ++ wa ++ lit ") → (" ++ wa ++ lit " → "
       ++ wb ++ lit "))")
  ∧ (no_schema_variable unicode_alnum
       (substitute unicode_alnum (lit "(A → (B → A))")
          (dict_of_zip [lit "A"; lit "B"] [wa; wb]))
     ∧ no_schema_variable unicode_alnum
         (substitute unicode_alnum
            (lit "((A → (B → C)) → ((A → B) → (A → C)))")
            (dict_of_zip [lit "A"; lit "B"; lit "C"] [wa; wb; wc]))
     ∧ no_schema_variable unicode_alnum
         (substitute unicode_alnum (lit "((¬B → ¬A) → (A → B))")
            (dict_of_zip [lit "A"; lit "B"] [wa; wb])))
  ∧ (∀ var wff s : str,
        has_token unicode_alnum var s = false →
        re_sub unicode_alnum var wff s = s)
  ∧ substitute unicode_alnum (lit "(AX → (B_1 → A))")
      (dict_of_zip [lit "A"; lit "B"] [wa; wb])
    = lit "(AX → (B_1 → " ++ wa ++ lit "))"
  ∧ (∀ ts, tokenized ts →
       no_schema_variable unicode_alnum (tokens_text ts) ↔ schema_free ts)
  ∧ (∀ ts tsa tsb tsc,
       tokenized ts → tokenized tsa → tokenized tsb → tokenized tsc →
       schema_free tsa → schema_free tsb → schema_free tsc →
       substitute unicode_alnum (tokens_text ts)
         (dict_of_zip [lit "A"; lit "B"; lit "C"]
            [tokens_text tsa; tokens_text tsb; tokens_text tsc])
       = tokens_text (ts ≫= assign tsa tsb tsc)
       ∧ tokenized (ts ≫= assign tsa tsb tsc)
       ∧ schema_free (ts ≫= assign tsa tsb tsc))
  ∧ (∀ ts tsa tsb,
       tokenized ts → tokenized tsa → tokenized tsb →
       schema_free tsa → schema_free tsb →
       substitute unicode_alnum (tokens_text ts)
         (dict_of_zip [lit "A"; lit "B"] [tokens_text tsa; tokens_text tsb])
       = tokens_text (ts ≫= assign tsa tsb [Ident (lit "C")])
       ∧ tokenized (ts ≫= assign tsa tsb [Ident (lit "C")])
       ∧ (Ident (lit "A") ∉ ts ≫= assign tsa tsb [Ident (lit "C")])
       ∧ (Ident (lit "B") ∉ ts ≫= assign tsa tsb [Ident (lit "C")]))
  ∧ (∀ (v : char) (wff : str) ts,
       ident_char v = true → 92%N ∉ wff → tokenized ts →
       re_sub unicode_alnum [v] wff (tokens_text ts)
       = ts ≫= (λ t, if decide (t = Ident [v]) then wff else token_text t)).
Proof.
  intros Ha Hb Hc _ _ _.
  rewrite substitute_A1, substitute_A2, substitute_A3 by done.
  pose proof (no_schema_variable_tok1 _ _ Ha) as (Ha1 & Ha2 & Ha3).
  pose proof (no_schema_variable_tok1 _ _ Hb) as (Hb1 & Hb2 & Hb3).
  pose proof (no_schema_variable_tok1 _ _ Hc) as (Hc1 & Hc2 & Hc3).
  split_and!; try done.
  - no_variable_left.
  - no_variable_left.
  - no_variable_left.
  - intros var wff s H. by apply re_sub_from_no_token.
  - change (substitute unicode_alnum (lit "(AX → (B_1 → A))")
              (dict_of_zip [lit "A"; lit "B"] [wa; wb]))
      with (re_sub unicode_alnum [66%N] wb
              (re_sub unicode_alnum [65%N] wa (lit "(AX → (B_1 → A))"))).
    concrete_template "(AX → (B_1 → A))"%string.
    rewrite (re_sub_1 _ 65) by done. sub1_steps. cbn [sub1].
    rewrite (re_sub_1 _ 66) by done. sub1_steps. reflexivity.
  - intros ts Ht. by apply no_schema_variable_tokens.
  - intros ts tsa tsb tsc. apply substitute_tokens_3.
  - intros ts tsa tsb. apply substitute_tokens_2.
  - intros v wff ts Hv _ Ht. by apply re_sub_tokens.
Qed.

Lemma substitute_correct_witness :
  substitute (λ _, false) (lit "(A → (B → A))")
    (dict_of_zip [lit "A"; lit "B"] [lit "(¬a)"; lit "(a → b)"])
  = lit "((¬a) → ((a → b) → (¬a)))"
  ∧ no_schema_variable (λ _, false)
      (substitute (λ _, false) (lit "((¬B → ¬A) → (A → B))")
         (dict_of_zip [lit "A"; lit "B"] [lit "(¬a)"; lit "(a → b)"]))
  ∧ substitute (λ _, false) (lit "(A1 → (XA → (_A → (AB → (B → A)))))")
      (dict_of_zip [lit "A"; lit "B"] [lit "(¬a)"; lit "(a → b)"])
    = lit "(A1 → (XA → (_A → (AB → ((a → b) → (¬a))))))".
Proof.
  assert (no_schema_variable (λ _, false) (lit "(¬a)")) as Ha
    by (vm_compute; auto).
  assert (no_schema_variable (λ _, false) (lit "(a → b)")) as Hb
    by (vm_compute; auto).
  assert (no_schema_variable (λ _, false) (lit "b")) as Hc
    by (vm_compute; auto).
  assert (92%N ∉ lit "(¬a)") as Ba
    by (apply (bool_decide_unpack _); vm_compute; exact I).
  assert (92%N ∉ lit "(a → b)") as Bb
    by (apply (bool_decide_unpack _); vm_compute; exact I).
  assert (92%N ∉ lit "b") as Bc
    by (apply (bool_decide_unpack _); vm_compute; exact I).
  pose proof (substitute_correct (λ _, false) (lit "(¬a)") (lit "(a → b)")
                (lit "b") Ha Hb Hc Ba Bb Bc)
    as (H1 & H2 & _ & _ & _ & _ & H2v & _).
  split_and!; [apply H1|apply H2|].
  set (sp := [Delim 32%N; Delim ARROW; Delim 32%N; Delim 40%N]).
  set (ts := [Delim 40%N; Ident (lit "A1")] ++ sp ++ [Ident (lit "XA")] ++ sp
             ++ [Ident (lit "_A")] ++ sp ++ [Ident (lit "AB")] ++ sp
             ++ [Ident (lit "B"); Delim 32%N; Delim ARROW; Delim 32%N;
                 Ident (lit "A")]
             ++ replicate 5 (Delim 41%N)).
  set (tsa := [Delim 40%N; Delim NOT_SIGN; Ident (lit "a"); Delim 41%N]).
  set (tsb := [Delim 40%N; Ident (lit "a"); Delim 32%N; Delim ARROW;
               Delim 32%N; Ident (lit "b"); Delim 41%N]).
  refine (proj1 (H2v ts tsa tsb _ _ _ _ _)).
  - vm_compute. repeat (constructor; try done).
  - vm_compute. repeat (constructor; try done).
  - vm_compute. repeat (constructor; try done).
  - split_and!; apply (bool_decide_unpack _); vm_compute; exact I.
  - split_and!; apply (bool_decide_unpack _); vm_compute; exact I.
Defined.

(** ** Consequents are never empty over a basis of formulas *)


Lemma visible_app (s t : str) : visible (s ++ t) = visible s ++ visible t.
Proof. apply filter_app. Qed.

Lemma ends_well_app_r (s t : str) :
  visible t ≠ [] → ends_well t → ends_well (s ++ t).
Proof.
  unfold ends_well. rewrite visible_app, last_app.
  intros Hne Ht. destruct (last (visible t)) eqn:E; [done|].
  by apply last_None in E.
Qed.

Lemma ends_well_app_l (s t : str) :
  visible t = [] → ends_well s → ends_well (s ++ t).
Proof.
  unfold ends_well. rewrite visible_app. intros ->. by rewrite app_nil_r.
Qed.

Lemma ends_well_suffix (s t : str) : ends_well (s ++ t) → ends_well t.
Proof.
  unfold ends_well. rewrite visible_app, last_app.
  destruct (last (visible t)); [done|]. done.
Qed.


Section EndsWell.
Variable unicode_alnum : char → bool.

Lemma sub1_visible_nil v wff pw (s : str) :
  visible wff ≠ [] → visible (sub1 unicode_alnum v wff pw s) = [] →
  visible s = [].
Proof.
  intros Hw. revert pw. induction s as [|c s IH]; intros pw; [done|].
  cbn [sub1]. destruct (_ && _).
  - rewrite visible_app. intros [? _]%app_eq_nil. done.
  - unfold visible in *. rewrite !filter_cons.
    destruct (decide (c ≠ 41%N)); [done|]. apply IH.
Qed.

Lemma sub1_ends_well v wff pw (s : str) :
  ends_in_symbol wff → ends_well s →
  ends_well (sub1 unicode_alnum v wff pw s).
Proof.
  intros [Hw1 Hw2]. revert pw. induction s as [|c s IH]; intros pw Hs; [done|].
  assert (ends_well s) as Hs' by (by apply (ends_well_suffix [c])).
  cbn [sub1]. destruct (_ && _).
  - destruct (decide (visible (sub1 unicode_alnum v wff true s) = [])) as [E|E].
    + by apply ends_well_app_l.
    + apply ends_well_app_r; [done|by apply IH].
  - destruct (decide (visible (sub1 unicode_alnum v wff (is_word unicode_alnum c) s) = []))
      as [E|E].
    + apply (ends_well_app_l [c]); [done|].
      apply sub1_visible_nil in E; [|done].
      unfold ends_well in *. change (c :: s) with ([c] ++ s) in Hs.
      by rewrite visible_app, E, app_nil_r in Hs.
    + apply (ends_well_app_r [c]); [done|by apply IH].
Qed.

Lemma sub1_ends_in_symbol v wff pw (s : str) :
  ends_in_symbol wff → ends_in_symbol s →
  ends_in_symbol (sub1 unicode_alnum v wff pw s).
Proof.
  intros Hw [Hs1 Hs2]. split; [|by apply sub1_ends_well].
  intros E. apply sub1_visible_nil in E; [done|apply Hw].
Qed.

End EndsWell.


Lemma product_spec {A} (pool : list A) n combo :
  combo ∈ product pool n → length combo = n ∧ Forall (λ x, x ∈ pool) combo.
Proof.
  revert combo. induction n as [|n IH]; intros combo; simpl.
  - intros ->%list_elem_of_singleton. done.
  - intros (x & (combo' & -> & Hc)%list_elem_of_fmap & Hx)%list_elem_of_bind.
    destruct (IH _ Hc) as [<- Hall]. split; [done|]. by constructor.
Qed.

Section EndsWellSearch.
Variable unicode_alnum : char → bool.
Variable basis : list str.






End EndsWellSearch.

(** ** Every Modus Ponens consequence is recorded *)

Lemma foldl_ensures {A B} (I Q : A → Prop) (f : A → B → A) (l : list B) x a :
  x ∈ l → I a →
  (∀ a y, y ∈ l → I a → I (f a y)) →
  (∀ a, I a → Q (f a x)) →
  (∀ a y, y ∈ l → I a → Q a → Q (f a y)) →
  Q (foldl f a l).
Proof.
  intros Hx Ha HI Hx' HQ. revert a Ha.
  induction l as [|y l IH]; intros a Ha; [by apply elem_of_nil in Hx|].
  simpl. apply elem_of_cons in Hx as [<-|Hx].
  - assert (I (foldl f (f a x) l) ∧ Q (foldl f (f a x) l)) as [_ ?]; [|done].
    apply (foldl_invariant (λ a, I a ∧ Q a)).
    + split; [apply HI; [left|done]|by apply Hx'].
    + intros a' y Hy [? ?]. split; [apply HI|apply HQ]; try done; by right.
  - apply IH; try done.
    + intros a' y' Hy'. apply HI. by right.
    + intros a' y' Hy'. apply HQ. by right.
    + apply HI; [left|done].
Qed.


Lemma extends_refl st : extends st st.
Proof. by intros i. Qed.

Lemma extends_trans st1 st2 st3 :
  extends st1 st2 → extends st2 st3 → extends st1 st3.
Proof. intros H1 H2 i. by trans (layer st2 i). Qed.

Lemma extends_record k steps justs st : extends st (record_proof k steps justs st).
Proof. intros i. apply record_proof_layer_prefix. Qed.

Lemma try_mp_extends k steps justs i j st : extends st (try_mp k steps justs i j st).
Proof.
  unfold try_mp. case_bool_decide; [apply extends_refl|].
  destruct (apply_mp _ _) as [[|c q]|]; try apply extends_refl.
  apply extends_record.
Qed.

Lemma foldl_extends {B} (f : state → B → state) (l : list B) st :
  (∀ st y, extends st (f st y)) → extends st (foldl f st l).
Proof.
  intros Hf. apply (foldl_invariant (extends st)); [apply extends_refl|].
  intros st' y _ H. eapply extends_trans; [exact H|apply Hf].
Qed.

Lemma extend_proof_extends k pr st : extends st (extend_proof k pr st).
Proof.
  unfold extend_proof. destruct pr as [steps justs].
  apply (extends_trans _ (extend_with_axioms k steps justs st)).
  - unfold extend_with_axioms. generalize (layer st 1). intros l.
    apply foldl_extends. intros. apply extends_record.
  - unfold extend_with_mp. apply foldl_extends. intros st1 i.
    apply foldl_extends. intros st2 j. apply try_mp_extends.
Qed.

Lemma record_proof_has k steps justs st :
  built k st → ∃ justs', (steps, justs') ∈ layer (record_proof k steps justs st) k.
Proof.
  intros Hb. destruct (decide (steps ∈ seen st k)) as [Hin|Hn].
  - rewrite record_proof_seen by done.
    apply (proj2 (built_seen _ _ Hb)) in Hin.
    apply list_elem_of_fmap in Hin as ([s j] & -> & Hin). by exists j.
  - exists justs. rewrite record_proof_layer, decide_True by done.
    apply elem_of_app. right. left.
Qed.

Section Completeness.
Variable unicode_alnum : char → bool.
Variable basis : list str.

Local Abbreviation reachable := (reachable unicode_alnum basis).


Lemma try_mp_consequence k (pr : proof) i j q st :
  has_consequence pr i j q →
  try_mp k pr.1 pr.2 i j st
  = record_proof k (pr.1 ++ [q]) (pr.2 ++ [mp_just i j]) st.
Proof.
  intros (Hij & Hq & p & pq & Hp & Hpq & Hmp). unfold try_mp.
  rewrite bool_decide_eq_false_2 by done. rewrite Hp, Hpq. simpl. rewrite Hmp.
  by destruct q.
Qed.

Lemma extend_proof_complete k (pr : proof) i j q st0 st :
  2 ≤ k → pr ∈ layer st0 (k - 1) →
  has_consequence pr i j q →
  reachable k st ∧ same_below k st0 st →
  ∃ justs', (pr.1 ++ [q], justs') ∈ layer (extend_proof k pr st) k.
Proof.
  intros Hk Hpr Hc Hst.
  assert (length pr.1 = k - 1) as Hlen.
  { destruct Hst as [H1 H2]. eapply (reachable_lengths _ _ _ _ H1).
    rewrite H2; [done|lia]. }
  destruct Hc as (Hij & Hq & p & pq & Hp & Hpq & Hmp).
  pose proof (lookup_lt_Some _ _ _ Hp) as Hi.
  pose proof (lookup_lt_Some _ _ _ Hpq) as Hj.
  unfold extend_proof. destruct pr as [steps justs]. simpl in *.
  pose proof (extend_with_axioms_reachable unicode_alnum basis k (steps, justs)
                st0 st Hk Hpr Hst) as Hst1. simpl in Hst1.
  unfold extend_with_mp.
  set (Q := λ st : state, ∃ justs', (steps ++ [q], justs') ∈ layer st k).
  set (I := λ st : state, reachable k st ∧ same_below k st0 st).
  assert (∀ st i', i' ∈ range 0 (k - 1) → I st →
            I (foldl (λ st j, try_mp k steps justs i' j st) st (range 0 (k - 1))))
    as Hinner.
  { intros st1 i' Hi'%elem_of_range H1. apply (foldl_invariant I); [done|].
    intros st2 j' Hj'%elem_of_range H2.
    apply (try_mp_reachable unicode_alnum basis k (steps, justs)); [done|done|lia|lia|done]. }
  assert (∀ st st', extends st st' → Q st → Q st') as Hmono.
  { intros st1 st2 He [j' Hj']. exists j'. eapply elem_of_prefix; [exact Hj'|apply He]. }
  apply (foldl_ensures I Q _ _ i); [apply elem_of_range; lia|done|done| |].
  - intros st1 H1.
    apply (foldl_ensures I Q _ _ j); [apply elem_of_range; lia|done| | |].
    + intros st2 j' Hj'%elem_of_range H2.
      apply (try_mp_reachable unicode_alnum basis k (steps, justs)); [done|done|lia|lia|done].
    + intros st2 [H2 _].
      rewrite (try_mp_consequence k (steps, justs) i j q).
      * apply record_proof_has. by eapply reachable_built.
      * split_and!; [done..|]. by exists p, pq.
    + intros st2 j' _ _. apply Hmono, try_mp_extends.
  - intros st1 i' _ _. apply Hmono. apply foldl_extends. intros. apply try_mp_extends.
Qed.

Lemma grow_complete k (pr : proof) i j q st :
  2 ≤ k → reachable (k - 1) st → pr ∈ layer st (k - 1) →
  has_consequence pr i j q →
  ∃ justs', (pr.1 ++ [q], justs') ∈ layer (grow k st).2 k.
Proof.
  intros Hk H Hpr Hc.
  assert (reachable k st) as H'.
  { apply (reachable_le _ _ (k - 1)); [done|lia]. }
  unfold grow. destruct (layer st (k - 1)) as [|pr0 prs] eqn:Hprev.
  { by apply elem_of_nil in Hpr. }
  set (st1 := write _ st). set (st2 := foldl _ _ _).
  set (Q := λ st : state, ∃ justs', (pr.1 ++ [q], justs') ∈ layer st k).
  assert (Q st2) as HQ.
  { apply (foldl_ensures (λ st, reachable k st ∧ same_below k st1 st) Q _ _ pr).
    - done.
    - split; [by apply reach_write|apply same_below_refl].
    - intros st' pr' Hpr' Hst'. apply extend_proof_reachable; [done| |done].
      unfold st1. rewrite layer_write, Hprev. done.
    - intros st' Hst'. apply (extend_proof_complete k pr i j q st1); try done.
      unfold st1. rewrite layer_write, Hprev. done.
    - intros st' pr' _ _ [j' Hj']. exists j'.
      eapply elem_of_prefix; [exact Hj'|apply extend_proof_extends]. }
  by destruct (layer (write _ st2) k).
Qed.

Lemma for_each_grow_complete a n st k (pr : proof) i j q :
  2 ≤ a → reachable (a - 1) st →
  a ≤ k < a + n →
  pr ∈ layer (for_each (seq a n) grow st) (k - 1) →
  has_consequence pr i j q →
  ∃ justs', (pr.1 ++ [q], justs') ∈ layer (for_each (seq a n) grow st) k.
Proof.
  revert a st. induction n as [|n IH]; intros a st Ha H Hk Hpr Hc; [lia|].
  simpl in *.
  pose proof (grow_reachable unicode_alnum basis a st Ha H) as Hr.
  pose proof (grow_break a st) as Hb.
  pose proof (grow_same_below a st) as Hs.
  pose proof (grow_complete a pr i j q st Ha H) as Hg.
  destruct (grow a st) as [[] st'] eqn:Hgrow; cbn [fst snd] in *.
  - destruct (decide (k = a)) as [->|Hne].
    + rewrite for_each_grow_below in * by lia.
      apply Hg; [|done]. rewrite <- Hs; [done|lia].
    + apply IH; [lia| |lia|done..]. by replace (S a - 1) with a by lia.
  - destruct (decide (k = a)) as [->|Hne].
    + apply Hg; [|done]. rewrite <- Hs; [done|lia].
    + exfalso. destruct (decide (k - 1 = a)) as [E|E].
      * rewrite E in Hpr. destruct (proj1 Hb eq_refl) as [Hp|Hp].
        -- pose proof (reachable_built _ _ _ _ H) as Hbt.
           pose proof (proj1 (built_above _ _ Hbt a ltac:(lia))) as Hempty.
           assert (layer st' a = []) as Hst'.
           { revert Hgrow. unfold grow. rewrite Hp. by intros [= <-]. }
           rewrite Hst' in Hpr. by apply elem_of_nil in Hpr.
        -- rewrite Hp in Hpr. by apply elem_of_nil in Hpr.
      * pose proof (reachable_built _ _ _ _ Hr) as Hbt.
        rewrite (proj1 (built_above _ _ Hbt (k - 1) ltac:(lia))) in Hpr.
        by apply elem_of_nil in Hpr.
Qed.

End Completeness.

(** The basis of the program consists of formulas. *)
Lemma WFF_BASIS_ground (unicode_alnum : char → bool) :
  Forall (ground_formula unicode_alnum) WFF_BASIS.
Proof.
  assert (ground_formula unicode_alnum (lit "a")) as Ha.
  { apply ground_atom; [done|]. by apply Forall_singleton. }
  assert (ground_formula unicode_alnum (lit "b")) as Hb.
  { apply ground_atom; [done|]. by apply Forall_singleton. }
  pose proof (ground_not _ _ Ha) as Hna. pose proof (ground_not _ _ Hb) as Hnb.
  unfold WFF_BASIS. repeat apply Forall_cons_2; try done.
  - exact (ground_implies _ _ _ Ha Ha).
  - exact (ground_implies _ _ _ Ha Hb).
  - exact (ground_not _ _ Hna).
  - exact (ground_implies _ _ _ Hna Hnb).
  - exact (ground_implies _ _ _ Hnb Hna).
Qed.

(** An empty consequent, which no basis of formulas produces, is falsy and
    is passed over by the test [if q:]. *)
Example try_mp_empty_consequent st :
  apply_mp (lit "x") (lit "(x → )") = Some []
  ∧ try_mp 3 [lit "x"; lit "(x → )"] [lit "j1"; lit "j2"] 0 1 st = st.
Proof. split; [by vm_compute|]. unfold try_mp. by vm_compute. Qed.



(** * Further properties of the code *)

(** ** Modus Ponens as an inverse *)

Lemma apply_mp_Some (p s q : str) :
  apply_mp p s = Some q → s = implication p q.
Proof.
  intros H. destruct (proj1 (apply_mp_shape p s)) as [q' ->].
  - unfold apply_mp in H. by destruct (startswith _ _ && endswith _ _).
  - rewrite apply_mp_implication in H. congruence.
Qed.

(** X1: [apply_mp] inverts the construction of an implication: it returns
    [q] exactly on the text [(p → q)], for any texts [p] and [q]. *)
Theorem apply_mp_inverse (p s q : str) :
  apply_mp p s = Some q ↔ s = implication p q.
Proof.
  split; [apply apply_mp_Some|intros ->; apply apply_mp_implication].
Qed.

(** The consequent is shorter than the implication by the antecedent and
    the five characters around them. *)
Lemma apply_mp_length (p s q : str) :
  apply_mp p s = Some q → length s = length p + length q + 5.
Proof.
  intros ->%apply_mp_Some. unfold implication. rewrite !length_app.
  simpl. lia.
Qed.

(** ** What the two extensions record *)

Lemma foldl_same {A B} (g : A → Prop) (f : A → B → A) (l : list B) (a : A) :
  g a → (∀ a y, g a → g (f a y)) → g (foldl f a l).
Proof. intros Ha Hf. apply (foldl_invariant g); [done|]. intros; by apply Hf. Qed.

Lemma try_mp_written k steps justs i j st :
  written (try_mp k steps justs i j st) = written st.
Proof.
  unfold try_mp. case_bool_decide; [done|].
  destruct (apply_mp _ _) as [[|c q]|]; try done. apply record_proof_written.
Qed.

Lemma extend_proof_written k pr st : written (extend_proof k pr st) = written st.
Proof.
  unfold extend_proof. destruct pr as [steps justs].
  unfold extend_with_mp, extend_with_axioms.
  apply (foldl_same (λ st', written st' = written st)).
  { generalize (layer st 1). intros l.
    apply (foldl_same (λ st', written st' = written st)); [done|].
    intros st' ap H. by rewrite record_proof_written. }
  intros st1 i H1. apply (foldl_same (λ st', written st' = written st)); [done|].
  intros st2 j H2. by rewrite try_mp_written.
Qed.

Lemma generate_length_1_written ua basis st :
  written (generate_length_1 ua basis st) = written st.
Proof.
  unfold generate_length_1.
  apply (foldl_same (λ st', written st' = written st)); [done|].
  intros st1 [name [template vars]] H1. simpl.
  apply (foldl_same (λ st', written st' = written st)); [done|].
  intros st2 combo H2. by rewrite record_proof_written.
Qed.

Section Extensions.
Variable unicode_alnum : char → bool.
Variable basis : list str.

Local Abbreviation reachable := (reachable unicode_alnum basis).
Local Abbreviation final := (search unicode_alnum basis).

(** What one round establishes for a proof of the previous layer holds at
    the end of the round. *)
Lemma grow_records k (pr : proof) (s : list str) st :
  2 ≤ k → reachable (k - 1) st → pr ∈ layer st (k - 1) →
  (∀ st0 st',
      layer st0 (k - 1) = layer st (k - 1) → layer st0 1 = layer st 1 →
      reachable k st' ∧ same_below k st0 st' →
      ∃ justs', (s, justs') ∈ layer (extend_proof k pr st') k) →
  ∃ justs', (s, justs') ∈ layer (grow k st).2 k.
Proof.
  intros Hk H Hpr Hext.
  assert (reachable k st) as H'.
  { apply (reachable_le _ _ (k - 1)); [done|lia]. }
  unfold grow. destruct (layer st (k - 1)) as [|pr0 prs] eqn:Hprev.
  { by apply elem_of_nil in Hpr. }
  set (st1 := write _ st). set (st2 := foldl _ _ _).
  set (Q := λ st : state, ∃ justs', (s, justs') ∈ layer st k).
  assert (Q st2) as HQ.
  { apply (foldl_ensures (λ st, reachable k st ∧ same_below k st1 st) Q _ _ pr).
    - done.
    - split; [by apply reach_write|apply same_below_refl].
    - intros st' pr' Hpr' Hst'. apply extend_proof_reachable; [done| |done].
      unfold st1. rewrite layer_write, Hprev. done.
    - intros st' Hst'. apply (Hext st1); [|done..].
      unfold st1. by rewrite layer_write.
    - intros st' pr' _ _ [j' Hj']. exists j'.
      eapply elem_of_prefix; [exact Hj'|apply extend_proof_extends]. }
  by destruct (layer (write _ st2) k).
Qed.

Lemma for_each_grow_records a n st k (pr : proof) (s : list str) :
  2 ≤ a → reachable (a - 1) st →
  a ≤ k < a + n →
  pr ∈ layer (for_each (seq a n) grow st) (k - 1) →
  (∀ st0 st',
      layer st0 (k - 1) = layer (for_each (seq a n) grow st) (k - 1) →
      layer st0 1 = layer (for_each (seq a n) grow st) 1 →
      reachable k st' ∧ same_below k st0 st' →
      ∃ justs', (s, justs') ∈ layer (extend_proof k pr st') k) →
  ∃ justs', (s, justs') ∈ layer (for_each (seq a n) grow st) k.
Proof.
  revert a st. induction n as [|n IH]; intros a st Ha H Hk Hpr Hext; [lia|].
  simpl in *.
  pose proof (grow_reachable unicode_alnum basis a st Ha H) as Hr.
  pose proof (grow_break a st) as Hb.
  pose proof (grow_same_below a st) as Hs.
  pose proof (grow_records a pr s st Ha H) as Hg.
  destruct (grow a st) as [[] st'] eqn:Hgrow; cbn [fst snd] in *.
  - destruct (decide (k = a)) as [->|Hne].
    + rewrite (for_each_grow_below (S a) n st' (a - 1)) in * by lia.
      rewrite (for_each_grow_below (S a) n st' 1) in * by lia.
      rewrite (for_each_grow_below (S a) n st' a) by lia.
      apply Hg; [rewrite <- Hs; [done|lia]|].
      intros st0 st1 E1 E2. apply Hext; rewrite Hs by lia; done.
    + apply IH; [lia| |lia|done..]. by replace (S a - 1) with a by lia.
  - destruct (decide (k = a)) as [->|Hne].
    + apply Hg; [rewrite <- Hs; [done|lia]|].
      intros st0 st1 E1 E2. apply Hext; rewrite Hs by lia; done.
    + exfalso. destruct (decide (k - 1 = a)) as [E|E].
      * rewrite E in Hpr. destruct (proj1 Hb eq_refl) as [Hp|Hp].
        -- pose proof (reachable_built _ _ _ _ H) as Hbt.
           pose proof (proj1 (built_above _ _ Hbt a ltac:(lia))) as Hempty.
           assert (layer st' a = []) as Hst'.
           { revert Hgrow. unfold grow. rewrite Hp. by intros [= <-]. }
           rewrite Hst' in Hpr. by apply elem_of_nil in Hpr.
        -- rewrite Hp in Hpr. by apply elem_of_nil in Hpr.
      * pose proof (reachable_built _ _ _ _ Hr) as Hbt.
        rewrite (proj1 (built_above _ _ Hbt (k - 1) ltac:(lia))) in Hpr.
        by apply elem_of_nil in Hpr.
Qed.

Lemma search_records max_length k (pr : proof) (s : list str) :
  2 ≤ k ≤ max_length →
  pr ∈ layer (final max_length) (k - 1) →
  (∀ st0 st',
      layer st0 (k - 1) = layer (final max_length) (k - 1) →
      layer st0 1 = layer (final max_length) 1 →
      reachable k st' ∧ same_below k st0 st' →
      ∃ justs', (s, justs') ∈ layer (extend_proof k pr st') k) →
  ∃ justs', (s, justs') ∈ layer (final max_length) k.
Proof.
  intros Hk Hpr Hext. unfold search, range in *. rewrite !layer_write in *.
  apply (for_each_grow_records 2 (max_length + 1 - 2) _ k pr s);
    [lia|apply before_loop_reachable|lia|done|done].
Qed.

(** Option A within one proof of the previous layer. *)
Lemma extend_proof_axiom k (pr ap : proof) st0 st :
  2 ≤ k → ap ∈ layer st0 1 →
  reachable k st ∧ same_below k st0 st →
  ∃ justs',
    (pr.1 ++ [default [] (ap.1 !! 0)], justs') ∈ layer (extend_proof k pr st) k.
Proof.
  intros Hk Hap [H1 H2]. unfold extend_proof. destruct pr as [steps justs].
  simpl.
  assert (∃ justs', (steps ++ [default [] (ap.1 !! 0)], justs')
                      ∈ layer (extend_with_axioms k steps justs st) k)
    as [j' Hj'].
  { unfold extend_with_axioms.
    assert (ap ∈ layer st 1) as Hin by (rewrite H2; [done|lia]).
    revert Hin. generalize (layer st 1). intros l Hin.
    apply (foldl_ensures (built k)
             (λ st, ∃ justs', (steps ++ [default [] (ap.1 !! 0)], justs')
                                ∈ layer st k) _ _ ap); try done.
    - by eapply reachable_built.
    - intros st' y _ Hb. by constructor.
    - intros st' Hb. by apply record_proof_has.
    - intros st' y _ _ [j' Hj']. exists j'.
      eapply elem_of_prefix; [exact Hj'|apply record_proof_layer_prefix]. }
  exists j'. eapply elem_of_prefix; [exact Hj'|].
  unfold extend_with_mp. apply foldl_extends. intros st1 i.
  apply foldl_extends. intros st2 j. apply try_mp_extends.
Qed.

Lemma instantiate_template_reachable entry st :
  entry ∈ AXIOM_TEMPLATES → reachable 1 st →
  reachable 1 (instantiate_template unicode_alnum basis entry st).
Proof.
  destruct entry as [name [template vars]]. intros He H. simpl.
  apply (foldl_invariant (reachable 1)); [done|].
  intros st' combo Hc H'. by apply (reach_axiom _ _ st' name template vars combo).
Qed.

Lemma instantiate_template_extends entry st :
  extends st (instantiate_template unicode_alnum basis entry st).
Proof.
  destruct entry as [name [template vars]]. simpl.
  apply foldl_extends. intros. apply extends_record.
Qed.

(** Every instance of a schema is recorded by Step 1. *)
Lemma generate_length_1_complete st name template vars combo :
  reachable 1 st →
  (name, (template, vars)) ∈ AXIOM_TEMPLATES →
  combo ∈ product basis (length vars) →
  ∃ justs',
    ([substitute unicode_alnum template (dict_of_zip vars combo)], justs')
    ∈ layer (generate_length_1 unicode_alnum basis st) 1.
Proof.
  intros H He Hc. unfold generate_length_1.
  set (Q := λ st : state,
         ∃ justs',
           ([substitute unicode_alnum template (dict_of_zip vars combo)], justs')
           ∈ layer st 1).
  assert (∀ st st', extends st st' → Q st → Q st') as Hmono.
  { intros st1 st2 Hex [j' Hj']. exists j'.
    eapply elem_of_prefix; [exact Hj'|apply Hex]. }
  apply (foldl_ensures (reachable 1) Q _ _ (name, (template, vars))); try done.
  - intros st' y Hy H'. by apply instantiate_template_reachable.
  - intros st' H'. simpl.
    apply (foldl_ensures (reachable 1) Q _ _ combo); try done.
    + intros st2 c Hc2 H2. by apply (reach_axiom _ _ st2 name template vars c).
    + intros st2 H2. apply record_proof_has. by eapply reachable_built.
    + intros st2 c _ _. apply Hmono, extends_record.
  - intros st' y _ _. apply Hmono, instantiate_template_extends.
Qed.

Lemma layer_search_below max_length i :
  i < 2 →
  layer (final max_length) i
  = layer (generate_length_1 unicode_alnum basis
             (write (GeneratingAxioms basis) initial)) i.
Proof.
  intros Hi. unfold search, range, before_loop. rewrite layer_write.
  rewrite for_each_grow_below by done. by rewrite !layer_write.
Qed.

Lemma axiom_instance_in_layer max_length name template vars combo :
  (name, (template, vars)) ∈ AXIOM_TEMPLATES →
  combo ∈ product basis (length vars) →
  ∃ justs',
    ([substitute unicode_alnum template (dict_of_zip vars combo)], justs')
    ∈ layer (final max_length) 1.
Proof.
  intros He Hc. rewrite layer_search_below by lia.
  apply (generate_length_1_complete _ name); [|done..].
  apply reach_write, reach_initial.
Qed.

(** X2: every instance of each of the three schemas over the basis is the
    single line of a proof of layer 1. *)
Theorem axiom_instances_recorded max_length name template vars combo :
  (name, (template, vars)) ∈ AXIOM_TEMPLATES →
  combo ∈ product basis (length vars) →
  ∃ justs',
    ([substitute unicode_alnum template (dict_of_zip vars combo)], justs')
    ∈ layer (final max_length) 1.
Proof. apply axiom_instance_in_layer. Qed.

Lemma axiom_extension_in_layer max_length k (pr ap : proof) :
  2 ≤ k ≤ max_length →
  pr ∈ layer (final max_length) (k - 1) →
  ap ∈ layer (final max_length) 1 →
  ∃ justs', (pr.1 ++ ap.1, justs') ∈ layer (final max_length) k.
Proof.
  intros Hk Hpr Hap.
  pose proof (search_reachable unicode_alnum basis max_length) as Hreach.
  destruct (reachable_lengths _ _ _ _ Hreach _ _ Hap) as [L _].
  assert (ap.1 = [default [] (ap.1 !! 0)]) as ->.
  { destruct ap as [[|s [|? ?]] ?]; simpl in *; try done. }
  apply (search_records max_length k pr); [done..|].
  intros st0 st' E1 E2 Hst. apply (extend_proof_axiom k pr ap st0); try done; [lia|].
  by rewrite E2.
Qed.

(** X3: Option A: every proof of layer [k - 1] extended by the line of any
    proof of layer 1 is in layer [k], for [k] from 2 to [max_length]. *)
Theorem axiom_extension_recorded max_length k (pr ap : proof) :
  2 ≤ k ≤ max_length →
  pr ∈ layer (final max_length) (k - 1) →
  ap ∈ layer (final max_length) 1 →
  ∃ justs', (pr.1 ++ ap.1, justs') ∈ layer (final max_length) k.
Proof. apply axiom_extension_in_layer. Qed.

End Extensions.

(** ** How fast the layers grow *)

Lemma NoDup_fmap_inj_on {A B} (f : A → B) (l : list A) x y :
  NoDup (f <$> l) → x ∈ l → y ∈ l → f x = f y → x = y.
Proof.
  induction l as [|z l IH]; [by intros _ ?%elem_of_nil|].
  rewrite fmap_cons, NoDup_cons.
  intros [Hz Hnd] [->|Hx]%elem_of_cons [->|Hy]%elem_of_cons E; try done.
  - exfalso. apply Hz. rewrite E. by apply list_elem_of_fmap_2.
  - exfalso. apply Hz. rewrite <- E. by apply list_elem_of_fmap_2.
  - by apply IH.
Qed.

Lemma length_bind_const {A B} (f : A → list B) (l : list A) n :
  (∀ x, x ∈ l → length (f x) = n) → length (l ≫= f) = length l * n.
Proof.
  induction l as [|x l IH]; intros H; [done|].
  cbn [mbind list_bind]. change (length ((f x) ++ (l ≫= f)) = length (x :: l) * n).
  rewrite length_app, H by left. rewrite IH by (intros; apply H; by right).
  simpl. lia.
Qed.

Section Growth.
Variable unicode_alnum : char → bool.
Variable basis : list str.

Local Abbreviation final := (search unicode_alnum basis).

(** The extensions of Option A, as step sequences. *)
Local Abbreviation axiom_extensions max_length k :=
  (pr ← layer (final max_length) (k - 1);
   ap ← layer (final max_length) 1;
   [pr.1 ++ ap.1]).

Lemma axiom_extensions_NoDup max_length k :
  NoDup (axiom_extensions max_length k).
Proof.
  pose proof (search_reachable unicode_alnum basis max_length) as Hreach.
  pose proof (reachable_built _ _ _ _ Hreach) as Hb.
  apply NoDup_bind.
  - intros pr1 pr2 s H1 H2
      (ap1 & ->%list_elem_of_singleton & Hap1)%list_elem_of_bind
      (ap2 & E%list_elem_of_singleton & Hap2)%list_elem_of_bind.
    destruct (reachable_lengths _ _ _ _ Hreach _ _ H1) as [L1 _].
    destruct (reachable_lengths _ _ _ _ Hreach _ _ H2) as [L2 _].
    apply app_inj_1 in E as [E _]; [|congruence].
    apply (NoDup_fmap_inj_on fst (layer (final max_length) (k - 1))); try done.
    apply (built_NoDup _ _ Hb).
  - intros pr Hpr. apply NoDup_bind.
    + intros ap1 ap2 s H1 H2 ->%list_elem_of_singleton E%list_elem_of_singleton.
      apply app_inv_head in E.
      apply (NoDup_fmap_inj_on fst (layer (final max_length) 1)); try done.
      apply (built_NoDup _ _ Hb).
    + intros. apply NoDup_singleton.
    + eapply NoDup_fmap_1, (built_NoDup _ _ Hb).
  - eapply NoDup_fmap_1, (built_NoDup _ _ Hb).
Qed.

Lemma axiom_extensions_length max_length k :
  length (axiom_extensions max_length k)
  = length (layer (final max_length) (k - 1)) * length (layer (final max_length) 1).
Proof.
  apply length_bind_const. intros pr _.
  rewrite (length_bind_const _ _ 1); [lia|done].
Qed.

Lemma layers_grow_aux max_length k :
  2 ≤ k ≤ max_length →
  length (layer (final max_length) (k - 1)) * length (layer (final max_length) 1)
  ≤ length (layer (final max_length) k).
Proof.
  intros Hk. rewrite <- axiom_extensions_length.
  rewrite <- (length_fmap fst (layer (final max_length) k)).
  apply submseteq_length, NoDup_submseteq; [apply axiom_extensions_NoDup|].
  intros s (pr & (ap & ->%list_elem_of_singleton & Hap)%list_elem_of_bind & Hpr)%list_elem_of_bind.
  destruct (axiom_extension_in_layer unicode_alnum basis max_length k pr ap)
    as [j' Hj']; try done.
  apply list_elem_of_fmap. by exists (pr.1 ++ ap.1, j').
Qed.

(** X4: layer [k] has at least as many proofs as layer [k - 1] times layer
    1: the search space grows at least geometrically with the length. *)
Theorem layers_grow max_length k :
  2 ≤ k ≤ max_length →
  length (layer (final max_length) (k - 1)) * length (layer (final max_length) 1)
  ≤ length (layer (final max_length) k).
Proof. apply layers_grow_aux. Qed.

End Growth.

(** ** The progress log of the search *)

Lemma product_replicate {A} (pool : list A) n x :
  x ∈ pool → replicate n x ∈ product pool n.
Proof.
  intros Hx. induction n as [|n IH]; simpl; [by left|].
  apply list_elem_of_bind. exists x. split; [|done].
  by apply list_elem_of_fmap_2.
Qed.

Lemma list_bind_ext_in {A B} (f g : A → list B) (l : list A) :
  (∀ x, x ∈ l → f x = g x) → l ≫= f = l ≫= g.
Proof.
  induction l as [|x l IH]; intros H; [done|].
  change (f x ++ (l ≫= f) = g x ++ (l ≫= g)).
  rewrite H by left. rewrite IH; [done|]. intros; apply H; by right.
Qed.

Lemma grow_written k st :
  1 ≤ k → written (grow k st).2 = written st ++ round_log (grow k st).2 k.
Proof.
  intros Hk1. pose proof (grow_same_below k st (k - 1) ltac:(lia)) as Hs.
  unfold round_log. rewrite Hs. clear Hs. unfold grow.
  destruct (layer st (k - 1)) as [|pr0 prs] eqn:Hprev; [done|].
  set (st1 := write _ st). set (st2 := foldl _ _ _).
  assert (written st2 = written st1) as Hw.
  { apply (foldl_same (λ st', written st' = written st1)); [done|].
    intros st' pr H. by rewrite extend_proof_written. }
  destruct (layer (write _ st2) k) as [|pr1 prs1] eqn:Hk; cbn [fst snd].
  - rewrite !layer_write in *. rewrite Hk. simpl. rewrite Hw. unfold st1. simpl.
    by rewrite <- !app_assoc.
  - unfold pop_seen at 1. cbn [written]. rewrite layer_pop_seen, !layer_write in *.
    rewrite Hk. simpl. rewrite Hw. unfold st1. simpl.
    by rewrite <- !app_assoc.
Qed.

Lemma for_each_grow_written a n st :
  1 ≤ a →
  written (for_each (seq a n) grow st)
  = written st
    ++ (k ← iterations (seq a n) grow st;
        round_log (for_each (seq a n) grow st) k).
Proof.
  revert a st. induction n as [|n IH]; intros a st Ha; simpl.
  { by rewrite app_nil_r. }
  pose proof (grow_written a st Ha) as Hw.
  destruct (grow a st) as [[] st'] eqn:Hg; cbn [fst snd] in *.
  - rewrite IH by lia. rewrite Hw, <- app_assoc. f_equal.
    change ((a :: iterations (seq (S a) n) grow st') ≫= ?f)
      with (f a ++ (iterations (seq (S a) n) grow st' ≫= f)).
    f_equal. unfold round_log.
    by rewrite !(for_each_grow_below (S a) n st') by lia.
  - rewrite Hw. f_equal. simpl. by rewrite app_nil_r.
Qed.

Section Log.
Variable unicode_alnum : char → bool.
Variable basis : list str.

Local Abbreviation final := (search unicode_alnum basis).
Local Abbreviation rounds max_length :=
  (iterations (range 2 (max_length + 1)) grow
     (before_loop unicode_alnum basis max_length)).

Lemma search_written max_length :
  written (final max_length)
  = [GeneratingAxioms basis;
     FoundLength1 (length (layer (final max_length) 1));
     SearchingUpTo max_length]
    ++ (k ← rounds max_length; round_log (final max_length) k)
    ++ [SearchComplete].
Proof.
  rewrite (layer_search_below _ _ _ 1) by lia.
  unfold search, range. set (st := for_each _ _ _).
  assert (∀ l : list nat,
            l ≫= (λ k, round_log (write SearchComplete st) k)
            = l ≫= round_log st) as -> by done.
  change (written (write SearchComplete st)) with (written st ++ [SearchComplete]).
  unfold st. rewrite for_each_grow_written by lia.
  unfold before_loop at 1. cbn [write written].
  rewrite generate_length_1_written. done.
Qed.

(** X5: the progress log of the search: the header, the count of layer 1,
    the bound, then what each round the loop enters writes (determined by
    the sizes of the layers it leaves), then the Search Complete line. *)
Theorem search_log max_length :
  written (final max_length)
  = [GeneratingAxioms basis;
     FoundLength1 (length (layer (final max_length) 1));
     SearchingUpTo max_length]
    ++ (k ← rounds max_length; round_log (final max_length) k)
    ++ [SearchComplete].
Proof. apply search_written. Qed.

Lemma layer_1_nonempty max_length :
  basis ≠ [] → layer (final max_length) 1 ≠ [].
Proof.
  intros Hb. destruct basis as [|x basis'] eqn:E; [done|]. rewrite <- E in *.
  rewrite layer_search_below by lia.
  destruct (generate_length_1_complete unicode_alnum basis
              (write (GeneratingAxioms basis) initial)
              (lit "A1") (lit "(A → (B → A))") [lit "A"; lit "B"]
              (replicate 2 x)) as [j' Hj'].
  - apply reach_write, reach_initial.
  - apply (bool_decide_unpack _). vm_compute. exact I.
  - apply product_replicate. rewrite E. left.
  - intros Hnil. rewrite Hnil in Hj'. by apply elem_of_nil in Hj'.
Qed.

Lemma layers_nonempty max_length k :
  basis ≠ [] → 1 ≤ k ≤ Nat.max 1 max_length → layer (final max_length) k ≠ [].
Proof.
  intros Hb [Hk1 Hk2]. induction k as [|k IH]; [lia|].
  destruct (decide (k = 0)) as [->|Hk0]; [by apply layer_1_nonempty|].
  pose proof (layers_grow_aux unicode_alnum basis max_length (S k) ltac:(lia)) as Hg.
  replace (S k - 1) with k in Hg by lia.
  specialize (IH ltac:(lia) ltac:(lia)).
  pose proof (layer_1_nonempty max_length Hb) as H1.
  destruct (layer (final max_length) k); [done|].
  destruct (layer (final max_length) 1); [done|].
  destruct (layer (final max_length) (S k)); [simpl in Hg; lia|done].
Qed.

Lemma rounds_full max_length :
  basis ≠ [] → rounds max_length = range 2 (max_length + 1).
Proof.
  intros Hb. unfold range.
  destruct (decide (max_length < 2)) as [Hlt|Hge].
  { replace (max_length + 1 - 2) with 0 by lia. done. }
  pose proof (iterations_grow 2 (max_length + 1 - 2)
                (before_loop unicode_alnum basis max_length) ltac:(lia))
    as [Hpre Hin].
  apply prefix_seq_full; [done|lia|].
  apply Hin; [lia|]. intros k' Hk'.
  pose proof (layers_nonempty max_length) as Hne.
  unfold search, range in Hne. setoid_rewrite layer_write in Hne.
  split; apply Hne; try done; lia.
Qed.

(** X6: over a non-empty basis the search never stops early: every layer
    from 1 to [max_length] is non-empty and the loop enters every round. *)
Theorem search_never_stops_early max_length :
  basis ≠ [] →
  rounds max_length = range 2 (max_length + 1)
  ∧ ∀ k, 1 ≤ k ≤ Nat.max 1 max_length → layer (final max_length) k ≠ [].
Proof.
  intros Hb. split; [by apply rounds_full|]. intros k. by apply layers_nonempty.
Qed.

(** X7: over a non-empty basis the log has exactly two lines per length
    from 2 to [max_length] and neither of the two stop lines. *)
Theorem search_log_nonempty_basis max_length :
  basis ≠ [] →
  written (final max_length)
  = [GeneratingAxioms basis;
     FoundLength1 (length (layer (final max_length) 1));
     SearchingUpTo max_length]
    ++ (k ← range 2 (max_length + 1);
        [Generating k (length (layer (final max_length) (k - 1)));
         FoundNew k (length (layer (final max_length) k))])
    ++ [SearchComplete].
Proof.
  intros Hb. rewrite search_written, rounds_full by done. do 2 f_equal.
  apply list_bind_ext_in. intros k [Hk1 Hk2]%elem_of_range. unfold round_log.
  pose proof (layers_nonempty max_length (k - 1) Hb ltac:(lia)) as H1.
  pose proof (layers_nonempty max_length k Hb ltac:(lia)) as H2.
  destruct (layer (final max_length) (k - 1)); [done|].
  destruct (layer (final max_length) k); [done|]. done.
Qed.

End Log.

(** ** The further properties on the one-atom basis *)

Lemma axiom_instances_recorded_witness :
  ∃ justs',
    ([substitute (λ _, false) (lit "((¬B → ¬A) → (A → B))")
        (dict_of_zip [lit "A"; lit "B"] [lit "a"; lit "¬a"])], justs')
    ∈ layer (search (λ _, false) [lit "a"; lit "¬a"] 1) 1.
Proof.
  apply (axiom_instances_recorded (λ _, false) [lit "a"; lit "¬a"] 1 (lit "A3"));
    apply (bool_decide_unpack _); vm_compute; exact I.
Defined.

Lemma axiom_extension_recorded_witness :
  ∃ justs',
    ([lit "(a → (a → a))"; lit "((¬a → ¬a) → (a → a))"], justs')
    ∈ layer (search (λ _, false) [lit "a"] 2) 2.
Proof.
  apply (axiom_extension_recorded (λ _, false) [lit "a"] 2 2
           ([lit "(a → (a → a))"], [lit "A1 [A=a, B=a]"])
           ([lit "((¬a → ¬a) → (a → a))"], [lit "A3 [A=a, B=a]"]));
    [lia|apply (bool_decide_unpack _); vm_compute; exact I..].
Defined.

Lemma layers_grow_witness :
  length (layer (search (λ _, false) [lit "a"] 3) (3 - 1))
  * length (layer (search (λ _, false) [lit "a"] 3) 1)
  ≤ length (layer (search (λ _, false) [lit "a"] 3) 3).
Proof. apply (layers_grow (λ _, false) [lit "a"] 3 3). lia. Defined.

Lemma search_never_stops_early_witness :
  iterations (range 2 (3 + 1)) grow (before_loop (λ _, false) [lit "a"] 3)
  = range 2 (3 + 1)
  ∧ ∀ k, 1 ≤ k ≤ Nat.max 1 3 → layer (search (λ _, false) [lit "a"] 3) k ≠ [].
Proof. apply (search_never_stops_early (λ _, false) [lit "a"] 3). done. Defined.

Lemma search_log_nonempty_basis_witness :
  written (search (λ _, false) [lit "a"] 2)
  = [GeneratingAxioms [lit "a"];
     FoundLength1 (length (layer (search (λ _, false) [lit "a"] 2) 1));
     SearchingUpTo 2]
    ++ (k ← range 2 (2 + 1);
        [Generating k (length (layer (search (λ _, false) [lit "a"] 2) (k - 1)));
         FoundNew k (length (layer (search (λ _, false) [lit "a"] 2) k))])
    ++ [SearchComplete].
Proof. apply (search_log_nonempty_basis (λ _, false) [lit "a"] 2). done. Defined.

(** ** One proof per theorem, and ties *)

Lemma dict_values_keys {K V} `{EqDecision K} (f : V → K) (d : list (K * V)) :
  NoDup (dict_keys d) →
  (∀ (k : K) (v : V), dict_get k d = Some v → f v = k) →
  f <$> dict_values d = dict_keys d.
Proof.
  unfold dict_keys, dict_values.
  induction d as [|[k0 v0] d IH]; [done|]. cbn [fmap list_fmap fst snd].
  intros [Hk0 Hnd]%NoDup_cons Hf. f_equal.
  - apply Hf. simpl. by rewrite decide_True.
  - apply IH; [done|]. intros k v Hk. apply Hf. simpl.
    rewrite decide_False; [done|]. intros ->. apply Hk0.
    assert (is_Some (dict_get k0 d)) as Hs by eauto.
    destruct (decide (k0 ∈ d.*1)) as [|Hn]; [done|].
    apply (dict_get_None_keys k0 d) in Hn. rewrite Hn in Hs. by destruct Hs.
Qed.

Lemma best_proofs_keys (l : list proof) :
  (λ pr : proof, theorem_of pr.1) <$> dict_values (best_proofs_for_theorem l)
  = dict_keys (best_proofs_for_theorem l).
Proof.
  destruct (best_proofs_spec l) as (Hnd & _ & Hspec).
  apply dict_values_keys; [done|]. intros k v Hk. by destruct (Hspec _ _ Hk) as (_ & ? & _).
Qed.

Lemma elem_of_best_proofs_keys (l : list proof) (t : str) :
  t ∈ dict_keys (best_proofs_for_theorem l)
  ↔ ∃ pr : proof, pr ∈ l ∧ theorem_of pr.1 = t.
Proof.
  destruct (best_proofs_spec l) as (Hnd & Hs & Hspec). split.
  - intros Hin.
    destruct (dict_get t (best_proofs_for_theorem l)) as [best|] eqn:E.
    + destruct (Hspec _ _ E) as (? & ? & _). eauto.
    + by apply dict_get_None_keys in E.
  - intros (pr & Hpr & <-). destruct (Hs pr Hpr) as [b Hb].
    destruct (decide (theorem_of pr.1 ∈ dict_keys (best_proofs_for_theorem l)))
      as [|Hn]; [done|].
    apply dict_get_None_keys in Hn. congruence.
Qed.

(** The retained proof is the first of the candidates that no candidate
    for the same theorem beats or ties. *)
Lemma best_proofs_first (l : list proof) theorem (best : proof) :
  dict_get theorem (best_proofs_for_theorem l) = Some best →
  ∃ i, l !! i = Some best
       ∧ ∀ j (pr : proof), l !! j = Some pr → theorem_of pr.1 = theorem →
           simpler_or_equal pr.1 best.1 → i ≤ j.
Proof.
  revert theorem best. induction l as [|x l IH] using rev_ind; [done|].
  intros theorem best.
  destruct (best_proofs_spec l) as (_ & IHs & IHspec).
  rewrite best_proofs_snoc. set (d := best_proofs_for_theorem l) in *.
  assert (∀ i (b : proof),
            l !! i = Some b →
            (∀ j (pr : proof), l !! j = Some pr → theorem_of pr.1 = theorem →
               simpler_or_equal pr.1 b.1 → i ≤ j) →
            theorem_of x.1 ≠ theorem ∨ ¬ simpler_or_equal x.1 b.1
            ∨ True →
            ∃ i, (l ++ [x]) !! i = Some b
                 ∧ ∀ j (pr : proof), (l ++ [x]) !! j = Some pr →
                     theorem_of pr.1 = theorem →
                     simpler_or_equal pr.1 b.1 → i ≤ j) as Hold.
  { intros i b Hi Hmin _. exists i. split; [by apply lookup_app_l_Some|].
    intros j pr Hj Ht Hs. pose proof (lookup_lt_Some _ _ _ Hi) as Hlt.
    apply lookup_app_Some in Hj as [Hj|[Hge _]]; [by eapply Hmin|lia]. }
  assert (∀ (b : proof),
            (∀ pr : proof, pr ∈ l → theorem_of pr.1 = theorem →
               ¬ simpler_or_equal pr.1 x.1) →
            b = x →
            ∃ i, (l ++ [x]) !! i = Some b
                 ∧ ∀ j (pr : proof), (l ++ [x]) !! j = Some pr →
                     theorem_of pr.1 = theorem →
                     simpler_or_equal pr.1 b.1 → i ≤ j) as Hnew.
  { intros b Hno ->. exists (length l). split.
    - rewrite lookup_app_r by done. by rewrite Nat.sub_diag.
    - intros j pr Hj Ht Hs.
      apply lookup_app_Some in Hj as [Hj|[Hge _]]; [|done].
      exfalso. eapply Hno; [|done..]. by eapply list_elem_of_lookup_2. }
  unfold consider. destruct x as [steps justs].
  destruct (dict_get (theorem_of steps) d) as [cur|] eqn:Hcur.
  - destruct (IHspec _ _ Hcur) as (Hc1 & Hc2 & Hc3).
    destruct ((get_proof_complexity steps <? get_proof_complexity cur.1)
              || (get_proof_complexity steps =? get_proof_complexity cur.1)
                 && (length steps <? length cur.1)) eqn:Hbetter.
    + destruct (decide (theorem_of steps = theorem)) as [<-|Hne].
      * rewrite dict_get_set_eq. intros [= <-]. apply Hnew; [|done].
        intros pr Hpr Ht [Hs1 Hs2]. destruct (Hc3 pr Hpr Ht) as [Hd1 Hd2].
        simpl in *.
        apply orb_true_iff in Hbetter as [Hb|[Hb1 Hb2]%andb_true_iff].
        -- apply Nat.ltb_lt in Hb. lia.
        -- apply Nat.eqb_eq in Hb1. apply Nat.ltb_lt in Hb2. lia.
      * rewrite dict_get_set_ne by done. intros Hb.
        destruct (IH _ _ Hb) as (i & Hi & Hmin). apply (Hold i); auto.
    + intros Hb. destruct (IH _ _ Hb) as (i & Hi & Hmin). apply (Hold i); auto.
  - destruct (decide (theorem_of steps = theorem)) as [<-|Hne].
    + rewrite dict_get_set_eq. intros [= <-]. apply Hnew; [|done].
      intros pr Hpr Ht _. destruct (IHs pr Hpr) as [b Hb]. simpl in Ht. congruence.
    + rewrite dict_get_set_ne by done. intros Hb.
      destruct (IH _ _ Hb) as (i & Hi & Hmin). apply (Hold i); auto.
Qed.

Section OnePerTheorem.
Variable unicode_alnum : char → bool.
Variable basis : list str.

Local Abbreviation final := (search unicode_alnum basis).
Local Abbreviation reported := (reported unicode_alnum basis).
Local Abbreviation candidates max_length :=
  (proofs_with_mp max_length (final max_length)).

Lemma reported_theorems max_length :
  (λ pr : proof, theorem_of pr.1) <$> reported max_length
  ≡ₚ dict_keys (best_proofs_for_theorem (candidates max_length)).
Proof.
  unfold reported, final_proofs.
  by rewrite sorted_Permutation, best_proofs_keys.
Qed.

Lemma candidate_reported max_length k (pr : proof) :
  3 ≤ k ≤ max_length → pr ∈ layer (final max_length) k →
  (∃ n i j, pr.2 !! n = Some (mp_just i j)) →
  ∃ best : proof,
    best ∈ reported max_length ∧ theorem_of best.1 = theorem_of pr.1.
Proof.
  intros Hk Hpr Hmp.
  assert (theorem_of pr.1
            ∈ (λ pr : proof, theorem_of pr.1) <$> reported max_length) as Hin.
  { rewrite reported_theorems. apply elem_of_best_proofs_keys. exists pr.
    split; [|done]. apply elem_of_proofs_with_mp. eauto. }
  apply list_elem_of_fmap in Hin as (best & E & Hbest). eauto.
Qed.

(** X8: the report has one proof per theorem: the theorems of the reported
    proofs are pairwise distinct, and the theorem of every candidate (a
    proof of length 3 to [max_length] with a Modus Ponens justification) is
    the theorem of a reported proof. *)
Theorem report_one_per_theorem max_length :
  NoDup ((λ pr : proof, theorem_of pr.1) <$> reported max_length)
  ∧ ∀ k (pr : proof),
      3 ≤ k ≤ max_length → pr ∈ layer (final max_length) k →
      (∃ n i j, pr.2 !! n = Some (mp_just i j)) →
      ∃ best : proof,
        best ∈ reported max_length ∧ theorem_of best.1 = theorem_of pr.1.
Proof.
  split; [|apply candidate_reported].
  rewrite reported_theorems.
  by destruct (best_proofs_spec (candidates max_length)) as (Hnd & _ & _).
Qed.

(** X9: the number on the Filtering line, the number of proofs printed and
    the number of distinct theorems among the candidates are the same. *)
Theorem report_counts_agree max_length :
  length (best_proofs_for_theorem (candidates max_length))
  = length (reported max_length)
  ∧ length (reported max_length)
    = size (list_to_set ((λ pr : proof, theorem_of pr.1)
                           <$> candidates max_length) : gset str).
Proof.
  assert (length (reported max_length)
          = length (best_proofs_for_theorem (candidates max_length))) as E.
  { unfold reported, final_proofs. rewrite sorted_Permutation.
    unfold dict_values. by rewrite length_fmap. }
  split; [done|]. rewrite E.
  destruct (best_proofs_spec (candidates max_length)) as (Hnd & _ & _).
  rewrite <- (length_fmap fst). change (fmap fst ?d) with (dict_keys d).
  rewrite <- (size_list_to_set (C := gset str)) by done. f_equal.
  apply set_eq. intros t. rewrite !elem_of_list_to_set.
  rewrite elem_of_best_proofs_keys, list_elem_of_fmap. naive_solver.
Qed.

(** X10: ties go to the proof met first: the proof retained for a theorem
    comes, in the order in which the candidates are enumerated, before
    every other candidate for the theorem with the same complexity and the
    same number of steps. *)
Theorem minimizer_first_wins max_length theorem (best : proof) :
  dict_get theorem (best_proofs_for_theorem (candidates max_length))
  = Some best →
  ∃ i, candidates max_length !! i = Some best
       ∧ ∀ j (pr : proof),
           candidates max_length !! j = Some pr →
           theorem_of pr.1 = theorem →
           get_proof_complexity pr.1 = get_proof_complexity best.1 →
           length pr.1 = length best.1 →
           i ≤ j.
Proof.
  intros Hb. destruct (best_proofs_first _ _ _ Hb) as (i & Hi & Hmin).
  exists i. split; [done|]. intros j pr Hj Ht Hc Hl.
  apply (Hmin j pr); [done..|]. unfold simpler_or_equal. lia.
Qed.

End OnePerTheorem.

Lemma minimizer_first_wins_witness :
  ∃ i, proofs_with_mp 3 (search (λ _, false) [lit "a"] 3) !! i = Some three_lines
       ∧ ∀ j (pr : proof),
           proofs_with_mp 3 (search (λ _, false) [lit "a"] 3) !! j = Some pr →
           theorem_of pr.1 = lit "((a → a) → (a → a))" →
           get_proof_complexity pr.1 = get_proof_complexity three_lines.1 →
           length pr.1 = length three_lines.1 →
           i ≤ j.
Proof.
  apply (minimizer_first_wins (λ _, false) [lit "a"] 3).
  vm_compute. reflexivity.
Defined.

(** ** Unique readability of the formulas *)

Section Readability.
Variable unicode_alnum : char → bool.

Local Abbreviation formula := (formula unicode_alnum).
Local Abbreviation alnum := (Forall (λ c, is_alnum unicode_alnum c = true)).

Lemma ground_formula_formula f : ground_formula unicode_alnum f → formula f.
Proof. induction 1; by constructor. Qed.

Lemma formula_neg_eq f : lit "¬" ++ f = 172%N :: f.
Proof. reflexivity. Qed.

Lemma formula_not_eq f : lit "(¬" ++ f ++ lit ")" = 40%N :: 172%N :: f ++ [41%N].
Proof. reflexivity. Qed.

Lemma implication_eq f g :
  implication f g = 40%N :: f ++ 32%N :: 8594%N :: 32%N :: g ++ [41%N].
Proof. reflexivity. Qed.

(** The first character of a formula tells its form. *)
Lemma formula_head f :
  formula f →
  ∃ c f', f = c :: f'
    ∧ (is_alnum unicode_alnum c = true ∨ c = 172%N ∨ c = 40%N).
Proof.
  destruct 1 as [[|c a] Hne Ha|f Hf|f Hf|f g Hf Hg]; [done|..].
  - exists c, a. split; [done|]. left. by apply Forall_inv in Ha.
  - exists 172%N, f. by auto.
  - rewrite formula_not_eq. eauto 10.
  - rewrite implication_eq. eauto 10.
Qed.

Lemma alnum_then (r : str) c z c' z' :
  alnum r → is_alnum unicode_alnum c' = false →
  r ++ c :: z = c' :: z' → r = [] ∧ c = c' ∧ z = z'.
Proof.
  intros Hr Hc'. destruct r as [|c0 r]; simpl; [by intros [= -> ->]|].
  intros [= -> _]. apply Forall_inv in Hr. congruence.
Qed.

Lemma not_alnum_172 : is_alnum unicode_alnum 172 = false.
Proof. reflexivity. Qed.
Lemma not_alnum_40 : is_alnum unicode_alnum 40 = false.
Proof. reflexivity. Qed.
Lemma not_alnum_41 : is_alnum unicode_alnum 41 = false.
Proof. reflexivity. Qed.
Lemma not_alnum_32 : is_alnum unicode_alnum 32 = false.
Proof. reflexivity. Qed.

(** Two formulas that start at the same place of a text: one continues the
    other by letters and digits only. *)
Lemma formula_comparable n : ∀ p g x y,
  length p + length g < n → formula p → formula g →
  p ++ x = g ++ y → comparable unicode_alnum p g.
Proof.
  induction n as [|n IH]; [lia|]. intros p g x y Hn Hp Hg E.
  destruct Hp as [a Hne Ha|p' Hp'|p' Hp'|p1 p2 Hp1 Hp2].
  - (* an atom *)
    destruct Hg as [b Hnb Hb|g' Hg'|g' Hg'|g1 g2 Hg1 Hg2].
    + apply app_eq_inv in E as [(k & -> & _)|(k & -> & _)].
      * right. exists k. by apply Forall_app in Ha as [_ ?].
      * left. exists k. by apply Forall_app in Hb as [_ ?].
    + destruct a as [|c a]; [done|]. injection E as -> _.
      apply Forall_inv in Ha. vm_compute in Ha. done.
    + destruct a as [|c a]; [done|]. injection E as -> _.
      apply Forall_inv in Ha. vm_compute in Ha. done.
    + destruct a as [|c a]; [done|]. injection E as -> _.
      apply Forall_inv in Ha. vm_compute in Ha. done.
  - (* a negation *)
    destruct Hg as [b Hnb Hb|g' Hg'|g' Hg'|g1 g2 Hg1 Hg2].
    + destruct b as [|c b]; [done|]. injection E as <- _.
      apply Forall_inv in Hb. vm_compute in Hb. done.
    + injection E as E. simpl in Hn.
      destruct (IH p' g' x y ltac:(lia) Hp' Hg' E) as [(r & Hr & ->)|(r & Hr & ->)].
      * left. by exists r.
      * right. by exists r.
    + discriminate E.
    + discriminate E.
  - (* a negation in parentheses *)
    rewrite formula_not_eq in *.
    destruct Hg as [b Hnb Hb|g' Hg'|g' Hg'|g1 g2 Hg1 Hg2].
    + destruct b as [|c b]; [done|]. injection E as <- _.
      apply Forall_inv in Hb. vm_compute in Hb. done.
    + discriminate E.
    + rewrite formula_not_eq in *. injection E as E.
      rewrite <- !app_assoc in E. simpl in Hn. rewrite !length_app in Hn.
      destruct (IH p' g' _ _ ltac:(lia) Hp' Hg' E) as [(r & Hr & ->)|(r & Hr & ->)].
      * rewrite <- app_assoc in E. apply app_inv_head in E. symmetry in E.
        apply alnum_then in E as (-> & _); [|done|apply not_alnum_41].
        left. exists []. by rewrite !app_nil_r.
      * rewrite <- app_assoc in E. apply app_inv_head in E.
        apply alnum_then in E as (-> & _); [|done|apply not_alnum_41].
        left. exists []. by rewrite !app_nil_r.
    + rewrite implication_eq in *. injection E as E.
      rewrite <- !app_assoc in E. simpl in Hn. rewrite !length_app in Hn.
      exfalso.
      pose proof (IH (lit "¬" ++ p') g1 _ _ ltac:(simpl; lia)
                    (formula_neg _ _ Hp') Hg1 E) as Hc.
      change (lit "¬" ++ p') with (172%N :: p') in Hc.
      destruct Hc as [(r & Hr & ->)|(r & Hr & Ep)].
      * simpl in E. injection E as E. rewrite <- !app_assoc in E.
        apply app_inv_head in E. symmetry in E.
        by apply alnum_then in E as (_ & ? & _); [|done|apply not_alnum_41].
      * rewrite app_comm_cons, Ep in E.
        rewrite <- !app_assoc in E. apply app_inv_head in E.
        by apply alnum_then in E as (_ & ? & _); [|done|apply not_alnum_32].
  - (* an implication *)
    rewrite implication_eq in *.
    destruct Hg as [b Hnb Hb|g' Hg'|g' Hg'|g1 g2 Hg1 Hg2].
    + destruct b as [|c b]; [done|]. injection E as <- _.
      apply Forall_inv in Hb. vm_compute in Hb. done.
    + discriminate E.
    + rewrite formula_not_eq in *. injection E as E.
      rewrite <- !app_assoc in E. simpl in Hn. rewrite !length_app in Hn.
      exfalso.
      pose proof (IH p1 (lit "¬" ++ g') _ _ ltac:(simpl; lia)
                    Hp1 (formula_neg _ _ Hg') E) as Hc.
      change (lit "¬" ++ g') with (172%N :: g') in Hc.
      destruct Hc as [(r & Hr & Eg)|(r & Hr & ->)].
      * symmetry in E. rewrite app_comm_cons, Eg in E.
        rewrite <- !app_assoc in E. apply app_inv_head in E.
        by apply alnum_then in E as (_ & ? & _); [|done|apply not_alnum_32].
      * simpl in E. injection E as E. rewrite <- !app_assoc in E.
        apply app_inv_head in E.
        by apply alnum_then in E as (_ & ? & _); [|done|apply not_alnum_41].
    + rewrite implication_eq in *. injection E as E.
      rewrite <- !app_assoc in E. simpl in Hn. rewrite !length_app in Hn.
      simpl in Hn. rewrite !length_app in Hn.
      assert (p1 = g1) as <-.
      { destruct (IH p1 g1 _ _ ltac:(lia) Hp1 Hg1 E) as [(r & Hr & ->)|(r & Hr & ->)].
        - rewrite <- app_assoc in E. apply app_inv_head in E. symmetry in E.
          apply alnum_then in E as (-> & _); [|done|apply not_alnum_32].
          by rewrite app_nil_r.
        - rewrite <- app_assoc in E. apply app_inv_head in E.
          apply alnum_then in E as (-> & _); [|done|apply not_alnum_32].
          by rewrite app_nil_r. }
      apply app_inv_head in E. injection E as E. rewrite <- !app_assoc in E.
      assert (p2 = g2) as <-.
      { destruct (IH p2 g2 _ _ ltac:(lia) Hp2 Hg2 E) as [(r & Hr & ->)|(r & Hr & ->)].
        - rewrite <- app_assoc in E. apply app_inv_head in E. symmetry in E.
          apply alnum_then in E as (-> & _); [|done|apply not_alnum_41].
          by rewrite app_nil_r.
        - rewrite <- app_assoc in E. apply app_inv_head in E.
          apply alnum_then in E as (-> & _); [|done|apply not_alnum_41].
          by rewrite app_nil_r. }
      left. exists []. by rewrite !app_nil_r.
Qed.

Lemma implication_inj p p' q q' :
  formula p → formula p' → implication p q = implication p' q' →
  p = p' ∧ q = q'.
Proof.
  intros Hp Hp' E. rewrite !implication_eq in E. injection E as E.
  assert (p = p') as <-.
  { destruct (formula_comparable (S (length p + length p')) p p' _ _
                ltac:(lia) Hp Hp' E) as [(r & Hr & ->)|(r & Hr & ->)].
    - rewrite <- app_assoc in E. apply app_inv_head in E. symmetry in E.
      apply alnum_then in E as (-> & _); [|done|apply not_alnum_32].
      by rewrite app_nil_r.
    - rewrite <- app_assoc in E. apply app_inv_head in E.
      apply alnum_then in E as (-> & _); [|done|apply not_alnum_32].
      by rewrite app_nil_r. }
  split; [done|]. apply app_inv_head in E. injection E as E.
  by apply app_inv_tail in E.
Qed.

(** An implication is none of the other forms. *)
Lemma formula_implication_inv p q :
  formula p → formula (implication p q) → formula q.
Proof.
  intros Hp Hs. remember (implication p q) as s eqn:Es.
  destruct Hs as [a Hne Ha|g Hg|g Hg|g1 g2 Hg1 Hg2].
  - rewrite implication_eq in Es. subst a. apply Forall_inv in Ha.
    vm_compute in Ha. done.
  - rewrite implication_eq in Es. discriminate Es.
  - exfalso. rewrite implication_eq, formula_not_eq in Es. injection Es as E.
    pose proof (formula_comparable (S (length (lit "¬" ++ g) + length p))
                  (lit "¬" ++ g) p ([41%N]) (32%N :: 8594%N :: 32%N :: q ++ [41%N])
                  ltac:(lia) (formula_neg _ _ Hg) Hp E) as Hc.
    change (lit "¬" ++ g) with (172%N :: g) in Hc.
    destruct Hc as [(r & Hr & ->)|(r & Hr & Ep)].
    + simpl in E. injection E as E. rewrite <- !app_assoc in E.
      apply app_inv_head in E. symmetry in E.
      by apply alnum_then in E as (_ & ? & _); [|done|apply not_alnum_41].
    + rewrite app_comm_cons, Ep in E. rewrite <- !app_assoc in E.
      apply app_inv_head in E.
      by apply alnum_then in E as (_ & ? & _); [|done|apply not_alnum_32].
  - symmetry in Es. apply implication_inj in Es as [-> ->]; done.
Qed.

Lemma apply_mp_formula p s q :
  formula p → formula s → apply_mp p s = Some q → formula q.
Proof.
  intros Hp Hs Hq. apply apply_mp_Some in Hq. subst s.
  by apply (formula_implication_inv p).
Qed.

(** X11: on formulas [apply_mp] is Modus Ponens: from [p] and a formula [s]
    it returns [q] exactly when [q] is a formula and [s] is the implication
    of [q] by [p]; an implication has no second reading. *)
Theorem apply_mp_on_formulas p s q :
  formula p → formula s →
  apply_mp p s = Some q ↔ formula q ∧ s = implication p q.
Proof.
  intros Hp Hs. split.
  - intros H. split; [by apply (apply_mp_formula p s)|by apply apply_mp_Some].
  - intros [_ ->]. apply apply_mp_implication.
Qed.

End Readability.

Lemma substitute_A1_implication ua (wa wb : str) :
  no_schema_variable ua wa → no_schema_variable ua wb →
  substitute ua (lit "(A → (B → A))") (dict_of_zip [lit "A"; lit "B"] [wa; wb])
  = implication wa (implication wb wa).
Proof.
  intros Ha Hb. rewrite substitute_A1 by done. unfold implication.
  by rewrite <- !app_assoc.
Qed.

Lemma substitute_A2_implication ua (wa wb wc : str) :
  no_schema_variable ua wa → no_schema_variable ua wb →
  no_schema_variable ua wc →
  substitute ua (lit "((A → (B → C)) → ((A → B) → (A → C)))")
             (dict_of_zip [lit "A"; lit "B"; lit "C"] [wa; wb; wc])
  = implication (implication wa (implication wb wc))
                (implication (implication wa wb) (implication wa wc)).
Proof.
  intros Ha Hb Hc. rewrite substitute_A2 by done. unfold implication.
  by rewrite <- !app_assoc.
Qed.

Lemma substitute_A3_implication ua (wa wb : str) :
  no_schema_variable ua wa → no_schema_variable ua wb →
  substitute ua (lit "((¬B → ¬A) → (A → B))")
             (dict_of_zip [lit "A"; lit "B"] [wa; wb])
  = implication (implication (lit "¬" ++ wb) (lit "¬" ++ wa))
                (implication wa wb).
Proof.
  intros Ha Hb. rewrite substitute_A3 by done. unfold implication.
  by rewrite <- !app_assoc.
Qed.

Lemma length_implication (p q : str) :
  length (implication p q) = length p + length q + 5.
Proof. unfold implication. rewrite !length_app. simpl. lia. Qed.

Lemma elem_of_product {A} (pool combo : list A) :
  Forall (λ x, x ∈ pool) combo → combo ∈ product pool (length combo).
Proof.
  induction 1 as [|x combo Hx _ IH]; simpl; [by left|].
  apply list_elem_of_bind. exists x. split; [|done].
  by apply list_elem_of_fmap_2.
Qed.

Section WellFormed.
Variable unicode_alnum : char → bool.
Variable basis : list str.
Hypothesis basis_formulas : Forall (formula unicode_alnum) basis.
Hypothesis basis_ground : Forall (no_schema_variable unicode_alnum) basis.

Local Abbreviation formula := (formula unicode_alnum).
Local Abbreviation final := (search unicode_alnum basis).
Local Abbreviation reported := (reported unicode_alnum basis).

(** The three forms of the instances of the schemas. *)
Lemma axiom_instance_shape name template vars combo :
  (name, (template, vars)) ∈ AXIOM_TEMPLATES →
  combo ∈ product basis (length vars) →
  ∃ wa wb wc,
    formula wa ∧ formula wb ∧ formula wc
    ∧ (substitute unicode_alnum template (dict_of_zip vars combo)
       = implication wa (implication wb wa)
       ∨ substitute unicode_alnum template (dict_of_zip vars combo)
         = implication (implication wa (implication wb wc))
                       (implication (implication wa wb) (implication wa wc))
       ∨ substitute unicode_alnum template (dict_of_zip vars combo)
         = implication (implication (lit "¬" ++ wb) (lit "¬" ++ wa))
                       (implication wa wb)).
Proof.
  intros Hin Hc. apply product_spec in Hc as [Hlen Hall].
  assert (Forall (λ w, formula w ∧ no_schema_variable unicode_alnum w) combo)
    as Hcombo.
  { rewrite Forall_forall in *. intros w Hw. split; [apply basis_formulas|apply basis_ground]; by apply Hall. }
  clear Hall. unfold AXIOM_TEMPLATES in Hin.
  repeat (apply elem_of_cons in Hin as [[= -> -> ->]|Hin]);
    [| | |by apply elem_of_nil in Hin].
  - destruct combo as [|wa [|wb [|? ?]]]; try done.
    apply Forall_cons in Hcombo as [[Ha Ha'] [[Hb Hb'] _]%Forall_cons].
    exists wa, wb, wa. split_and!; try done. left.
    by apply substitute_A1_implication.
  - destruct combo as [|wa [|wb [|wc [|? ?]]]]; try done.
    apply Forall_cons in Hcombo as [[Ha Ha'] [[Hb Hb'] [[Hc Hc'] _]%Forall_cons]%Forall_cons].
    exists wa, wb, wc. split_and!; try done. right. left.
    by apply substitute_A2_implication.
  - destruct combo as [|wa [|wb [|? ?]]]; try done.
    apply Forall_cons in Hcombo as [[Ha Ha'] [[Hb Hb'] _]%Forall_cons].
    exists wa, wb, wa. split_and!; try done. right. right.
    by apply substitute_A3_implication.
Qed.

Lemma axiom_instance_formula name template vars combo :
  (name, (template, vars)) ∈ AXIOM_TEMPLATES →
  combo ∈ product basis (length vars) →
  formula (substitute unicode_alnum template (dict_of_zip vars combo)).
Proof.
  intros Hin Hc.
  destruct (axiom_instance_shape _ _ _ _ Hin Hc)
    as (wa & wb & wc & Ha & Hb & Hc' & [->|[->| ->]]);
    repeat first [done | apply formula_implies | apply formula_neg].
Qed.

Lemma reachable_formulas :
  ∀ k st, reachable unicode_alnum basis k st →
  ∀ i (pr : proof), pr ∈ layer st i → length pr.1 = i ∧ Forall formula pr.1.
Proof.
  apply (reachable_layer_ind unicode_alnum basis
           (λ i pr, length pr.1 = i ∧ Forall formula pr.1)).
  - intros name template vars combo He Hc. split; [done|].
    apply Forall_singleton. by eapply axiom_instance_formula.
  - intros k pr ap Hk [Lpr Hpr] [Lap Hap]. simpl. split.
    { rewrite length_app. simpl. lia. }
    apply Forall_app. split; [done|].
    apply Forall_singleton. destruct ap as [[|s ?] ?]; [done|].
    by apply Forall_cons in Hap as [? _].
  - intros k pr i j p pq q Hk [Lpr Hpr] _ Hp Hpq Hq _. simpl. split.
    { rewrite length_app. simpl. lia. }
    apply Forall_app. split; [done|]. apply Forall_singleton.
    rewrite Forall_forall in Hpr.
    eapply (apply_mp_formula unicode_alnum p pq); [| |done].
    + apply Hpr. by eapply list_elem_of_lookup_2.
    + apply Hpr. by eapply list_elem_of_lookup_2.
Qed.

(** X12: over a basis of formulas in which no schema variable occurs, every
    line of every proof the search records is a formula. *)
Theorem lines_well_formed max_length k (pr : proof) :
  pr ∈ layer (final max_length) k → Forall formula pr.1.
Proof.
  intros Hpr.
  by destruct (reachable_formulas _ _
                 (search_reachable unicode_alnum basis max_length) k pr Hpr).
Qed.

Lemma mp_extension_in_layer max_length k (pr : proof) i j q :
  2 ≤ k ≤ max_length → pr ∈ layer (final max_length) (k - 1) →
  has_consequence pr i j q →
  ∃ justs', (pr.1 ++ [q], justs') ∈ layer (final max_length) k.
Proof.
  intros Hk Hpr Hc. unfold search in *. rewrite layer_write in *.
  unfold range in *.
  apply (for_each_grow_complete unicode_alnum basis 2 (max_length + 1 - 2) _
           k pr i j q); [lia|apply before_loop_reachable|lia|done|done].
Qed.

(** The identity [(x → x)] is no instance of a schema. *)
Lemma identity_not_axiom x name template vars combo :
  formula x →
  (name, (template, vars)) ∈ AXIOM_TEMPLATES →
  combo ∈ product basis (length vars) →
  substitute unicode_alnum template (dict_of_zip vars combo) ≠ implication x x.
Proof.
  intros Hx Hin Hc E.
  destruct (axiom_instance_shape _ _ _ _ Hin Hc)
    as (wa & wb & wc & Ha & Hb & Hc' & [E'|[E'|E']]);
    rewrite E' in E; clear E'.
  - apply (implication_inj unicode_alnum) in E as [-> E]; [|done..].
    apply (f_equal length) in E. rewrite length_implication in E. lia.
  - apply (implication_inj unicode_alnum) in E as [<- E];
      [|by repeat apply formula_implies|done].
    apply (implication_inj unicode_alnum) in E as [E _];
      [|by repeat apply formula_implies|done].
    apply (f_equal length) in E. rewrite length_implication in E. lia.
  - apply (implication_inj unicode_alnum) in E as [<- E];
      [|by repeat first [apply formula_implies|apply formula_neg]|done].
    apply (implication_inj unicode_alnum) in E as [E1 E2];
      [|done|by apply formula_neg].
    rewrite E1 in E2. apply (f_equal length) in E2. simpl in E2. lia.
Qed.

(** X13: when the basis has [x] and [(x → x)], the search of length 5 or
    more derives the identity [(x → x)] in five lines (two instances of A1,
    one of A2 and two applications of Modus Ponens), and the report has a
    proof of it. *)
Theorem identity_is_proved max_length x :
  5 ≤ max_length → x ∈ basis → implication x x ∈ basis →
  (∃ justs,
      ([implication (implication x (implication (implication x x) x))
          (implication (implication x (implication x x)) (implication x x));
        implication x (implication (implication x x) x);
        implication (implication x (implication x x)) (implication x x);
        implication x (implication x x);
        implication x x], justs) ∈ layer (final max_length) 5)
  ∧ ∃ best : proof,
      best ∈ reported max_length ∧ theorem_of best.1 = implication x x.
Proof.
  intros Hmax Hx Hxx.
  set (xx := implication x x).
  set (s4 := implication x xx).
  set (s3 := implication s4 xx).
  set (s2 := implication x (implication xx x)).
  set (s1 := implication s2 s3).
  pose proof (proj1 (Forall_forall _ _) basis_formulas _ Hx) as Fx.
  pose proof (proj1 (Forall_forall _ _) basis_ground _ Hx) as Gx.
  pose proof (proj1 (Forall_forall _ _) basis_ground _ Hxx) as Gxx.
  destruct (axiom_instance_in_layer unicode_alnum basis max_length
              (lit "A2") (lit "((A → (B → C)) → ((A → B) → (A → C)))")
              [lit "A"; lit "B"; lit "C"] [x; xx; x]) as [j1 H1].
  { apply (bool_decide_unpack _). vm_compute. exact I. }
  { apply (elem_of_product basis [x; xx; x]). by repeat constructor. }
  rewrite substitute_A2_implication in H1 by done. fold xx s4 s3 s2 s1 in H1.
  destruct (axiom_instance_in_layer unicode_alnum basis max_length
              (lit "A1") (lit "(A → (B → A))")
              [lit "A"; lit "B"] [x; xx]) as [j2 H2].
  { apply (bool_decide_unpack _). vm_compute. exact I. }
  { apply (elem_of_product basis [x; xx]). by repeat constructor. }
  rewrite substitute_A1_implication in H2 by done. fold s2 in H2.
  destruct (axiom_instance_in_layer unicode_alnum basis max_length
              (lit "A1") (lit "(A → (B → A))")
              [lit "A"; lit "B"] [x; x]) as [j4 H4].
  { apply (bool_decide_unpack _). vm_compute. exact I. }
  { apply (elem_of_product basis [x; x]). by repeat constructor. }
  rewrite substitute_A1_implication in H4 by done. fold xx s4 in H4.
  destruct (axiom_extension_in_layer unicode_alnum basis max_length 2
              ([s1], j1) ([s2], j2)) as [j12 H12]; [lia|done..|].
  destruct (mp_extension_in_layer max_length 3 ([s1; s2], j12) 1 0 s3)
    as [j123 H123]; [lia|done| |].
  { split_and!; [done|done|]. exists s2, s1. split_and!; [done..|].
    apply apply_mp_implication. }
  destruct (axiom_extension_in_layer unicode_alnum basis max_length 4
              ([s1; s2; s3], j123) ([s4], j4)) as [j1234 H1234]; [lia|done..|].
  destruct (mp_extension_in_layer max_length 5 ([s1; s2; s3; s4], j1234) 3 2 xx)
    as [j5 H5]; [lia|done| |].
  { split_and!; [done|done|]. exists s4, s3. split_and!; [done..|].
    apply apply_mp_implication. }
  simpl in H5. split; [by exists j5|].
  apply (candidate_reported unicode_alnum basis max_length 5
           ([s1; s2; s3; s4; xx], j5)); [lia|done|].
  destruct (reachable_sound _ _ _ _
              (search_reachable unicode_alnum basis max_length) 5 _ H5)
    as (_ & _ & Hs).
  destruct (Hs 4 ltac:(lia))
    as [(name & template & vars & combo & Hin & Hc & Hl & _)
       |(i & j & p & pq & q & _ & _ & _ & _ & _ & _ & _ & Hj)].
  - exfalso. simpl in Hl. injection Hl as Hl. symmetry in Hl.
    by eapply identity_not_axiom.
  - by exists 4, i, j.
Qed.

End WellFormed.

(** The basis of the program has none of the schema variables. *)
Lemma WFF_BASIS_no_schema_variable (unicode_alnum : char → bool) :
  Forall (no_schema_variable unicode_alnum) WFF_BASIS.
Proof. unfold WFF_BASIS. repeat constructor. Qed.

Lemma WFF_BASIS_formulas (unicode_alnum : char → bool) :
  Forall (formula unicode_alnum) WFF_BASIS.
Proof.
  eapply Forall_impl; [apply WFF_BASIS_ground|]. apply ground_formula_formula.
Qed.

Lemma apply_mp_on_formulas_witness :
  apply_mp (lit "(¬a)") (lit "((¬a) → (a → b))") = Some (lit "(a → b)")
  ↔ formula (λ _, false) (lit "(a → b)")
    ∧ lit "((¬a) → (a → b))" = implication (lit "(¬a)") (lit "(a → b)").
Proof.
  assert (formula (λ _, false) (lit "a")) as Ha.
  { apply formula_atom; [done|]. by apply Forall_singleton. }
  assert (formula (λ _, false) (lit "b")) as Hb.
  { apply formula_atom; [done|]. by apply Forall_singleton. }
  apply (apply_mp_on_formulas (λ _, false)).
  - exact (formula_not _ _ Ha).
  - exact (formula_implies _ _ _ (formula_not _ _ Ha) (formula_implies _ _ _ Ha Hb)).
Defined.

Lemma lines_well_formed_witness :
  Forall (formula (λ _, false)) three_lines.1.
Proof.
  apply (lines_well_formed (λ _, false) [lit "a"]) with (max_length := 3) (k := 3).
  - apply Forall_singleton. apply formula_atom; [done|]. by apply Forall_singleton.
  - apply Forall_singleton. repeat constructor.
  - apply (bool_decide_unpack _). vm_compute. exact I.
Defined.

Lemma identity_is_proved_witness :
  (∃ justs,
      ([implication
          (implication (lit "a") (implication (implication (lit "a") (lit "a")) (lit "a")))
          (implication (implication (lit "a") (implication (lit "a") (lit "a")))
                       (implication (lit "a") (lit "a")));
        implication (lit "a") (implication (implication (lit "a") (lit "a")) (lit "a"));
        implication (implication (lit "a") (implication (lit "a") (lit "a")))
                    (implication (lit "a") (lit "a"));
        implication (lit "a") (implication (lit "a") (lit "a"));
        implication (lit "a") (lit "a")], justs)
      ∈ layer (search (λ _, false) WFF_BASIS MAX_LENGTH) 5)
  ∧ ∃ best : proof,
      best ∈ reported (λ _, false) WFF_BASIS MAX_LENGTH
      ∧ theorem_of best.1 = implication (lit "a") (lit "a").
Proof.
  apply (identity_is_proved (λ _, false) WFF_BASIS
           (WFF_BASIS_formulas _) (WFF_BASIS_no_schema_variable _)
           MAX_LENGTH (lit "a")).
  - unfold MAX_LENGTH. lia.
  - apply (bool_decide_unpack _). vm_compute. exact I.
  - apply (bool_decide_unpack _). vm_compute. exact I.
Defined.

(** ** The layout of a printed proof *)

Lemma length_ljust (s : str) width :
  length s ≤ width → length (ljust s width) = width.
Proof. intros H. unfold ljust. rewrite length_app, length_replicate. lia. Qed.




(** The block of the three-line derivation, as it is written. *)
Example print_proof_text_three_lines :
  print_proof_text three_lines.1 three_lines.2
  = Some (lit "  1. (a → (a → a))                           A1 [A=a, B=a]"
          ++ [10%N]
          ++ lit "  2. ((a → (a → a)) → ((a → a) → (a → a)))   A2 [A=a, B=a, C=a]"
          ++ [10%N]
          ++ lit "  3. ((a → a) → (a → a))                     MP (1,2)"
          ++ [10%N]
          ++ lit "--------------------" ++ [10%N]).
Proof. vm_compute. reflexivity. Qed.

(** ** The order of the replacements in [substitute] *)

Lemma filter_sorted_insert {A} (ltb : A → A → bool) (P : A → Prop)
    `{∀ x, Decision (P x)} x (l : list A) :
  (∀ y, ltb y x = true → P x → ¬ P y) →
  filter P (sorted_insert ltb x l) = filter P (x :: l).
Proof.
  intros Hx. induction l as [|y l IH]; [done|]. simpl.
  destruct (ltb y x) eqn:Hyx; [|done].
  rewrite (filter_cons P y), IH, !(filter_cons P x), (filter_cons P y).
  destruct (decide (P y)) as [Hy|Hy]; [|done].
  destruct (decide (P x)) as [Hx'|Hx']; [|done].
  by destruct (Hx y Hyx Hx').
Qed.

Lemma filter_sorted {A} (ltb : A → A → bool) (P : A → Prop)
    `{∀ x, Decision (P x)} (l : list A) :
  (∀ x y, ltb y x = true → P x → ¬ P y) →
  filter P (sorted ltb l) = filter P l.
Proof.
  intros Hx. induction l as [|x l IH]; [done|]. simpl.
  rewrite filter_sorted_insert by (intros y; apply Hx).
  by rewrite !filter_cons, IH.
Qed.

(** X15: the keys are tried longest first: [sorted(keys, key=len,
    reverse=True)] rearranges the keys, never places a key before a longer
    one, and leaves keys of the same length in the order of the dict. *)
Theorem longest_first_spec (keys : list str) :
  longest_first keys ≡ₚ keys
  ∧ (∀ i j (x y : str),
       i < j → longest_first keys !! i = Some x →
       longest_first keys !! j = Some y → length y ≤ length x)
  ∧ ∀ n, filter (λ k : str, length k = n) (longest_first keys)
         = filter (λ k : str, length k = n) keys.
Proof.
  unfold longest_first. split_and!.
  - apply sorted_Permutation.
  - intros i j x y Hij Hi Hj.
    assert (StronglySorted (λ a b : str, (length a <? length b) = false)
              (sorted (λ x y : str, length y <? length x) keys)) as Hs.
    { apply (sorted_StronglySorted (λ x y : str, length y <? length x)).
      - intros a b Hab%Nat.ltb_lt. apply Nat.ltb_ge. lia.
      - intros a b c Hab%Nat.ltb_ge Hbc%Nat.ltb_ge. apply Nat.ltb_ge. lia. }
    pose proof (StronglySorted_lookup _ _ i j x y Hs Hij Hi Hj) as H.
    apply Nat.ltb_ge in H. lia.
  - intros n. apply filter_sorted. intros x y Hyx%Nat.ltb_lt Hx Hy. lia.
Qed.

(** X16: the variables are replaced one after the other, not at once: a
    formula [B] substituted for [A] is itself replaced when [B] is. *)
Theorem substitute_is_sequential ua (wb : str) :
  no_schema_variable ua wb →
  substitute ua (lit "(A → (B → A))") (dict_of_zip [lit "A"; lit "B"] [lit "B"; wb])
  = implication wb (implication wb wb).
Proof.
  intros (Hb1 & Hb2 & Hb3)%no_schema_variable_tok1.
  change (substitute ua (lit "(A → (B → A))")
            (dict_of_zip [lit "A"; lit "B"] [lit "B"; wb]))
    with (re_sub ua [66%N] wb (re_sub ua [65%N] (lit "B") (lit "(A → (B → A))"))).
  assert (re_sub ua [65%N] (lit "B") (lit "(A → (B → A))") = lit "(B → (B → B))")
    as -> by (vm_compute; reflexivity).
  rewrite re_sub_1 by done.
  concrete_template "(B → (B → B))"%string.
  sub1_steps. unfold implication. rewrite <- !app_assoc. reflexivity.
Qed.

Lemma substitute_is_sequential_witness :
  substitute (λ _, false) (lit "(A → (B → A))")
    (dict_of_zip [lit "A"; lit "B"] [lit "B"; lit "(¬a)"])
  = implication (lit "(¬a)") (implication (lit "(¬a)") (lit "(¬a)")).
Proof. apply (substitute_is_sequential (λ _, false) (lit "(¬a)")). repeat constructor. Defined.

(** ** The demonstration basis *)

Example generate_wff_basis_1 :
  generate_wff_basis 1
  = [lit "(a → a)"; lit "(a → b)"; lit "(b → a)"; lit "(b → b)";
     lit "(¬a)"; lit "(¬b)"; lit "a"; lit "b"].
Proof. vm_compute. reflexivity. Qed.

Example generate_wff_basis_2 :
  length (generate_wff_basis 2) = 74
  ∧ Forall (λ w, w ∈ generate_wff_basis 2) WFF_BASIS.
Proof.
  split; [vm_compute; reflexivity|].
  apply (bool_decide_unpack _). vm_compute. exact I.
Qed.

Lemma elem_of_implications (xs ys : gset str) (s : str) :
  s ∈ implications xs ys ↔ ∃ a b, a ∈ xs ∧ b ∈ ys ∧ s = implication a b.
Proof.
  unfold implications. rewrite elem_of_list_to_set, list_elem_of_bind. split.
  - intros (a & (b & ->%list_elem_of_singleton & Hb%elem_of_elements)%list_elem_of_bind
              & Ha%elem_of_elements). eauto.
  - intros (a & b & Ha & Hb & ->). exists a. split; [|by apply elem_of_elements].
    apply list_elem_of_bind. exists b. split; [by left|by apply elem_of_elements].
Qed.

Lemma elem_of_foldl_union {A} (F : A → gset str) (l : list A) (X : gset str)
    (f : gset str → A → gset str) (s : str) :
  (∀ acc i, f acc i = acc ∪ F i) →
  s ∈ foldl f X l ↔ s ∈ X ∨ ∃ i, i ∈ l ∧ s ∈ F i.
Proof.
  intros Hf. revert X. induction l as [|i l IH]; intros X; simpl.
  - split; [by left|]. intros [?|(i & ?%elem_of_nil & _)]; done.
  - rewrite IH, Hf, elem_of_union. split.
    + intros [[?|?]|(i' & Hi' & ?)]; [by left|right..].
      * exists i. split; [left|done].
      * exists i'. split; [by right|done].
    + intros [?|(i' & [->|Hi']%elem_of_cons & ?)]; [by left; left|by left; right|].
      right. by exists i'.
Qed.

(** One round adds exactly the formulas of the next depth. *)
Lemma elem_of_wffs_at_depth (m : gmap nat (gset str)) depth (s : str) :
  (∀ n (w : str), n ≤ depth → w ∈ default ∅ (m !! n) ↔ depth_is n w) →
  s ∈ wffs_at_depth m (S depth) ↔ depth_is (S depth) s.
Proof.
  intros Hm. unfold wffs_at_depth.
  replace (S depth - 1) with depth by lia.
  set (at_depth := λ d, default ∅ (m !! d)).
  rewrite (elem_of_foldl_union
             (λ i, implications (at_depth i) (at_depth depth)
                   ∪ (if decide (i = depth) then ∅
                      else implications (at_depth depth) (at_depth i)))).
  2:{ intros acc i. destruct (decide (i = depth)); set_solver. }
  rewrite elem_of_map. split.
  - intros [(a & -> & Ha)|(i & Hi%elem_of_range & [H|H]%elem_of_union)].
    + constructor. apply Hm; [lia|done].
    + apply elem_of_implications in H as (a & b & Ha & Hb & ->).
      apply Hm in Ha; [|lia]. apply Hm in Hb; [|lia].
      replace depth with (Nat.max i depth) at 1 by lia. by constructor.
    + destruct (decide (i = depth)) as [|Hne]; [by apply elem_of_empty in H|].
      apply elem_of_implications in H as (a & b & Ha & Hb & ->).
      apply Hm in Ha; [|lia]. apply Hm in Hb; [|lia].
      replace depth with (Nat.max depth i) at 1 by lia. by constructor.
  - intros H. remember (S depth) as d eqn:Ed.
    destruct H as [| |n f Hf|n k f g Hf Hg]; [done|done|..];
      injection Ed as Ed.
    + subst n. left. exists f. split; [done|]. apply Hm; [lia|done].
    + right. destruct (decide (k = depth)) as [->|Hk].
      * exists n. split; [apply elem_of_range; lia|].
        apply elem_of_union. left. apply elem_of_implications.
        exists f, g. split_and!; [apply Hm; [lia|done]..|done].
      * assert (n = depth) as -> by lia.
        exists k. split; [apply elem_of_range; lia|].
        apply elem_of_union. right. rewrite decide_False by done.
        apply elem_of_implications.
        exists f, g. split_and!; [apply Hm; [lia|done]..|done].
Qed.

Lemma depth_is_0 (w : str) : depth_is 0 w ↔ w = lit "a" ∨ w = lit "b".
Proof.
  split.
  - inversion 1; auto.
  - intros [-> | ->]; constructor.
Qed.

Lemma wffs_up_to_spec max_depth :
  (∀ n (w : str), n ≤ max_depth →
     w ∈ default ∅ ((wffs_up_to max_depth).1 !! n) ↔ depth_is n w)
  ∧ ∀ w : str,
      w ∈ (wffs_up_to max_depth).2 ↔ ∃ n, n ≤ max_depth ∧ depth_is n w.
Proof.
  unfold wffs_up_to, range. replace (max_depth + 1 - 1) with max_depth by lia.
  induction max_depth as [|d [IH1 IH2]].
  { simpl. split.
    - intros n w Hn. assert (n = 0) as -> by lia.
      rewrite lookup_singleton_eq. simpl. rewrite depth_is_0. set_solver.
    - intros w. split.
      + intros Hw. exists 0. split; [done|]. apply depth_is_0. set_solver.
      + intros (n & Hn & Hw). assert (n = 0) as -> by lia.
        apply depth_is_0 in Hw. set_solver. }
  rewrite seq_S, foldl_app. cbn [foldl].
  destruct (foldl _ _ (seq 1 d)) as [m all]. cbn [fst snd] in *.
  replace (1 + d) with (S d) by lia. split.
  - intros n w Hn. destruct (decide (n = S d)) as [->|Hne].
    + rewrite lookup_insert_eq. simpl. by apply elem_of_wffs_at_depth.
    + rewrite lookup_insert_ne by done. apply IH1. lia.
  - intros w. rewrite elem_of_union, IH2, (elem_of_wffs_at_depth m d w IH1).
    split.
    + intros [(n & Hn & Hw)|Hw]; [exists n; split; [lia|done]|by exists (S d)].
    + intros (n & Hn & Hw). destruct (decide (n = S d)) as [->|Hne]; [by right|].
      left. exists n. split; [lia|done].
Qed.

Lemma StronglySorted_strict {A} (R : A → A → Prop) (l : list A) :
  StronglySorted R l → NoDup l → StronglySorted (λ a b, R a b ∧ a ≠ b) l.
Proof.
  induction 1 as [|x l Hs IH Hall]; intros Hnd; [constructor|].
  apply NoDup_cons in Hnd as [Hx Hnd]. constructor; [by apply IH|].
  rewrite Forall_forall in *. intros y Hy. split; [by apply Hall|].
  by intros ->.
Qed.

Lemma StronglySorted_mono {A} (R S : A → A → Prop) (l : list A) :
  (∀ a b, R a b → S a b) → StronglySorted R l → StronglySorted S l.
Proof.
  intros HRS. induction 1 as [|x l Hs IH Hall]; constructor; [done|].
  eapply Forall_impl; [exact Hall|]. intros y. apply HRS.
Qed.

Lemma depth_is_ground unicode_alnum n (w : str) :
  depth_is n w → ground_formula unicode_alnum w.
Proof.
  induction 1.
  - apply ground_atom; [done|]. by apply Forall_singleton.
  - apply ground_atom; [done|]. by apply Forall_singleton.
  - by apply ground_not.
  - by apply ground_implies.
Qed.

(** X17: [generate_wff_basis(max_depth)] lists exactly the formulas over
    the atoms [a] and [b] whose depth is at most [max_depth], each once, in
    the increasing order of their texts; they are formulas in the sense of
    the search. *)
Theorem generate_wff_basis_spec max_depth :
  (∀ w : str,
     w ∈ generate_wff_basis max_depth ↔ ∃ n, n ≤ max_depth ∧ depth_is n w)
  ∧ StronglySorted (λ x y : str, str_ltb x y = true)
      (generate_wff_basis max_depth)
  ∧ ∀ unicode_alnum,
      Forall (ground_formula unicode_alnum) (generate_wff_basis max_depth).
Proof.
  assert (∀ w : str,
            w ∈ generate_wff_basis max_depth
            ↔ ∃ n, n ≤ max_depth ∧ depth_is n w) as Hspec.
  { intros w. unfold generate_wff_basis.
    rewrite sorted_Permutation, elem_of_elements. apply wffs_up_to_spec. }
  split; [done|]. split.
  2:{ intros ua. apply Forall_forall. intros w (n & _ & Hw)%Hspec.
      by eapply depth_is_ground. }
  clear Hspec. unfold generate_wff_basis.
  - assert (StronglySorted (λ a b : str, str_ltb b a = false ∧ a ≠ b)
              (sorted str_ltb (elements (wffs_up_to max_depth).2))) as Hs.
    { apply StronglySorted_strict.
      - apply sorted_StronglySorted.
        + intros x y Hxy. destruct (str_ltb y x) eqn:Hyx; [|done].
          pose proof (str_ltb_trans _ _ _ Hxy Hyx) as H.
          by rewrite str_ltb_irrefl in H.
        + intros x y z Hyx Hzy. destruct (str_ltb z x) eqn:Hzx; [|done].
          destruct (str_ltb x y) eqn:Hxy.
          * pose proof (str_ltb_trans _ _ _ Hzx Hxy) as H. congruence.
          * pose proof (str_ltb_trichotomy _ _ Hxy Hyx) as ->. congruence.
      - rewrite sorted_Permutation. apply NoDup_elements. }
    eapply StronglySorted_mono; [|exact Hs].
    intros a b [H1 H2]. destruct (str_ltb a b) eqn:Hab; [done|].
    destruct H2. by apply str_ltb_trichotomy.
Qed.

(** ** An upper bound on the layers *)

Lemma record_proof_length k steps justs st :
  length (layer (record_proof k steps justs st) k) ≤ S (length (layer st k)).
Proof.
  rewrite record_proof_layer. destruct (decide _); [|lia].
  rewrite length_app. simpl. lia.
Qed.

Lemma foldl_length_bound {A B} (μ : A → nat) (c : B → nat) (I : A → Prop)
    (f : A → B → A) (l : list B) (a : A) :
  I a →
  (∀ a y, y ∈ l → I a → I (f a y) ∧ μ (f a y) ≤ μ a + c y) →
  I (foldl f a l) ∧ μ (foldl f a l) ≤ μ a + sum_list_with c l.
Proof.
  revert a. induction l as [|y l IH]; intros a Ha Hf; simpl; [split; [done|lia]|].
  destruct (Hf a y ltac:(left) Ha) as [Hy1 Hy2].
  destruct (IH (f a y) Hy1) as [H1 H2].
  { intros a' y' Hy' Ha'. apply Hf; [by right|done]. }
  split; [done|lia].
Qed.

Lemma sum_list_with_const {A} (c : nat) (l : list A) :
  sum_list_with (λ _, c) l = length l * c.
Proof. induction l as [|x l IH]; simpl; [done|]. rewrite IH. lia. Qed.

Lemma sum_list_with_skip i n :
  sum_list_with (λ j, if decide (i = j) then 0 else 1) (seq 0 n)
  = if decide (i < n) then n - 1 else n.
Proof.
  induction n as [|n IH]; [done|].
  rewrite seq_S, sum_list_with_app, IH. simpl.
  repeat case_decide; lia.
Qed.

Lemma extend_with_axioms_length k steps justs st :
  length (layer (extend_with_axioms k steps justs st) k)
  ≤ length (layer st k) + length (layer st 1).
Proof.
  unfold extend_with_axioms. generalize (layer st 1). intros l.
  destruct (foldl_length_bound (λ st, length (layer st k)) (λ _, 1)
              (λ _, True)
              (λ st (axiom_proof : proof),
                 record_proof k (steps ++ [default [] (axiom_proof.1 !! 0)])
                   (justs ++ [default [] (axiom_proof.2 !! 0)]) st)
              l st I) as [_ H].
  { intros st' ap _ _. split; [done|].
    pose proof (record_proof_length k (steps ++ [default [] (ap.1 !! 0)])
                  (justs ++ [default [] (ap.2 !! 0)]) st'). lia. }
  rewrite sum_list_with_const in H. lia.
Qed.

Lemma try_mp_length k steps justs i j st :
  length (layer (try_mp k steps justs i j st) k)
  ≤ length (layer st k) + (if decide (i = j) then 0 else 1).
Proof.
  unfold try_mp. case_bool_decide; [rewrite decide_True by done; lia|].
  rewrite decide_False by done.
  destruct (apply_mp _ _) as [[|c q]|]; try lia.
  pose proof (record_proof_length k (steps ++ [c :: q]) (justs ++ [mp_just i j]) st).
  lia.
Qed.

Lemma extend_with_mp_length k steps justs st :
  length (layer (extend_with_mp k steps justs st) k)
  ≤ length (layer st k) + (k - 1) * (k - 2).
Proof.
  unfold extend_with_mp, range. rewrite Nat.sub_0_r.
  destruct (foldl_length_bound (λ st, length (layer st k)) (λ _, k - 2)
              (λ _, True)
              (λ st i, foldl (λ st j, try_mp k steps justs i j st) st
                         (seq 0 (k - 1)))
              (seq 0 (k - 1)) st I) as [_ H].
  { intros st' i Hi%elem_of_seq _. split; [done|].
    destruct (foldl_length_bound (λ st, length (layer st k))
                (λ j, if decide (i = j) then 0 else 1) (λ _, True)
                (λ st j, try_mp k steps justs i j st)
                (seq 0 (k - 1)) st' I) as [_ H].
    { intros st2 j _ _. split; [done|]. apply try_mp_length. }
    rewrite sum_list_with_skip, decide_True in H by lia. lia. }
  rewrite sum_list_with_const, length_seq in H. lia.
Qed.

Lemma extend_proof_length k pr st :
  length (layer (extend_proof k pr st) k)
  ≤ length (layer st k) + (length (layer st 1) + (k - 1) * (k - 2)).
Proof.
  unfold extend_proof. destruct pr as [steps justs].
  pose proof (extend_with_mp_length k steps justs
                (extend_with_axioms k steps justs st)).
  pose proof (extend_with_axioms_length k steps justs st). lia.
Qed.

Lemma grow_length k st :
  2 ≤ k → layer st k = [] →
  length (layer (grow k st).2 k)
  ≤ length (layer st (k - 1)) * (length (layer st 1) + (k - 1) * (k - 2)).
Proof.
  intros Hk Hempty. unfold grow.
  destruct (layer st (k - 1)) as [|pr0 prs] eqn:Hprev.
  { cbn [snd]. rewrite layer_write, Hempty. apply Nat.le_0_l. }
  set (st1 := write _ st). set (l := pr0 :: prs).
  destruct (foldl_length_bound (λ st, length (layer st k))
              (λ _, length (layer st 1) + (k - 1) * (k - 2))
              (same_below k st1)
              (λ st pr, extend_proof k pr st) l st1) as [Hs H].
  { apply same_below_refl. }
  { intros st' pr _ Hst'. split.
    - eapply same_below_trans; [exact Hst'|apply extend_proof_same_below].
    - pose proof (extend_proof_length k pr st') as Hl.
      rewrite (Hst' 1) in Hl by lia. unfold st1 in Hl.
      by rewrite layer_write in Hl. }
  rewrite sum_list_with_const in H.
  change (layer st1 k) with (layer st k) in H. rewrite Hempty in H.
  set (st2 := foldl _ _ _) in *. subst l. cbn [length plus] in H.
  destruct (layer (write _ st2) k); cbn [snd];
    rewrite ?layer_pop_seen, !layer_write; exact H.
Qed.

Section Bound.
Variable unicode_alnum : char → bool.
Variable basis : list str.

Local Abbreviation reachable := (reachable unicode_alnum basis).
Local Abbreviation final := (search unicode_alnum basis).

Lemma for_each_grow_bound a n st k :
  2 ≤ a → reachable (a - 1) st → a ≤ k < a + n →
  length (layer (for_each (seq a n) grow st) k)
  ≤ length (layer (for_each (seq a n) grow st) (k - 1))
    * (length (layer (for_each (seq a n) grow st) 1) + (k - 1) * (k - 2)).
Proof.
  revert a st. induction n as [|n IH]; intros a st Ha H Hk; [lia|].
  simpl.
  pose proof (grow_reachable unicode_alnum basis a st Ha H) as Hr.
  pose proof (grow_same_below a st) as Hs.
  pose proof (reachable_built _ _ _ _ H) as Hbt.
  pose proof (grow_length a st Ha
                (proj1 (built_above _ _ Hbt a ltac:(lia)))) as Hg.
  rewrite <- (Hs (a - 1)), <- (Hs 1) in Hg by lia.
  destruct (grow a st) as [[] st'] eqn:Hgrow; cbn [fst snd] in *.
  - destruct (decide (k = a)) as [->|Hne].
    + by rewrite !(for_each_grow_below (S a) n st') by lia.
    + apply IH; [lia| |lia]. by replace (S a - 1) with a by lia.
  - destruct (decide (k = a)) as [->|Hne]; [done|].
    pose proof (reachable_built _ _ _ _ Hr) as Hbt'.
    rewrite (proj1 (built_above _ _ Hbt' k ltac:(lia))). apply Nat.le_0_l.
Qed.

Lemma layers_bounded_aux max_length k :
  2 ≤ k ≤ max_length →
  length (layer (final max_length) k)
  ≤ length (layer (final max_length) (k - 1))
    * (length (layer (final max_length) 1) + (k - 1) * (k - 2)).
Proof.
  intros Hk. unfold search, range. rewrite !layer_write.
  apply for_each_grow_bound; [lia|apply before_loop_reachable|lia].
Qed.

(** X18: layer [k] has at most as many proofs as layer [k - 1] times the
    size of layer 1 plus the [(k - 1) (k - 2)] pairs of distinct lines; in
    particular layer 2 has exactly the square of the size of layer 1:
    with one line there is nothing to detach. *)
Theorem layers_bounded max_length k :
  2 ≤ k ≤ max_length →
  length (layer (final max_length) k)
  ≤ length (layer (final max_length) (k - 1))
    * (length (layer (final max_length) 1) + (k - 1) * (k - 2))
  ∧ length (layer (final max_length) 2)
    = length (layer (final max_length) 1) * length (layer (final max_length) 1).
Proof.
  intros Hk. split; [by apply layers_bounded_aux|].
  pose proof (layers_bounded_aux max_length 2 ltac:(lia)) as H1.
  pose proof (layers_grow_aux unicode_alnum basis max_length 2 ltac:(lia)) as H2.
  simpl in *. lia.
Qed.

(** X19: a proof with a Modus Ponens justification has at least three
    lines, so starting the collection at length 3 leaves out no proof that
    uses Modus Ponens. *)
Theorem mp_needs_three_lines max_length k (pr : proof) n i j :
  pr ∈ layer (final max_length) k → pr.2 !! n = Some (mp_just i j) → 3 ≤ k.
Proof.
  intros Hpr Hn.
  destruct (reachable_sound _ _ _ _
              (search_reachable unicode_alnum basis max_length) k pr Hpr)
    as (L1 & L2 & Hs).
  pose proof (lookup_lt_Some _ _ _ Hn) as Hlt. rewrite L2 in Hlt.
  destruct (Hs n Hlt)
    as [(name & template & vars & combo & H1 & H2 & H3 & H4)
       |(i' & j' & p & pq & q & Hij & Hi & Hj & _)]; [|lia].
  rewrite Hn in H4. injection H4 as E.
  pose proof (mp_just_startswith i j) as Hmp. rewrite E in Hmp.
  erewrite axiom_just_startswith in Hmp by done. done.
Qed.
End Bound.

Lemma layers_bounded_witness :
  length (layer (search (λ _, false) [lit "a"] 3) 3)
  ≤ length (layer (search (λ _, false) [lit "a"] 3) (3 - 1))
    * (length (layer (search (λ _, false) [lit "a"] 3) 1) + (3 - 1) * (3 - 2))
  ∧ length (layer (search (λ _, false) [lit "a"] 3) 2)
    = length (layer (search (λ _, false) [lit "a"] 3) 1)
      * length (layer (search (λ _, false) [lit "a"] 3) 1).
Proof. apply (layers_bounded (λ _, false) [lit "a"] 3 3). lia. Defined.

Lemma mp_needs_three_lines_witness :
  three_lines ∈ layer (search (λ _, false) [lit "a"] 3) 3
  ∧ three_lines.2 !! 2 = Some (mp_just 0 1)
  ∧ 3 ≤ 3.
Proof.
  assert (three_lines ∈ layer (search (λ _, false) [lit "a"] 3) 3) as H.
  { apply (bool_decide_unpack _). vm_compute. exact I. }
  split_and!; [exact H|reflexivity|].
  exact (mp_needs_three_lines (λ _, false) [lit "a"] 3 3 three_lines 2 0 1
           H eq_refl).
Defined.

(** ** Every line is a tautology *)

Section Truth.
Variable unicode_alnum : char → bool.

Local Abbreviation formula := (formula unicode_alnum).
Local Abbreviation truth := (truth unicode_alnum).
Local Abbreviation tautology := (tautology unicode_alnum).

Lemma truth_formula v w b : truth v w b → formula w.
Proof. induction 1; by constructor. Qed.

Lemma truth_total v w : formula w → ∃ b, truth v w b.
Proof.
  induction 1 as [a Hne Ha|f Hf [b Hb]|f Hf [b Hb]|f g Hf [b Hb] Hg [c Hc]].
  - exists (v a). by constructor.
  - exists (negb b). by constructor.
  - exists (negb b). by constructor.
  - exists (implb b c). by constructor.
Qed.

(** A negation in parentheses is no implication. *)
Lemma not_is_no_implication f p q :
  formula f → formula p → lit "(¬" ++ f ++ lit ")" ≠ implication p q.
Proof.
  intros Hf Hp Es. rewrite implication_eq, formula_not_eq in Es.
  injection Es as E.
  pose proof (formula_comparable unicode_alnum
                (S (length (lit "¬" ++ f) + length p))
                (lit "¬" ++ f) p ([41%N]) (32%N :: 8594%N :: 32%N :: q ++ [41%N])
                ltac:(lia) (formula_neg _ _ Hf) Hp E) as Hc.
  change (lit "¬" ++ f) with (172%N :: f) in Hc.
  destruct Hc as [(r & Hr & ->)|(r & Hr & Ep)].
  - simpl in E. injection E as E. rewrite <- !app_assoc in E.
    apply app_inv_head in E. symmetry in E.
    by apply (alnum_then unicode_alnum) in E as (_ & ? & _); [|done|apply not_alnum_41].
  - rewrite app_comm_cons, Ep in E. rewrite <- !app_assoc in E.
    apply app_inv_head in E.
    by apply (alnum_then unicode_alnum) in E as (_ & ? & _); [|done|apply not_alnum_32].
Qed.

Lemma truth_atom_inv v (a : str) b :
  a ≠ [] → Forall (λ c, is_alnum unicode_alnum c = true) a →
  truth v a b → b = v a.
Proof.
  intros Hne Ha H. destruct a as [|c a]; [done|].
  apply Forall_inv in Ha.
  remember (c :: a) as w eqn:Ew.
  destruct H as [a' _ _|f b' _|f b' _|f g b' c' _ _]; [done|..];
    exfalso; rewrite ?formula_neg_eq, ?formula_not_eq, ?implication_eq in Ew;
    injection Ew as <- _; vm_compute in Ha; done.
Qed.

Lemma truth_neg_inv v (f : str) b :
  truth v (lit "¬" ++ f) b → ∃ b', truth v f b' ∧ b = negb b'.
Proof.
  intros H. remember (lit "¬" ++ f) as w eqn:Ew.
  destruct H as [a Hne Ha|f' b' Hf'|f' b' _|f' g b' c' _ _].
  - exfalso. subst a. apply Forall_inv in Ha. vm_compute in Ha. done.
  - injection Ew as ->. eauto.
  - discriminate Ew.
  - discriminate Ew.
Qed.

Lemma truth_not_inv v (f : str) b :
  formula f →
  truth v (lit "(¬" ++ f ++ lit ")") b → ∃ b', truth v f b' ∧ b = negb b'.
Proof.
  intros Hf H. remember (lit "(¬" ++ f ++ lit ")") as w eqn:Ew.
  destruct H as [a Hne Ha|f' b' Hf'|f' b' Hf'|f' g b' c' Hf' Hg].
  - exfalso. subst a. apply Forall_inv in Ha. vm_compute in Ha. done.
  - discriminate Ew.
  - rewrite !formula_not_eq in Ew. injection Ew as Ew.
    apply app_inv_tail in Ew as ->. eauto.
  - exfalso. symmetry in Ew. revert Ew. apply not_is_no_implication; [done|].
    by eapply truth_formula.
Qed.

Lemma truth_implies_inv v (p q : str) b :
  formula p →
  truth v (implication p q) b →
  ∃ b1 b2, truth v p b1 ∧ truth v q b2 ∧ b = implb b1 b2.
Proof.
  intros Hp H. remember (implication p q) as w eqn:Ew.
  destruct H as [a Hne Ha|f' b' Hf'|f' b' Hf'|f' g b' c' Hf' Hg].
  - exfalso. subst a. apply Forall_inv in Ha. vm_compute in Ha. done.
  - discriminate Ew.
  - exfalso. revert Ew. apply not_is_no_implication; [|done].
    by eapply truth_formula.
  - apply (implication_inj unicode_alnum) in Ew as [-> ->];
      [eauto|by eapply truth_formula|done].
Qed.

(** A formula has one truth value. *)
Lemma truth_functional v w b b' : truth v w b → truth v w b' → b = b'.
Proof.
  intros H. revert b'.
  induction H as [a Hne Ha|f b _ IH|f b Hf IH|f g b c Hf IHf Hg IHg]; intros b' H'.
  - symmetry. by apply truth_atom_inv.
  - apply truth_neg_inv in H' as (b1 & H1 & ->). f_equal. by apply IH.
  - apply truth_not_inv in H' as (b1 & H1 & ->); [|by eapply truth_formula].
    f_equal. by apply IH.
  - apply truth_implies_inv in H' as (b1 & b2 & H1 & H2 & ->);
      [|by eapply truth_formula].
    f_equal; [by apply IHf|by apply IHg].
Qed.

Ltac truth_inv :=
  repeat match goal with
    | H : truth _ (implication _ _) _ |- _ =>
        apply truth_implies_inv in H as (? & ? & ? & ? & ->);
        [|by repeat first [done|apply formula_implies|apply formula_neg]]
    | H : truth _ (lit "¬" ++ _) _ |- _ =>
        apply truth_neg_inv in H as (? & ? & ->)
    end.

Ltac truth_same :=
  repeat match goal with
    | H1 : truth ?v ?w ?b, H2 : truth ?v ?w ?c |- _ =>
        pose proof (truth_functional v w b c H1 H2); subst; clear H2
    end.

Lemma schema_A1_tautology wa wb :
  formula wa → formula wb → tautology (implication wa (implication wb wa)).
Proof.
  intros Ha Hb. split; [by repeat apply formula_implies|].
  intros v b H. truth_inv. truth_same.
  repeat match goal with b : bool |- _ => destruct b end; done.
Qed.

Lemma schema_A2_tautology wa wb wc :
  formula wa → formula wb → formula wc →
  tautology (implication (implication wa (implication wb wc))
               (implication (implication wa wb) (implication wa wc))).
Proof.
  intros Ha Hb Hc. split; [by repeat apply formula_implies|].
  intros v b H. truth_inv. truth_same.
  repeat match goal with b : bool |- _ => destruct b end; done.
Qed.

Lemma schema_A3_tautology wa wb :
  formula wa → formula wb →
  tautology (implication (implication (lit "¬" ++ wb) (lit "¬" ++ wa))
               (implication wa wb)).
Proof.
  intros Ha Hb.
  split; [by repeat first [done|apply formula_implies|apply formula_neg]|].
  intros v b H. truth_inv. truth_same.
  repeat match goal with b : bool |- _ => destruct b end; done.
Qed.

(** Modus Ponens preserves truth. *)
Lemma modus_ponens_tautology p q :
  tautology p → tautology (implication p q) → formula q → tautology q.
Proof.
  intros [Fp Hp] [_ Hpq] Fq. split; [done|]. intros v b Hq.
  destruct (truth_total v p Fp) as [bp Hbp].
  pose proof (Hp v bp Hbp) as ->.
  by pose proof (Hpq v _ (truth_implies _ _ _ _ _ _ Hbp Hq)) as H.
Qed.
End Truth.

Section Soundness.
Variable unicode_alnum : char → bool.
Variable basis : list str.
Hypothesis basis_formulas : Forall (formula unicode_alnum) basis.
Hypothesis basis_ground : Forall (no_schema_variable unicode_alnum) basis.

Local Abbreviation tautology := (tautology unicode_alnum).
Local Abbreviation final := (search unicode_alnum basis).
Local Abbreviation reported := (reported unicode_alnum basis).

Lemma axiom_instance_tautology name template vars combo :
  (name, (template, vars)) ∈ AXIOM_TEMPLATES →
  combo ∈ product basis (length vars) →
  tautology (substitute unicode_alnum template (dict_of_zip vars combo)).
Proof.
  intros Hin Hc.
  destruct (axiom_instance_shape unicode_alnum basis basis_formulas
              basis_ground _ _ _ _ Hin Hc)
    as (wa & wb & wc & Ha & Hb & Hc' & [->|[->| ->]]).
  - by apply schema_A1_tautology.
  - by apply schema_A2_tautology.
  - by apply schema_A3_tautology.
Qed.

Lemma reachable_tautologies :
  ∀ k st, reachable unicode_alnum basis k st →
  ∀ i (pr : proof), pr ∈ layer st i → length pr.1 = i ∧ Forall tautology pr.1.
Proof.
  apply (reachable_layer_ind unicode_alnum basis
           (λ i pr, length pr.1 = i ∧ Forall tautology pr.1)).
  - intros name template vars combo He Hc. split; [done|].
    apply Forall_singleton. by eapply axiom_instance_tautology.
  - intros k pr ap Hk [Lpr Hpr] [Lap Hap]. simpl. split.
    { rewrite length_app. simpl. lia. }
    apply Forall_app. split; [done|].
    apply Forall_singleton. destruct ap as [[|s ?] ?]; [done|].
    by apply Forall_cons in Hap as [? _].
  - intros k pr i j p pq q Hk [Lpr Hpr] _ Hp Hpq Hq _. simpl. split.
    { rewrite length_app. simpl. lia. }
    apply Forall_app. split; [done|]. apply Forall_singleton.
    rewrite Forall_forall in Hpr.
    pose proof (Hpr p (list_elem_of_lookup_2 _ _ _ Hp)) as Tp.
    pose proof (Hpr pq (list_elem_of_lookup_2 _ _ _ Hpq)) as Tpq.
    apply apply_mp_Some in Hq. subst pq.
    apply (modus_ponens_tautology unicode_alnum p q); [done..|].
    apply (formula_implication_inv unicode_alnum p q); [apply Tp|apply Tpq].
Qed.

Lemma reported_in_layer max_length (best : proof) :
  best ∈ reported max_length →
  ∃ k, 3 ≤ k ≤ max_length ∧ best ∈ layer (final max_length) k.
Proof.
  unfold reported, final_proofs. rewrite sorted_Permutation.
  set (cands := proofs_with_mp _ _).
  destruct (best_proofs_spec cands) as (Hnd & _ & Hspec).
  intros Hin. destruct (dict_values_get _ _ Hin Hnd) as [t Ht].
  destruct (Hspec _ _ Ht) as (Hc & _ & _).
  by apply elem_of_proofs_with_mp in Hc as [? _].
Qed.

(** X20: soundness: over a basis of formulas in which no schema variable
    occurs, every line of every proof the search records is a tautology
    (true under every valuation of the atoms, by the classical truth
    tables), and so is the theorem of every proof of the report. *)
Theorem reported_theorems_are_tautologies max_length :
  (∀ k (pr : proof),
     pr ∈ layer (final max_length) k → Forall tautology pr.1)
  ∧ ∀ best : proof,
      best ∈ reported max_length → tautology (theorem_of best.1).
Proof.
  assert (∀ k (pr : proof),
            pr ∈ layer (final max_length) k →
            length pr.1 = k ∧ Forall tautology pr.1) as H.
  { apply (reachable_tautologies _ _
             (search_reachable unicode_alnum basis max_length)). }
  split; [intros k pr Hpr; by destruct (H k pr Hpr)|].
  intros best (k & Hk & Hb)%reported_in_layer.
  destruct (H k best Hb) as [L Hall].
  unfold theorem_of. destruct (last best.1) as [t|] eqn:El.
  - rewrite Forall_forall in Hall. apply Hall. simpl.
    apply last_Some in El as [l' ->]. set_solver.
  - apply last_None in El. rewrite El in L. simpl in L. lia.
Qed.

End Soundness.

Lemma reported_theorems_are_tautologies_witness :
  (∀ k (pr : proof),
     pr ∈ layer (search (λ _, false) WFF_BASIS MAX_LENGTH) k →
     Forall (tautology (λ _, false)) pr.1)
  ∧ ∀ best : proof,
      best ∈ reported (λ _, false) WFF_BASIS MAX_LENGTH →
      tautology (λ _, false) (theorem_of best.1).
Proof.
  apply (reported_theorems_are_tautologies (λ _, false) WFF_BASIS
           (WFF_BASIS_formulas _) (WFF_BASIS_no_schema_variable _) MAX_LENGTH).
Defined.

(** ** The search is exhaustive *)

Section Exhaustive.
Variable unicode_alnum : char → bool.
Variable basis : list str.

Local Abbreviation final := (search unicode_alnum basis).
Local Abbreviation derivation := (derivation unicode_alnum basis).

Lemma derivation_prefix (l : list str) q : derivation (l ++ [q]) → derivation l.
Proof.
  intros H n q' Hn. pose proof (lookup_lt_Some _ _ _ Hn) as Hlt.
  destruct (H n q' (lookup_app_l_Some _ _ _ _ Hn))
    as [?|(Hq & i & j & p & pq & Hij & Hi & Hj & Hp & Hpq & Hmp)]; [by left|].
  right. split; [done|]. exists i, j, p, pq.
  rewrite lookup_app_l in Hp, Hpq by lia. done.
Qed.

Lemma derivation_recorded max_length (steps : list str) :
  steps ≠ [] → length steps ≤ Nat.max 1 max_length → derivation steps →
  ∃ justs, (steps, justs) ∈ layer (final max_length) (length steps).
Proof.
  induction steps as [|q l IH] using rev_ind; [done|]. intros _ Hlen Hd.
  rewrite length_app in *. simpl in *.
  assert ((l ++ [q]) !! length l = Some q) as Hq.
  { rewrite lookup_app_r by done. by rewrite Nat.sub_diag. }
  destruct (decide (l = [])) as [->|Hl].
  - destruct (Hd 0 q Hq)
      as [(name & template & vars & combo & Hin & Hc & ->)
         |(_ & i & j & _ & _ & _ & Hi & _)]; [|lia].
    simpl. by apply (axiom_instance_in_layer _ _ _ name).
  - assert (0 < length l) as Hpos by (destruct l; [done|simpl; lia]).
    destruct (IH Hl ltac:(lia) (derivation_prefix _ _ Hd)) as [justs Hj].
    replace (length l + 1) with (S (length l)) by lia.
    destruct (Hd (length l) q Hq)
      as [(name & template & vars & combo & Hin & Hc & ->)
         |(Hne & i & j & p & pq & Hij & Hi & Hj' & Hp & Hpq & Hmp)].
    + destruct (axiom_instance_in_layer unicode_alnum basis max_length
                  name template vars combo Hin Hc) as [j1 H1].
      apply (axiom_extension_in_layer unicode_alnum basis max_length
               (S (length l)) (l, justs) (_, j1)); [lia| |done].
      simpl. by rewrite Nat.sub_0_r.
    + apply (mp_extension_in_layer unicode_alnum basis max_length
               (S (length l)) (l, justs) i j q); [lia| |].
      * simpl. by rewrite Nat.sub_0_r.
      * split_and!; [done..|]. exists p, pq.
        rewrite lookup_app_l in Hp, Hpq by lia. done.
Qed.

Lemma derivation_snoc (l : list str) q :
  derivation l →
  ((∃ name template vars combo,
       (name, (template, vars)) ∈ AXIOM_TEMPLATES
       ∧ combo ∈ product basis (length vars)
       ∧ q = substitute unicode_alnum template (dict_of_zip vars combo))
   ∨ (q ≠ []
      ∧ ∃ i j p p_implies_q,
          i ≠ j ∧ l !! i = Some p ∧ l !! j = Some p_implies_q
          ∧ apply_mp p p_implies_q = Some q)) →
  derivation (l ++ [q]).
Proof.
  intros Hl Hq n q' Hn. apply lookup_app_Some in Hn as [Hn|[Hge Hn]].
  - destruct (Hl n q' Hn)
      as [?|(Hq' & i & j & p & pq & Hij & Hi & Hj & Hp & Hpq & Hmp)]; [by left|].
    right. split; [done|]. exists i, j, p, pq.
    split_and!; try done; by apply lookup_app_l_Some.
  - apply list_lookup_singleton_Some in Hn as [Hn <-].
    destruct Hq as [?|(Hq' & i & j & p & pq & Hij & Hp & Hpq & Hmp)]; [by left|].
    right. split; [done|]. exists i, j, p, pq.
    pose proof (lookup_lt_Some _ _ _ Hp). pose proof (lookup_lt_Some _ _ _ Hpq).
    split_and!; try done; try lia; by apply lookup_app_l_Some.
Qed.

Lemma reachable_derivation :
  ∀ k st, reachable unicode_alnum basis k st →
  ∀ i (pr : proof), pr ∈ layer st i → length pr.1 = i ∧ derivation pr.1.
Proof.
  apply (reachable_layer_ind unicode_alnum basis
           (λ i pr, length pr.1 = i ∧ derivation pr.1)).
  - intros name template vars combo He Hc. split; [done|].
    apply (derivation_snoc []); [by intros n q ?|]. left. eauto 10.
  - intros k pr ap Hk [Lpr Hpr] [Lap Hap]. simpl. split.
    { rewrite length_app. simpl. lia. }
    apply derivation_snoc; [done|]. left.
    destruct ap as [[|a [|? ?]] ?]; try done. simpl.
    destruct (Hap 0 a eq_refl) as [?|(_ & i & j & _ & _ & _ & Hi & _)]; [done|lia].
  - intros k pr i j p pq q Hk [Lpr Hpr] Hij Hp Hpq Hq Hne. simpl. split.
    { rewrite length_app. simpl. lia. }
    apply derivation_snoc; [done|]. right. split; [done|]. by exists i, j, p, pq.
Qed.

(** X21: the search is exhaustive and sound: a non-empty sequence of at
    most [max_length] lines is the step sequence of a recorded proof (of the
    layer of its length) exactly when it is a derivation: every line is an
    instance of a schema over the basis or the non-empty consequent that
    [apply_mp] returns on two distinct earlier lines. *)
Theorem search_is_exhaustive max_length (steps : list str) :
  steps ≠ [] → length steps ≤ Nat.max 1 max_length →
  derivation steps
  ↔ ∃ justs, (steps, justs) ∈ layer (final max_length) (length steps).
Proof.
  intros Hne Hlen. split; [by apply derivation_recorded|].
  intros [justs Hj].
  by destruct (reachable_derivation _ _
                 (search_reachable unicode_alnum basis max_length) _ _ Hj).
Qed.

End Exhaustive.

Lemma search_is_exhaustive_witness :
  derivation (λ _, false) [lit "a"] three_lines.1
  ↔ ∃ justs,
      (three_lines.1, justs)
      ∈ layer (search (λ _, false) [lit "a"] 3) (length three_lines.1).
Proof.
  apply (search_is_exhaustive (λ _, false) [lit "a"] 3 three_lines.1);
    [done|simpl; lia].
Defined.

(** ** When the report is empty *)

Lemma list_nonempty_elem {A} (l : list A) : l ≠ [] → ∃ x, x ∈ l.
Proof. destruct l as [|x l]; [done|]. intros _. exists x. left. Qed.

Section EmptyReport.
Variable unicode_alnum : char → bool.
Variable basis : list str.
Hypothesis basis_formulas : Forall (formula unicode_alnum) basis.
Hypothesis basis_ground : Forall (no_schema_variable unicode_alnum) basis.

Local Abbreviation formula := (formula unicode_alnum).
Local Abbreviation final := (search unicode_alnum basis).
Local Abbreviation candidates max_length :=
  (proofs_with_mp max_length (final max_length)).

(** [((x → x) → (x → x))] is no instance of a schema. *)
Lemma loop_not_axiom x name template vars combo :
  formula x →
  (name, (template, vars)) ∈ AXIOM_TEMPLATES →
  combo ∈ product basis (length vars) →
  substitute unicode_alnum template (dict_of_zip vars combo)
  ≠ implication (implication x x) (implication x x).
Proof.
  intros Hx Hin Hc E.
  assert (formula (implication x x)) as Hxx by by apply formula_implies.
  destruct (axiom_instance_shape unicode_alnum basis basis_formulas
              basis_ground _ _ _ _ Hin Hc)
    as (wa & wb & wc & Ha & Hb & Hc' & [E'|[E'|E']]);
    rewrite E' in E; clear E'.
  - apply (implication_inj unicode_alnum) in E as [-> E]; [|done..].
    apply (implication_inj unicode_alnum) in E as [-> E]; [|done..].
    apply (f_equal length) in E. rewrite length_implication in E. lia.
  - apply (implication_inj unicode_alnum) in E as [E1 E2];
      [|by repeat apply formula_implies|done].
    apply (implication_inj unicode_alnum) in E1 as [-> E1]; [|done..].
    apply (implication_inj unicode_alnum) in E2 as [E2 _];
      [|by repeat apply formula_implies|done].
    apply (f_equal length) in E2. rewrite length_implication in E2. lia.
  - apply (implication_inj unicode_alnum) in E as [E1 E2];
      [|by repeat first [apply formula_implies|apply formula_neg]|done].
    apply (implication_inj unicode_alnum) in E2 as [-> ->]; [|done..].
    apply (implication_inj unicode_alnum) in E1 as [E1 _];
      [|by apply formula_neg|done].
    apply (f_equal length) in E1. simpl in E1. lia.
Qed.

Lemma candidate_exists max_length x :
  3 ≤ max_length → x ∈ basis → candidates max_length ≠ [].
Proof.
  intros Hmax Hx.
  set (xx := implication x x).
  set (s1 := implication x xx).
  set (s3 := implication xx xx).
  set (s2 := implication s1 s3).
  pose proof (proj1 (Forall_forall _ _) basis_formulas _ Hx) as Fx.
  pose proof (proj1 (Forall_forall _ _) basis_ground _ Hx) as Gx.
  destruct (axiom_instance_in_layer unicode_alnum basis max_length
              (lit "A1") (lit "(A → (B → A))")
              [lit "A"; lit "B"] [x; x]) as [j1 H1].
  { apply (bool_decide_unpack _). vm_compute. exact I. }
  { apply (elem_of_product basis [x; x]). by repeat constructor. }
  rewrite substitute_A1_implication in H1 by done. fold xx s1 in H1.
  destruct (axiom_instance_in_layer unicode_alnum basis max_length
              (lit "A2") (lit "((A → (B → C)) → ((A → B) → (A → C)))")
              [lit "A"; lit "B"; lit "C"] [x; x; x]) as [j2 H2].
  { apply (bool_decide_unpack _). vm_compute. exact I. }
  { apply (elem_of_product basis [x; x; x]). by repeat constructor. }
  rewrite substitute_A2_implication in H2 by done. fold xx s1 s3 s2 in H2.
  destruct (axiom_extension_in_layer unicode_alnum basis max_length 2
              ([s1], j1) ([s2], j2)) as [j12 H12]; [lia|done..|].
  destruct (mp_extension_in_layer unicode_alnum basis max_length 3
              ([s1; s2], j12) 0 1 s3) as [j3 H3]; [lia|done| |].
  { split_and!; [done|done|]. exists s1, s2. split_and!; [done..|].
    apply apply_mp_implication. }
  simpl in H3.
  assert (([s1; s2; s3], j3) ∈ candidates max_length) as Hin.
  { apply elem_of_proofs_with_mp. split; [exists 3; split; [lia|done]|].
    destruct (reachable_sound _ _ _ _
                (search_reachable unicode_alnum basis max_length) 3 _ H3)
      as (_ & _ & Hs).
    destruct (Hs 2 ltac:(lia))
      as [(name & template & vars & combo & Hin & Hc & Hl & _)
         |(i & j & p & pq & q & _ & _ & _ & _ & _ & _ & _ & Hj)].
    - exfalso. simpl in Hl. injection Hl as Hl. symmetry in Hl.
      by eapply loop_not_axiom.
    - by exists 2, i, j. }
  intros E. rewrite E in Hin. by apply elem_of_nil in Hin.
Qed.

Lemma no_candidate max_length :
  max_length < 3 ∨ basis = [] → candidates max_length = [].
Proof.
  intros Hc. apply elem_of_nil_inv. intros pr.
  intros [(k & Hk & Hpr) _]%elem_of_proofs_with_mp.
  destruct Hc as [?|Hb]; [lia|].
  destruct (reachable_derivation _ _ _ _
              (search_reachable unicode_alnum basis max_length) _ _ Hpr)
    as [L Hd].
  destruct pr.1 as [|q l] eqn:E; [simpl in L; lia|].
  destruct (Hd 0 q eq_refl)
    as [(name & template & vars & combo & Hin & Hc & _)
       |(_ & i & j & _ & _ & _ & Hi & _)]; [|lia].
  rewrite Hb in Hc. unfold AXIOM_TEMPLATES in Hin.
  repeat (apply elem_of_cons in Hin as [[= -> -> ->]|Hin];
          [by apply elem_of_nil in Hc|]).
  by apply elem_of_nil in Hin.
Qed.

(** X22: over a basis of formulas without schema variables, no proof that
    uses Modus Ponens is collected, and the run ends with the line that
    says so, exactly when [max_length] is less than 3 or the basis is
    empty. *)
Theorem report_is_empty_iff max_length :
  (candidates max_length = [] ↔ max_length < 3 ∨ basis = [])
  ∧ (last (find_all_proofs unicode_alnum basis max_length) = Some NoneWithMP
     ↔ max_length < 3 ∨ basis = []).
Proof.
  assert (candidates max_length = [] ↔ max_length < 3 ∨ basis = []) as Hiff.
  { split; [|apply no_candidate]. intros Hc.
    destruct (decide (max_length < 3)) as [|Hge]; [by left|]. right.
    destruct (decide (basis = [])) as [|Hne]; [done|]. exfalso.
    destruct (list_nonempty_elem basis Hne) as [x Hx].
    apply (candidate_exists max_length x); [lia|done..]. }
  split; [done|]. rewrite <- Hiff. unfold find_all_proofs. cbv zeta.
  change (proofs_with_mp max_length (write ?e (final max_length)))
    with (candidates max_length).
  destruct (candidates max_length) as [|c cands] eqn:Ec.
  - split; [done|]. intros _. cbn [write written]. by rewrite last_snoc.
  - split; [|done]. intros Hl. exfalso. revert Hl.
    cbn [write written].
    set (l := _ ≫= _). destruct (last l) as [e|] eqn:El.
    + rewrite last_app, El. intros [= ->].
      apply last_Some in El as [l' El].
      assert (NoneWithMP ∈ l) as Hin by (rewrite El; set_solver).
      unfold l in Hin. apply list_elem_of_bind in Hin as (pr & Hin & _).
      unfold print_proof in Hin. destruct pr.1; set_solver.
    + rewrite last_app, El, last_snoc. done.
Qed.

End EmptyReport.

Lemma report_is_empty_iff_witness :
  (proofs_with_mp MAX_LENGTH (search (λ _, false) WFF_BASIS MAX_LENGTH) = []
   ↔ MAX_LENGTH < 3 ∨ WFF_BASIS = [])
  ∧ (last (find_all_proofs (λ _, false) WFF_BASIS MAX_LENGTH) = Some NoneWithMP
     ↔ MAX_LENGTH < 3 ∨ WFF_BASIS = []).
Proof.
  apply (report_is_empty_iff (λ _, false) WFF_BASIS
           (WFF_BASIS_formulas _) (WFF_BASIS_no_schema_variable _) MAX_LENGTH).
Defined.
